(** * SimpleVector over ArrayPtr: a shallow embedding with an explicit store

    The C++ sources are [array_ptr.h] (class [ArrayPtr], the sole owner of one
    [new Type[n]()] allocation) and [simple_vector.h] (class [SimpleVector],
    the growable container built on it).

    The embedding keeps what the code has:
    - [size_t] is a 64-bit unsigned integer: a value of [N] below [2^64], with
      the wrap-around of [+], [-] and [*] written out;
    - a raw pointer [Type*] is [nullptr] or an array allocation and an offset
      into it;
    - array allocations live in a heap, [SimpleVector] objects in an object
      store, so that two names of one object (self assignment, the identity
      test of [operator==]) and two owners of one allocation can be told
      apart;
    - a method is a state transformer that returns a value, throws, or
      faults (a failed [assert] or undefined behaviour);
    - [new] always succeeds: [std::bad_alloc] is not modelled;
    - an element is a plain value: a move assignment of an element copies
      it. *)

From Stdlib Require Import NArith ZArith Lia.
From stdpp Require Import gmap list strings.

Local Open Scope N_scope.

(** ** Machine integers *)

Definition SIZE_WIDTH : N := 64.
Definition SIZE_MOD : N := 2 ^ SIZE_WIDTH.

(** [size_t] arithmetic is modulo [2^64]. *)
Definition wrap (n : N) : N := n mod SIZE_MOD.
Definition size_add (a b : N) : N := wrap (a + b).
Definition size_sub (a b : N) : N := wrap (a + SIZE_MOD - wrap b).
Definition size_mul (a b : N) : N := wrap (a * b).

(** Conversion of a [ptrdiff_t] to [size_t]. *)
Definition size_of_diff (d : Z) : N := Z.to_N (d mod Z.of_N SIZE_MOD).

(** ** Pointers, exceptions, objects *)

(** Addresses of array allocations and of [SimpleVector] objects. *)
Abbreviation addr := positive.
Abbreviation ref := positive.

(** A [Type*]: null, or element [i] of the allocation at [a]. *)
Inductive pointer : Set :=
| nullptr
| Ptr (a : addr) (i : N).

#[global] Instance pointer_eq_dec : EqDecision pointer.
Proof. solve_decision. Defined.

Inductive exn : Set :=
| out_of_range (what : string).

(** [class ArrayPtr]: its only field. *)
Record ArrayPtr : Set := mkArrayPtr { raw_ptr_ : pointer }.

(** [class SimpleVector]: its three fields. *)
Record SimpleVector : Set := mkSimpleVector {
  ptr_ : ArrayPtr;
  size_ : N;
  capacity_ : N
}.

(** [struct ReserveProxyObj]. *)
Record ReserveProxyObj : Set := mkReserveProxyObj { capacity : N }.

(** The free function [Reserve(capacity_to_reserve)]. *)
Definition Reserve_proxy (capacity_to_reserve : N) : ReserveProxyObj :=
  mkReserveProxyObj capacity_to_reserve.

(** What the template asks of its parameter [Type]: value initialisation
    [Type()], [operator==] and [operator<]. *)
Class Element (T : Type) : Type := {
  T_default : T;
  T_eq : T → T → bool;
  T_lt : T → T → bool
}.

Section Model.

Context {T : Type} `{!Element T}.

(** ** The store *)

Record state : Type := mkState {
  objs : gmap ref SimpleVector;
  heap : gmap addr (list T)
}.

Inductive outcome (A : Type) : Type :=
| Ret (a : A) (s : state)
| Throw (e : exn) (s : state)
| Fault.
Arguments Ret {A} a s.
Arguments Throw {A} e s.
Arguments Fault {A}.

Definition M (A : Type) : Type := state → outcome A.

#[export] Instance M_ret : MRet M := λ A a s, Ret a s.
#[export] Instance M_bind : MBind M := λ A B f m s,
  match m s with
  | Ret a s' => f a s'
  | Throw e s' => Throw e s'
  | Fault => Fault
  end.

Definition fault {A} : M A := λ _, Fault.
Definition throw {A} (e : exn) : M A := λ s, Throw e s.

(** [assert(b)]. *)
Definition assert (b : bool) : M unit := if b then mret () else fault.

(** *** Objects *)

Definition get_obj (r : ref) : M SimpleVector := λ s,
  match objs s !! r with
  | Some v => Ret v s
  | None => Fault
  end.

Definition set_obj (r : ref) (v : SimpleVector) : M unit := λ s,
  match objs s !! r with
  | Some _ => Ret () (mkState (<[r := v]> (objs s)) (heap s))
  | None => Fault
  end.

(** The storage of a new object, with the default member initialisers
    [ptr_ = nullptr], [size_ = 0], [capacity_ = 0]. *)
Definition new_obj (r : ref) : M unit := λ s,
  match objs s !! r with
  | Some _ => Fault
  | None => Ret () (mkState (<[r := mkSimpleVector (mkArrayPtr nullptr) 0 0]> (objs s)) (heap s))
  end.

Definition del_obj (r : ref) : M unit := λ s,
  match objs s !! r with
  | Some _ => Ret () (mkState (delete r (objs s)) (heap s))
  | None => Fault
  end.

(** *** Arrays *)

(** [new Type[n]()]: a fresh allocation of [n] value-initialised elements. *)
Definition new_array (n : N) : M pointer := λ s,
  let a := fresh (dom (heap s)) in
  Ret (Ptr a 0) (mkState (objs s) (<[a := replicate (N.to_nat n) T_default]> (heap s))).

(** [delete[] p]: nothing for [nullptr]; otherwise [p] must be the start of a
    live allocation. *)
Definition delete_array (p : pointer) : M unit :=
  match p with
  | nullptr => mret ()
  | Ptr a i => λ s,
      if i =? 0 then
        match heap s !! a with
        | Some _ => Ret () (mkState (objs s) (delete a (heap s)))
        | None => Fault
        end
      else Fault
  end.

(** [*p] as an rvalue. *)
Definition load (p : pointer) : M T :=
  match p with
  | nullptr => fault
  | Ptr a i => λ s,
      match heap s !! a with
      | Some blk =>
          match blk !! N.to_nat i with
          | Some x => Ret x s
          | None => Fault
          end
      | None => Fault
      end
  end.

(** [*p = x]. *)
Definition store (p : pointer) (x : T) : M unit :=
  match p with
  | nullptr => fault
  | Ptr a i => λ s,
      match heap s !! a with
      | Some blk =>
          if decide (N.to_nat i < length blk)%nat then
            Ret () (mkState (objs s) (<[a := <[N.to_nat i := x]> blk]> (heap s)))
          else Fault
      | None => Fault
      end
  end.

(** [p + n]. *)
Definition ptr_add (p : pointer) (n : N) : M pointer :=
  match p with
  | nullptr => if n =? 0 then mret nullptr else fault
  | Ptr a i => mret (Ptr a (i + n))
  end.

(** [p - n]. *)
Definition ptr_sub (p : pointer) (n : N) : M pointer :=
  match p with
  | nullptr => if n =? 0 then mret nullptr else fault
  | Ptr a i => if n <=? i then mret (Ptr a (i - n)) else fault
  end.

(** [p - q], defined for two pointers into one allocation. *)
Definition ptr_diff (p q : pointer) : M Z :=
  match p, q with
  | nullptr, nullptr => mret 0%Z
  | Ptr a i, Ptr b j => if decide (a = b) then mret (Z.of_N i - Z.of_N j)%Z else fault
  | _, _ => fault
  end.

(** [p <= q], defined for two pointers into one allocation. *)
Definition ptr_le (p q : pointer) : M bool :=
  d ← ptr_diff p q; mret (d <=? 0)%Z.

(** ** [ArrayPtr] *)

(** [explicit ArrayPtr(size_t size)]. *)
Definition ArrayPtr_new (size : N) : M ArrayPtr :=
  if size =? 0 then mret (mkArrayPtr nullptr)
  else p ← new_array size; mret (mkArrayPtr p).

(** [explicit ArrayPtr(Type* raw_ptr)]. *)
Definition ArrayPtr_adopt (raw_ptr : pointer) : ArrayPtr := mkArrayPtr raw_ptr.

(** [~ArrayPtr()]. *)
Definition ArrayPtr_destroy (p : ArrayPtr) : M unit := delete_array (raw_ptr_ p).

(** [Release()]: the raw pointer and the object as it is left. *)
Definition ArrayPtr_Release (p : ArrayPtr) : M (pointer * ArrayPtr) :=
  let ptr := raw_ptr_ p in
  mret (ptr, mkArrayPtr nullptr).

(** [operator[]]. *)
Definition ArrayPtr_index (p : ArrayPtr) (index : N) : M pointer :=
  ptr_add (raw_ptr_ p) index.

(** [explicit operator bool()]. *)
Definition ArrayPtr_bool (p : ArrayPtr) : bool :=
  bool_decide (raw_ptr_ p ≠ nullptr).

(** [Get()]. *)
Definition ArrayPtr_Get (p : ArrayPtr) : pointer := raw_ptr_ p.

(** [swap(other)]: the two objects as they are left, [this] first. *)
Definition ArrayPtr_swap (p other : ArrayPtr) : ArrayPtr * ArrayPtr :=
  let tmp := raw_ptr_ p in
  (mkArrayPtr (raw_ptr_ other), mkArrayPtr tmp).

(** [ArrayPtr(ArrayPtr&& other)]: the new object and [other] as it is left. *)
Definition ArrayPtr_move (other : ArrayPtr) : ArrayPtr * ArrayPtr :=
  let '(p, o) := ArrayPtr_swap (mkArrayPtr nullptr) other in
  (p, mkArrayPtr nullptr).

(** [ArrayPtr& operator=(ArrayPtr&& other)], on a store of [ArrayPtr]
    objects, so that [this != &other] can be told; [None] when one of the two
    is no object of the store. *)
Definition ArrayPtr_assign_move (this other : ref) (ps : gmap ref ArrayPtr)
  : option (gmap ref ArrayPtr) :=
  p ← ps !! this;
  o ← ps !! other;
  if bool_decide (this ≠ other) then
    let '(p', o') := ArrayPtr_swap p o in
    let ps := <[other := o']> (<[this := p']> ps) in
    Some (<[other := mkArrayPtr nullptr]> ps)
  else Some ps.

(** ** Algorithms of the standard library, on raw pointers *)

(** The loop of [std::copy]: [*d_first++ = *first++], [n] times. *)
Fixpoint copy_loop (n : nat) (first d_first : pointer) : M pointer :=
  match n with
  | O => mret d_first
  | S k =>
      x ← load first;
      store d_first x;;
      first' ← ptr_add first 1;
      d_first' ← ptr_add d_first 1;
      copy_loop k first' d_first'
  end.

(** [std::copy(first, last, d_first)]: the loop runs [last - first] times; a
    range with [last] before [first] is undefined. *)
Definition std_copy (first last d_first : pointer) : M pointer :=
  n ← ptr_diff last first;
  if (n <? 0)%Z then fault else copy_loop (Z.to_nat n) first d_first.

(** [std::move(first, last, d_first)]: the loop of [std::copy] with a move
    assignment of each element.  An element is a plain value here, and a
    moved-from element keeps its value. *)
Definition std_move (first last d_first : pointer) : M pointer :=
  std_copy first last d_first.

(** The loop of [std::copy_backward]: [*(--d_last) = *(--last)], [n] times. *)
Fixpoint copy_backward_loop (n : nat) (last d_last : pointer) : M pointer :=
  match n with
  | O => mret d_last
  | S k =>
      last' ← ptr_sub last 1;
      d_last' ← ptr_sub d_last 1;
      x ← load last';
      store d_last' x;;
      copy_backward_loop k last' d_last'
  end.

Definition std_copy_backward (first last d_last : pointer) : M pointer :=
  n ← ptr_diff last first;
  if (n <? 0)%Z then fault else copy_backward_loop (Z.to_nat n) last d_last.

Definition std_move_backward (first last d_last : pointer) : M pointer :=
  std_copy_backward first last d_last.

(** The loop of [std::equal]. *)
Fixpoint equal_loop (n : nat) (first1 first2 : pointer) : M bool :=
  match n with
  | O => mret true
  | S k =>
      x ← load first1;
      y ← load first2;
      if T_eq x y then
        first1' ← ptr_add first1 1;
        first2' ← ptr_add first2 1;
        equal_loop k first1' first2'
      else mret false
  end.

(** [std::equal(first1, last1, first2, last2)] on random-access iterators:
    ranges of different lengths are unequal without a scan. *)
Definition std_equal (first1 last1 first2 last2 : pointer) : M bool :=
  n1 ← ptr_diff last1 first1;
  n2 ← ptr_diff last2 first2;
  if (n1 <? 0)%Z || (n2 <? 0)%Z then fault
  else if (n1 =? n2)%Z then equal_loop (Z.to_nat n1) first1 first2
  else mret false.

(** The loop of [std::lexicographical_compare], with the elements left in
    each range. *)
Fixpoint lexicographical_loop (n1 n2 : nat) (first1 first2 : pointer) : M bool :=
  match n1, n2 with
  | S k1, S k2 =>
      x ← load first1;
      y ← load first2;
      if T_lt x y then mret true
      else if T_lt y x then mret false
      else
        first1' ← ptr_add first1 1;
        first2' ← ptr_add first2 1;
        lexicographical_loop k1 k2 first1' first2'
  | O, S _ => mret true
  | _, O => mret false
  end.

Definition std_lexicographical_compare (first1 last1 first2 last2 : pointer) : M bool :=
  n1 ← ptr_diff last1 first1;
  n2 ← ptr_diff last2 first2;
  if (n1 <? 0)%Z || (n2 <? 0)%Z then fault
  else lexicographical_loop (Z.to_nat n1) (Z.to_nat n2) first1 first2.

(** ** [SimpleVector] *)

(** Reads and writes of the fields of the object at [this]. *)
Definition put_ptr_ (this : ref) (p : ArrayPtr) : M unit :=
  v ← get_obj this; set_obj this (mkSimpleVector p (size_ v) (capacity_ v)).
Definition put_size_ (this : ref) (n : N) : M unit :=
  v ← get_obj this; set_obj this (mkSimpleVector (ptr_ v) n (capacity_ v)).
Definition put_capacity_ (this : ref) (n : N) : M unit :=
  v ← get_obj this; set_obj this (mkSimpleVector (ptr_ v) (size_ v) n).

(** [ptr_.swap(tmp)] for a local [tmp]: [tmp] as it is left. *)
Definition swap_ptr_ (this : ref) (tmp : ArrayPtr) : M ArrayPtr :=
  v ← get_obj this;
  let '(p, t) := ArrayPtr_swap (ptr_ v) tmp in
  put_ptr_ this p;;
  mret t.

Definition GetSize (this : ref) : M N := v ← get_obj this; mret (size_ v).
Definition GetCapacity (this : ref) : M N := v ← get_obj this; mret (capacity_ v).
Definition IsEmpty (this : ref) : M bool := v ← get_obj this; mret (size_ v =? 0).

Definition begin (this : ref) : M pointer :=
  v ← get_obj this; mret (ArrayPtr_Get (ptr_ v)).

Definition end_ (this : ref) : M pointer :=
  v ← get_obj this;
  if decide (ArrayPtr_Get (ptr_ v) = nullptr) then mret nullptr
  else ptr_add (ArrayPtr_Get (ptr_ v)) (size_ v).

Definition cbegin (this : ref) : M pointer :=
  v ← get_obj this; mret (ArrayPtr_Get (ptr_ v)).

Definition cend (this : ref) : M pointer :=
  v ← get_obj this; ptr_add (ArrayPtr_Get (ptr_ v)) (size_ v).

Definition Reserve (this : ref) (new_capacity : N) : M unit :=
  v ← get_obj this;
  if capacity_ v <? new_capacity then
    copy ← ArrayPtr_new new_capacity;
    b ← begin this;
    e ← end_ this;
    std_move b e (ArrayPtr_Get copy);;
    copy' ← swap_ptr_ this copy;
    put_capacity_ this new_capacity;;
    ArrayPtr_destroy copy'
  else mret ().

(** The growth step shared by [PushBack] and [Insert]:
    [if(size_ == capacity_) Reserve((capacity_ == 0) ? 1 : (capacity_ * 2))]. *)
Definition grow_if_full (this : ref) : M unit :=
  v ← get_obj this;
  if size_ v =? capacity_ v then
    Reserve this (if capacity_ v =? 0 then 1 else size_mul (capacity_ v) 2)
  else mret ().

(** [PushBack], both overloads: [ptr_[size_++] = v]. *)
Definition PushBack (this : ref) (x : T) : M unit :=
  grow_if_full this;;
  v ← get_obj this;
  put_size_ this (size_add (size_ v) 1);;
  p ← ArrayPtr_index (ptr_ v) (size_ v);
  store p x.

(** The loop of [Resize]: every slot from [it] up to the stop pointer takes
    the value of a fresh [new Type()], which is deleted at once. *)
Fixpoint fill_default_loop (n : nat) (it : pointer) : M unit :=
  match n with
  | O => mret ()
  | S k =>
      tmp ← new_array 1;
      x ← load tmp;
      store it x;;
      delete_array tmp;;
      it' ← ptr_add it 1;
      fill_default_loop k it'
  end.

Definition Resize (this : ref) (new_size : N) : M unit :=
  v ← get_obj this;
  (if capacity_ v <? new_size then Reserve this new_size else mret ());;
  v ← get_obj this;
  (if size_ v <? new_size then
     it ← end_ this;
     stop ← ptr_add (ArrayPtr_Get (ptr_ v)) new_size;
     n ← ptr_diff stop it;
     if (n <? 0)%Z then fault else fill_default_loop (Z.to_nat n) it
   else mret ());;
  put_size_ this new_size.

Definition PopBack (this : ref) : M unit :=
  v ← get_obj this;
  assert (negb (size_ v =? 0));;
  Resize this (size_sub (size_ v) 1).

(** [assert(pos >= begin() && pos <= end())], as [Insert] and [Erase] have it. *)
Definition assert_position (this : ref) (pos : pointer) : M unit :=
  b ← begin this;
  c1 ← ptr_le b pos;
  c ← (if c1 : bool then e ← end_ this; ptr_le pos e else mret false);
  assert c.

(** [Insert], both overloads. *)
Definition Insert (this : ref) (pos : pointer) (x : T) : M pointer :=
  assert_position this pos;;
  b ← begin this;
  d ← ptr_diff pos b;
  let pos_i := size_of_diff d in
  grow_if_full this;;
  v ← get_obj this;
  put_size_ this (size_add (size_ v) 1);;
  b ← begin this;
  first ← ptr_add b pos_i;
  e ← end_ this;
  last ← ptr_sub e 1;
  r ← std_copy_backward first last e;
  it ← ptr_sub r 1;
  store it x;;
  mret it.

Definition Erase (this : ref) (pos : pointer) : M pointer :=
  assert_position this pos;;
  first ← ptr_add pos 1;
  e ← end_ this;
  std_move first e pos;;
  v ← get_obj this;
  put_size_ this (size_sub (size_ v) 1);;
  mret pos.

(** [swap(sv)]: three swaps, each a read of both sides and two writes. *)
Definition swap (this sv : ref) : M unit :=
  v ← get_obj this; w ← get_obj sv;
  let '(p, q) := ArrayPtr_swap (ptr_ v) (ptr_ w) in
  put_ptr_ this p;; put_ptr_ sv q;;
  v ← get_obj this; w ← get_obj sv;
  put_size_ this (size_ w);; put_size_ sv (size_ v);;
  v ← get_obj this; w ← get_obj sv;
  put_capacity_ this (capacity_ w);; put_capacity_ sv (capacity_ v).

(** [operator[]]: the reference is the pointer to the element. *)
Definition index (this : ref) (i : N) : M pointer :=
  v ← get_obj this;
  assert (i <? size_ v);;
  ArrayPtr_index (ptr_ v) i.

Definition At (this : ref) (i : N) : M pointer :=
  v ← get_obj this;
  if size_ v <=? i then throw (out_of_range "Index >= size")
  else ArrayPtr_index (ptr_ v) i.

Definition Clear (this : ref) : M unit := put_size_ this 0.

(** *** Constructors, assignment and the destructor *)

(** [SimpleVector()]. *)
Definition SimpleVector_default (this : ref) : M unit := new_obj this.

(** [SimpleVector(ReserveProxyObj rpo)]. *)
Definition SimpleVector_reserved (this : ref) (rpo : ReserveProxyObj) : M unit :=
  new_obj this;;
  Reserve this (capacity rpo).

(** [explicit SimpleVector(size_t size)]. *)
Definition SimpleVector_sized (this : ref) (size : N) : M unit :=
  new_obj this;;
  tmp ← ArrayPtr_new size;
  tmp' ← swap_ptr_ this tmp;
  put_size_ this size;;
  put_capacity_ this size;;
  ArrayPtr_destroy tmp'.

(** [SimpleVector(const SimpleVector& sv)]. *)
Definition SimpleVector_copy (this sv : ref) : M unit :=
  new_obj this;;
  n ← GetSize sv;
  tmp ← ArrayPtr_new n;
  tmp' ← swap_ptr_ this tmp;
  b ← begin sv;
  e ← end_ sv;
  d ← begin this;
  std_copy b e d;;
  n ← GetSize sv;
  put_size_ this n;;
  n ← GetSize sv;
  put_capacity_ this n;;
  ArrayPtr_destroy tmp'.

(** [operator=(const SimpleVector& rhs)]. *)
Definition assign_copy (this rhs : ref) : M unit :=
  n ← GetSize rhs;
  tmp ← ArrayPtr_new n;
  b ← begin rhs;
  e ← end_ rhs;
  std_copy b e (ArrayPtr_Get tmp);;
  tmp' ← swap_ptr_ this tmp;
  n ← GetSize rhs;
  put_size_ this n;;
  n ← GetSize rhs;
  put_capacity_ this n;;
  ArrayPtr_destroy tmp'.

(** [std::exchange(sv.size_, 0)]. *)
Definition exchange_size_ (sv : ref) (new_value : N) : M N :=
  old ← GetSize sv;
  put_size_ sv new_value;;
  mret old.

(** [ptr_.swap(sv.ptr_)]. *)
Definition swap_ptrs_ (this sv : ref) : M unit :=
  v ← get_obj this; w ← get_obj sv;
  let '(p, q) := ArrayPtr_swap (ptr_ v) (ptr_ w) in
  put_ptr_ this p;; put_ptr_ sv q.

(** The body shared by the move constructor and move assignment. *)
Definition move_body (this sv : ref) : M unit :=
  swap_ptrs_ this sv;;
  n ← exchange_size_ sv 0;
  put_size_ this n;;
  c ← exchange_size_ sv 0;
  put_capacity_ this c.

(** [SimpleVector(SimpleVector&& sv)]. *)
Definition SimpleVector_move (this sv : ref) : M unit :=
  new_obj this;;
  move_body this sv.

(** [operator=(SimpleVector&& rhs)]. *)
Definition assign_move (this rhs : ref) : M unit :=
  move_body this rhs.

(** The loop of the two filling constructors: [ptr_[i] = v; i++]. *)
Fixpoint fill_loop (this : ref) (i : N) (init : list T) : M unit :=
  match init with
  | [] => mret ()
  | x :: rest =>
      v ← get_obj this;
      p ← ArrayPtr_index (ptr_ v) i;
      store p x;;
      fill_loop this (size_add i 1) rest
  end.

(** [SimpleVector(size_t size, const Type& value)]. *)
Definition SimpleVector_filled (this : ref) (size : N) (value : T) : M unit :=
  new_obj this;;
  tmp ← ArrayPtr_new size;
  tmp' ← swap_ptr_ this tmp;
  fill_loop this 0 (replicate (N.to_nat size) value);;
  put_size_ this size;;
  put_capacity_ this size;;
  ArrayPtr_destroy tmp'.

(** [SimpleVector(std::initializer_list<Type> init)]. *)
Definition SimpleVector_list (this : ref) (init : list T) : M unit :=
  let n := wrap (N.of_nat (length init)) in
  new_obj this;;
  tmp ← ArrayPtr_new n;
  tmp' ← swap_ptr_ this tmp;
  fill_loop this 0 init;;
  put_size_ this n;;
  put_capacity_ this n;;
  ArrayPtr_destroy tmp'.

(** The implicit destructor: the member [ptr_] is destroyed, the storage of
    the object goes. *)
Definition SimpleVector_destroy (this : ref) : M unit :=
  v ← get_obj this;
  ArrayPtr_destroy (ptr_ v);;
  del_obj this.

(** *** Comparison operators *)

Definition op_eq (lhs rhs : ref) : M bool :=
  if decide (lhs = rhs) then mret true
  else
    n1 ← GetSize lhs;
    n2 ← GetSize rhs;
    if n1 =? n2 then
      b1 ← begin lhs; e1 ← end_ lhs;
      b2 ← begin rhs; e2 ← end_ rhs;
      std_equal b1 e1 b2 e2
    else mret false.

(** [operator!=] takes [rhs] by value: the argument is copy-constructed into
    a parameter object, which dies when the call returns. *)
Definition op_ne (lhs rhs_arg : ref) : M bool := λ s,
  let rhs := fresh (dom (objs s)) in
  (SimpleVector_copy rhs rhs_arg;;
   b ← op_eq lhs rhs;
   SimpleVector_destroy rhs;;
   mret (negb b)) s.

Definition op_lt (lhs rhs : ref) : M bool :=
  b1 ← begin lhs; e1 ← end_ lhs;
  b2 ← begin rhs; e2 ← end_ rhs;
  std_lexicographical_compare b1 e1 b2 e2.

Definition op_le (lhs rhs : ref) : M bool := b ← op_lt rhs lhs; mret (negb b).
Definition op_gt (lhs rhs : ref) : M bool := b ← op_le lhs rhs; mret (negb b).
Definition op_ge (lhs rhs : ref) : M bool := b ← op_lt lhs rhs; mret (negb b).

End Model.

Arguments state : clear implicits.
Arguments outcome : clear implicits.
Arguments M : clear implicits.
Arguments Ret {T A} a s.
Arguments Throw {T A} e s.
Arguments Fault {T A}.

(** ** Observations of a state *)

Section Observations.

Context {T : Type} `{!Element T}.

(** The array an [ArrayPtr] owns: no element for [nullptr]. *)
Definition buffer (s : state T) (p : ArrayPtr) : option (list T) :=
  match raw_ptr_ p with
  | nullptr => Some []
  | Ptr a i => if i =? 0 then heap s !! a else None
  end.

(** The logical sequence of the vector at [r]: the elements at the indices
    [0 .. size_), when they all lie inside the owned array. *)
Definition elements (s : state T) (r : ref) : option (list T) :=
  v ← objs s !! r;
  blk ← buffer s (ptr_ v);
  if decide (N.to_nat (size_ v) ≤ length blk)%nat
  then Some (take (N.to_nat (size_ v)) blk) else None.

(** The logical sequence, observed in the middle of a run. *)
Definition read_elements (r : ref) : M T (option (list T)) :=
  λ s, Ret (elements s r) s.

(** The data invariant [0 <= size <= capacity] of an object. *)
Definition size_le_capacity (v : SimpleVector) : bool :=
  size_ v <=? capacity_ v.

(** The vector at [r] is well formed and holds the elements [xs] with
    capacity [c]: its fields are [length xs] and [c], [size <= capacity], and
    it owns an array of [c] elements that starts with [xs]. *)
Definition holds (s : state T) (r : ref) (xs : list T) (c : N) : Prop :=
  ∃ v blk,
    objs s !! r = Some v ∧
    buffer s (ptr_ v) = Some blk ∧
    size_ v = N.of_nat (length xs) ∧
    capacity_ v = c ∧
    N.of_nat (length blk) = c ∧
    c < SIZE_MOD ∧
    (length xs ≤ length blk)%nat ∧
    take (length xs) blk = xs.

(** The address of the allocation an object owns. *)
Definition owned (s : state T) (r : ref) : option addr :=
  match objs s !! r with
  | Some v => match raw_ptr_ (ptr_ v) with Ptr a _ => Some a | nullptr => None end
  | None => None
  end.

(** Two objects that do not share an allocation. *)
Definition separate (s : state T) (r1 r2 : ref) : Prop :=
  r1 ≠ r2 ∧ ∀ a, owned s r1 = Some a → owned s r2 ≠ Some a.

(** What a method called on [this] leaves alone: the other objects, and the
    allocations [this] does not own; and an allocation that [this] owns
    afterwards was its own before or is a new one. *)
Definition frame (this : ref) (s s' : state T) : Prop :=
  (∀ r, r ≠ this → objs s' !! r = objs s !! r) ∧
  (∀ a blk, owned s this ≠ Some a → heap s !! a = Some blk → heap s' !! a = Some blk) ∧
  (∀ a, owned s' this = Some a → owned s this = Some a ∨ heap s !! a = None).

(** The list [xs] lies in the array [blk] from index [i] on. *)
Definition lies_at (blk : list T) (i : nat) (xs : list T) : Prop :=
  ∀ k x, xs !! k = Some x → blk !! (i + k)%nat = Some x.

(** The growth policy of [PushBack] and [Insert]: a full vector reserves
    [max(1, capacity * 2)], any other keeps its capacity. *)
Definition grown_capacity (size c : N) : N :=
  if size =? c then N.max 1 (c * 2) else c.

(** The iterator [begin() + i]. *)
Definition position (this : ref) (i : N) : M T pointer :=
  b ← begin this; ptr_add b i.

(** The iterator [begin() + p] of the object [v], for [p] within its size. *)
Definition iterator_at (v : SimpleVector) (p : nat) : pointer :=
  match raw_ptr_ (ptr_ v) with
  | nullptr => nullptr
  | Ptr a _ => Ptr a (N.of_nat p)
  end.

(** What [ArrayPtr(n)] followed by a copy of the [n] elements [xs] leaves in
    the heap [h]: nothing new for no element, a new allocation holding [xs]
    otherwise. *)
Definition copied_ptr (h : gmap addr (list T)) (xs : list T) : pointer :=
  match xs with [] => nullptr | _ => Ptr (fresh (dom h)) 0 end.
Definition copied_heap (h : gmap addr (list T)) (xs : list T) : gmap addr (list T) :=
  match xs with [] => h | _ => <[fresh (dom h) := xs]> h end.

(** The value a run returns, if it returns. *)
Definition value_of {A} (r : outcome T A) : option A :=
  match r with Ret a _ => Some a | _ => None end.

(** [PushBack] of each element of a list in turn. *)
Fixpoint PushBack_all (this : ref) (xs : list T) : M T unit :=
  match xs with
  | [] => mret ()
  | x :: rest => PushBack this x;; PushBack_all this rest
  end.

(** Element-wise equality of two sequences with the element type's
    [operator==], as the specification words it: the same size and equal
    elements at every index. *)
Definition same_elements (xs ys : list T) : Prop :=
  length xs = length ys ∧
  ∀ i x y, xs !! i = Some x → ys !! i = Some y → T_eq x y = true.

(** Lexicographic order of two sequences with the element type's
    [operator<], as the specification words it: at the first index where the
    sequences differ, the left one has ended or has the smaller element. *)
Definition lexicographically_less (xs ys : list T) : Prop :=
  ∃ k,
    (∀ i x y, (i < k)%nat → xs !! i = Some x → ys !! i = Some y →
       T_lt x y = false ∧ T_lt y x = false) ∧
    (k ≤ length xs)%nat ∧ (k < length ys)%nat ∧
    (k = length xs ∨ ∃ x y, xs !! k = Some x ∧ ys !! k = Some y ∧ T_lt x y = true).

(** The capacity that [k] calls of [PushBack] on an empty vector have
    reached: none for none, and otherwise a power of two that is at least [k]
    and less than twice [k]. *)
Definition doubled (k c : N) : Prop :=
  if decide (k = 0) then c = 0 else ∃ m, c = 2 ^ m ∧ k ≤ c ∧ c < 2 * k.

(** [c] is the smallest power of two that is at least [k]. *)
Definition least_power_of_two_ge (k c : N) : Prop :=
  (∃ m, c = 2 ^ m) ∧ k ≤ c ∧ ∀ m, k ≤ 2 ^ m → c ≤ 2 ^ m.

End Observations.

(** ** Observations of the heap *)

Section HeapObservations.

Context {T : Type} `{!Element T}.

(** The heap after [delete[] p]. *)
Definition freed (p : pointer) (h : gmap addr (list T)) : gmap addr (list T) :=
  match p with
  | nullptr => h
  | Ptr a _ => delete a h
  end.

(** The number of live array allocations. *)
Definition live_arrays (s : state T) : nat := size (heap s).

(** The store [s] is the store [s0] with one more object, the vector [this],
    and with the array that vector owns, if it owns one. *)
Definition alone_on (s0 s : state T) (this : ref) : Prop :=
  objs s0 !! this = None ∧
  (∃ v, objs s = <[this := v]> (objs s0)) ∧
  match owned s this with
  | Some a => heap s0 !! a = None ∧ ∃ blk, heap s = <[a := blk]> (heap s0)
  | None => heap s = heap s0
  end.

End HeapObservations.

(** ** [SimpleVector<int>]: the element type of the literal scenarios *)

#[export] Instance Z_Element : Element Z :=
  {| T_default := 0%Z; T_eq := Z.eqb; T_lt := Z.ltb |}.

(** ** Element types whose [operator==] is not an equivalence

    The template puts no condition on the [operator==] of [Type].  [number]
    is a number type with one value that is not equal to itself, as [double]
    has with its NaN; [pattern] has an [operator==] with a wildcard on the
    left that every value matches, so that it is not symmetric. *)
Inductive number : Set :=
| NaN
| Num (z : Z).

#[export] Instance number_Element : Element number :=
  {| T_default := Num 0;
     T_eq x y := match x, y with Num a, Num b => (a =? b)%Z | _, _ => false end;
     T_lt x y := match x, y with Num a, Num b => (a <? b)%Z | _, _ => false end |}.

Inductive pattern : Set :=
| Any
| Lit (z : Z).

#[export] Instance pattern_Element : Element pattern :=
  {| T_default := Lit 0;
     T_eq x y :=
       match x, y with
       | Any, _ => true
       | Lit a, Lit b => (a =? b)%Z
       | Lit _, Any => false
       end;
     T_lt x y := match x, y with Lit a, Lit b => (a <? b)%Z | _, _ => false end |}.

(** The state before anything is constructed. *)
Definition empty_state : state Z := mkState ∅ ∅.

(** A store with two vectors: [{1,2,3}] with capacity 4 at object 1 and
    [{5}] with capacity 1 at object 2. *)
Definition sample_state : state Z :=
  mkState
    {[ 1%positive := mkSimpleVector (mkArrayPtr (Ptr 1 0)) 3 4;
       2%positive := mkSimpleVector (mkArrayPtr (Ptr 2 0)) 1 1 ]}
    {[ 1%positive := [1; 2; 3; 0]%Z; 2%positive := [5]%Z ]}.

(** The representation predicate [holds] at a concrete store, by evaluation. *)
Ltac holds_by_evaluation :=
  eexists _, _; vm_compute; repeat split; try reflexivity; lia.

(** * Proofs *)

Section Proofs.

Context {T : Type} `{!Element T}.
Implicit Types (s : state T) (o : gmap ref SimpleVector) (h : gmap addr (list T)).
Implicit Types (blk src dst xs ys : list T) (x y : T).

(** ** The monad and the loops *)

Lemma bind_Ret {A B} (m : M T A) (f : A → M T B) s a s' :
  m s = Ret a s' → (m ≫= f) s = f a s'.
Proof. intros H. unfold mbind, M_bind. by rewrite H. Qed.

Lemma ptr_add_Ptr a (i : nat) (n : nat) s :
  ptr_add (Ptr a (N.of_nat i)) (N.of_nat n) s = Ret (Ptr a (N.of_nat (i + n))) s.
Proof. unfold ptr_add. cbn. do 3 f_equal. lia. Qed.

Lemma ptr_sub_Ptr a (i : nat) (n : nat) s :
  (n ≤ i)%nat →
  ptr_sub (Ptr a (N.of_nat i)) (N.of_nat n) s = Ret (Ptr a (N.of_nat (i - n))) s.
Proof.
  intros Hn. unfold ptr_sub.
  destruct (N.leb_spec (N.of_nat n) (N.of_nat i)); [|lia].
  cbn. do 3 f_equal. lia.
Qed.

Lemma load_Ptr a (i : nat) o h blk x :
  h !! a = Some blk → blk !! i = Some x →
  load (Ptr a (N.of_nat i)) (mkState o h) = Ret x (mkState o h).
Proof. intros Ha Hx. cbn. rewrite Ha, Nat2N.id, Hx. done. Qed.

Lemma store_Ptr a (i : nat) o h blk x :
  h !! a = Some blk → (i < length blk)%nat →
  store (Ptr a (N.of_nat i)) x (mkState o h) = Ret () (mkState o (<[a := <[i := x]> blk]> h)).
Proof.
  intros Ha Hi. cbn. rewrite Ha, Nat2N.id.
  destruct (decide (i < length blk)%nat); [done | lia].
Qed.

Lemma copy_loop_spec (n : nat) : ∀ (i j : nat) a b o h src dst,
  h !! a = Some src → h !! b = Some dst → (a ≠ b ∨ j ≤ i)%nat →
  (i + n ≤ length src)%nat → (j + n ≤ length dst)%nat →
  ∃ dst',
    copy_loop n (Ptr a (N.of_nat i)) (Ptr b (N.of_nat j)) (mkState o h)
    = Ret (Ptr b (N.of_nat (j + n))) (mkState o (<[b := dst']> h)) ∧
    length dst' = length dst ∧
    ∀ k, dst' !! k = if decide (j ≤ k < j + n)%nat then src !! (k - j + i)%nat else dst !! k.
Proof.
  induction n as [|n IH]; intros i j a b o h src dst Ha Hb Hab Hi Hj.
  - exists dst. split_and!; [|done|].
    + cbn. rewrite Nat.add_0_r, insert_id; done.
    + intros k. case_decide; [lia | done].
  - destruct (lookup_lt_is_Some_2 src i) as [x Hx]; [lia|].
    set (dst1 := <[j := x]> dst).
    set (h1 := <[b := dst1]> h).
    assert (∃ src1, h1 !! a = Some src1 ∧ length src1 = length src ∧
              ∀ k, (i < k)%nat → src1 !! k = src !! k) as (src1 & Ha1 & Hlen1 & Hsrc1).
    { destruct (decide (a = b)) as [->|Hne].
      - exists dst1. subst h1. rewrite lookup_insert_eq. split_and!; [done|..].
        + subst dst1. rewrite length_insert. congruence.
        + intros k Hk. subst dst1. rewrite list_lookup_insert_ne by lia. congruence.
      - exists src. subst h1. rewrite lookup_insert_ne by done. done. }
    destruct (IH (S i) (S j) a b o h1 src1 dst1) as (dst' & Hrun & Hlen & Hk);
      [done | by (subst h1; rewrite lookup_insert_eq) | lia | lia
      | by (subst dst1; rewrite length_insert; lia) |].
    exists dst'. split_and!.
    + cbn [copy_loop].
      erewrite bind_Ret by (eapply load_Ptr; eauto).
      erewrite bind_Ret by (eapply store_Ptr; [eauto | lia]).
      erewrite bind_Ret by (apply (ptr_add_Ptr _ _ 1)).
      erewrite bind_Ret by (apply (ptr_add_Ptr _ _ 1)).
      replace (i + 1)%nat with (S i) by lia. replace (j + 1)%nat with (S j) by lia.
      fold dst1 h1. rewrite Hrun. subst h1. rewrite insert_insert_eq.
      do 3 f_equal. lia.
    + rewrite Hlen. subst dst1. by rewrite length_insert.
    + intros k. rewrite Hk. subst dst1.
      destruct (decide (k = j)) as [->|Hkj].
      * rewrite list_lookup_insert_eq by lia.
        repeat case_decide; try lia. replace (j - j + i)%nat with i by lia. done.
      * rewrite list_lookup_insert_ne by lia.
        repeat case_decide; try lia; [|done].
        rewrite Hsrc1 by lia. f_equal. lia.
Qed.

Lemma copy_backward_loop_spec (n : nat) : ∀ (i j : nat) a b o h src dst,
  h !! a = Some src → h !! b = Some dst → (a ≠ b ∨ i ≤ j)%nat →
  (i + n ≤ length src)%nat → (j + n ≤ length dst)%nat →
  ∃ dst',
    copy_backward_loop n (Ptr a (N.of_nat (i + n))) (Ptr b (N.of_nat (j + n))) (mkState o h)
    = Ret (Ptr b (N.of_nat j)) (mkState o (<[b := dst']> h)) ∧
    length dst' = length dst ∧
    ∀ k, dst' !! k = if decide (j ≤ k < j + n)%nat then src !! (k - j + i)%nat else dst !! k.
Proof.
  induction n as [|n IH]; intros i j a b o h src dst Ha Hb Hab Hi Hj.
  - exists dst. split_and!; [|done|].
    + cbn. rewrite Nat.add_0_r, insert_id; done.
    + intros k. case_decide; [lia | done].
  - destruct (lookup_lt_is_Some_2 src (i + n)) as [x Hx]; [lia|].
    set (dst1 := <[(j + n)%nat := x]> dst).
    set (h1 := <[b := dst1]> h).
    assert (∃ src1, h1 !! a = Some src1 ∧ length src1 = length src ∧
              ∀ k, (k < i + n)%nat → src1 !! k = src !! k) as (src1 & Ha1 & Hlen1 & Hsrc1).
    { destruct (decide (a = b)) as [->|Hne].
      - exists dst1. subst h1. rewrite lookup_insert_eq. split_and!; [done|..].
        + subst dst1. rewrite length_insert. congruence.
        + intros k Hk. subst dst1. rewrite list_lookup_insert_ne by lia. congruence.
      - exists src. subst h1. rewrite lookup_insert_ne by done. done. }
    destruct (IH i j a b o h1 src1 dst1) as (dst' & Hrun & Hlen & Hk);
      [done | by (subst h1; rewrite lookup_insert_eq) | lia | lia
      | by (subst dst1; rewrite length_insert; lia) |].
    exists dst'. split_and!.
    + cbn [copy_backward_loop].
      erewrite bind_Ret by (apply (ptr_sub_Ptr _ _ 1); lia).
      erewrite bind_Ret by (apply (ptr_sub_Ptr _ _ 1); lia).
      replace (i + S n - 1)%nat with (i + n)%nat by lia.
      replace (j + S n - 1)%nat with (j + n)%nat by lia.
      erewrite bind_Ret by (eapply load_Ptr; eauto).
      erewrite bind_Ret by (eapply store_Ptr; [eauto | lia]).
      fold dst1 h1. rewrite Hrun. subst h1. by rewrite insert_insert_eq.
    + rewrite Hlen. subst dst1. by rewrite length_insert.
    + intros k. rewrite Hk. subst dst1.
      destruct (decide (k = j + n)%nat) as [->|Hkj].
      * rewrite list_lookup_insert_eq by lia.
        repeat case_decide; try lia. rewrite <- Hx. f_equal. lia.
      * rewrite list_lookup_insert_ne by lia.
        repeat case_decide; try lia; [|done].
        rewrite Hsrc1 by lia. done.
Qed.

Lemma fresh_heap h : h !! fresh (dom h) = None.
Proof. apply not_elem_of_dom, is_fresh. Qed.

Lemma fresh_heap_ne h a blk : h !! a = Some blk → fresh (dom h) ≠ a.
Proof. intros Ha Heq. rewrite <- Heq, fresh_heap in Ha. done. Qed.

Lemma fill_default_loop_spec (n : nat) : ∀ (i : nat) a o h blk,
  h !! a = Some blk → (i + n ≤ length blk)%nat →
  ∃ blk',
    fill_default_loop n (Ptr a (N.of_nat i)) (mkState o h)
    = Ret () (mkState o (<[a := blk']> h)) ∧
    length blk' = length blk ∧
    ∀ k, blk' !! k = if decide (i ≤ k < i + n)%nat then Some T_default else blk !! k.
Proof.
  induction n as [|n IH]; intros i a o h blk Ha Hi.
  - exists blk. split_and!; [|done|].
    + cbn. rewrite insert_id; done.
    + intros k. case_decide; [lia | done].
  - set (t := fresh (dom h)).
    assert (h !! t = None) as Ht by apply fresh_heap.
    assert (t ≠ a) as Hta by (eapply fresh_heap_ne; eauto).
    set (blk1 := <[i := T_default]> blk).
    destruct (IH (S i) a o (<[a := blk1]> h) blk1) as (blk' & Hrun & Hlen & Hk);
      [by rewrite lookup_insert_eq | by (subst blk1; rewrite length_insert; lia) |].
    exists blk'. split_and!.
    + cbn [fill_default_loop].
      erewrite bind_Ret by reflexivity. cbn [objs heap]. fold t.
      erewrite bind_Ret
        by (eapply (load_Ptr t 0%nat); [apply lookup_insert_eq | reflexivity]).
      erewrite bind_Ret
        by (eapply store_Ptr; [rewrite lookup_insert_ne by done; eauto | lia]).
      erewrite bind_Ret; cycle 1.
      { cbn. rewrite lookup_insert_ne, lookup_insert_eq by done. reflexivity. }
      rewrite delete_insert_ne, delete_insert_id by done.
      erewrite bind_Ret by (apply (ptr_add_Ptr _ _ 1)).
      replace (i + 1)%nat with (S i) by lia. fold blk1.
      rewrite Hrun, insert_insert_eq. done.
    + rewrite Hlen. subst blk1. by rewrite length_insert.
    + intros k. rewrite Hk. subst blk1.
      destruct (decide (k = i)) as [->|Hki].
      * rewrite list_lookup_insert_eq by lia. repeat case_decide; try lia; done.
      * rewrite list_lookup_insert_ne by lia. repeat case_decide; try lia; done.
Qed.

Lemma lies_at_cons blk i x xs :
  lies_at blk i (x :: xs) → blk !! i = Some x ∧ lies_at blk (S i) xs.
Proof.
  intros H. split.
  - specialize (H 0%nat x eq_refl). by rewrite Nat.add_0_r in H.
  - intros k y Hy. specialize (H (S k) y Hy).
    by replace (S i + k)%nat with (i + S k)%nat by lia.
Qed.

Lemma lies_at_take_drop blk i n :
  lies_at blk i (take n (drop i blk)).
Proof.
  intros k x Hk. apply lookup_take_Some in Hk as [Hk _].
  by rewrite lookup_drop in Hk.
Qed.

Lemma equal_loop_spec xs : ∀ ys (i j : nat) a b s b1 b2,
  heap s !! a = Some b1 → heap s !! b = Some b2 →
  lies_at b1 i xs → lies_at b2 j ys → length xs = length ys →
  ∃ r, equal_loop (length xs) (Ptr a (N.of_nat i)) (Ptr b (N.of_nat j)) s = Ret r s ∧
       (r = true ↔ ∀ k x y, xs !! k = Some x → ys !! k = Some y → T_eq x y = true).
Proof.
  induction xs as [|x xs IH]; intros ys i j a b [o h] b1 b2 Ha Hb Hxs Hys Hlen.
  - exists true. split; [done|]. split; [|done]. intros _ k x y Hk. done.
  - destruct ys as [|y ys]; [done|]. cbn in Ha, Hb.
    apply lies_at_cons in Hxs as [Hx Hxs]. apply lies_at_cons in Hys as [Hy Hys].
    cbn [length equal_loop].
    erewrite bind_Ret by (eapply load_Ptr; eauto).
    erewrite bind_Ret by (eapply load_Ptr; eauto).
    destruct (T_eq x y) eqn:Hxy.
    + erewrite bind_Ret by (apply (ptr_add_Ptr _ _ 1)).
      erewrite bind_Ret by (apply (ptr_add_Ptr _ _ 1)).
      replace (i + 1)%nat with (S i) by lia. replace (j + 1)%nat with (S j) by lia.
      destruct (IH ys (S i) (S j) a b (mkState o h) b1 b2) as (r & Hrun & Hr); auto.
      exists r. split; [done|]. rewrite Hr. split.
      * intros H [|k] x' y' Hx' Hy'; simplify_eq/=; eauto.
      * intros H k x' y' Hx' Hy'. apply (H (S k)); done.
    + exists false. split; [done|]. split; [done|].
      intros H. specialize (H 0%nat x y eq_refl eq_refl). congruence.
Qed.

Lemma lexicographically_less_nil_l y ys : lexicographically_less [] (y :: ys).
Proof.
  exists 0%nat. split_and!; [intros; lia | done | cbn; lia | by left].
Qed.

Lemma lexicographically_less_nil_r xs : ¬ lexicographically_less xs [].
Proof. intros (k & _ & _ & Hk & _). cbn in Hk. lia. Qed.

Lemma lexicographically_less_cons x xs y ys :
  lexicographically_less (x :: xs) (y :: ys) ↔
  T_lt x y = true ∨
  (T_lt x y = false ∧ T_lt y x = false ∧ lexicographically_less xs ys).
Proof.
  split.
  - intros (k & Hpre & Hk1 & Hk2 & Hk). destruct k as [|k].
    + left. destruct Hk as [Hk | (x' & y' & Hx & Hy & Hlt)]; [done|].
      by simplify_eq/=.
    + right. destruct (Hpre 0%nat x y) as [H1 H2]; [lia | done | done |].
      split_and!; [done | done |]. exists k. split_and!.
      * intros i x' y' Hi Hx Hy. apply (Hpre (S i)); [lia | done | done].
      * cbn in Hk1. lia.
      * cbn in Hk2. lia.
      * destruct Hk as [Hk | Hk]; [left; cbn in Hk; lia | right; done].
  - intros [Hlt | (H1 & H2 & k & Hpre & Hk1 & Hk2 & Hk)].
    + exists 0%nat. split_and!; [intros; lia | cbn; lia | cbn; lia |].
      right. by exists x, y.
    + exists (S k). split_and!.
      * intros [|i] x' y' Hi Hx Hy; simplify_eq/=; [done|].
        apply (Hpre i); [lia | done | done].
      * cbn. lia.
      * cbn. lia.
      * destruct Hk as [Hk | Hk]; [left; cbn; lia | right; done].
Qed.

Lemma lexicographical_loop_spec xs : ∀ ys (i j : nat) a b s b1 b2,
  heap s !! a = Some b1 → heap s !! b = Some b2 →
  lies_at b1 i xs → lies_at b2 j ys →
  ∃ r, lexicographical_loop (length xs) (length ys)
         (Ptr a (N.of_nat i)) (Ptr b (N.of_nat j)) s = Ret r s ∧
       (r = true ↔ lexicographically_less xs ys).
Proof.
  induction xs as [|x xs IH]; intros ys i j a b [o h] b1 b2 Ha Hb Hxs Hys.
  - destruct ys as [|y ys].
    + exists false. split; [done|]. split; [done|].
      intros H. by apply lexicographically_less_nil_r in H.
    + exists true. split; [done|]. split; [|done].
      intros _. apply lexicographically_less_nil_l.
  - destruct ys as [|y ys].
    + exists false. split; [done|]. split; [done|].
      intros H. by apply lexicographically_less_nil_r in H.
    + cbn in Ha, Hb.
      apply lies_at_cons in Hxs as [Hx Hxs]. apply lies_at_cons in Hys as [Hy Hys].
      cbn [length lexicographical_loop].
      erewrite bind_Ret by (eapply load_Ptr; eauto).
      erewrite bind_Ret by (eapply load_Ptr; eauto).
      destruct (T_lt x y) eqn:Hxy.
      { exists true. split; [done|]. split; [|done].
        intros _. apply lexicographically_less_cons. by left. }
      destruct (T_lt y x) eqn:Hyx.
      { exists false. split; [done|]. split; [done|].
        intros H. apply lexicographically_less_cons in H as [H | (_ & H & _)]; congruence. }
      erewrite bind_Ret by (apply (ptr_add_Ptr _ _ 1)).
      erewrite bind_Ret by (apply (ptr_add_Ptr _ _ 1)).
      replace (i + 1)%nat with (S i) by lia. replace (j + 1)%nat with (S j) by lia.
      destruct (IH ys (S i) (S j) a b (mkState o h) b1 b2) as (r & Hrun & Hr); auto.
      exists r. split; [done|]. rewrite Hr, lexicographically_less_cons.
      split; [by (intros H; right) | intros [H | (_ & _ & H)]; [congruence | done]].
Qed.

(** ** Fields, arithmetic and the representation predicate *)

Lemma get_obj_eq this o h v :
  o !! this = Some v → get_obj this (mkState o h) = Ret v (mkState o h).
Proof. intros H. unfold get_obj. cbn. by rewrite H. Qed.

Lemma set_obj_eq this o h v w :
  o !! this = Some v → set_obj this w (mkState o h) = Ret () (mkState (<[this := w]> o) h).
Proof. intros H. unfold set_obj. cbn. by rewrite H. Qed.

Lemma put_ptr_eq this o h v p :
  o !! this = Some v →
  put_ptr_ this p (mkState o h)
  = Ret () (mkState (<[this := mkSimpleVector p (size_ v) (capacity_ v)]> o) h).
Proof.
  intros H. unfold put_ptr_.
  erewrite bind_Ret by (by apply get_obj_eq). by eapply set_obj_eq.
Qed.

Lemma put_size_eq this o h v n :
  o !! this = Some v →
  put_size_ this n (mkState o h)
  = Ret () (mkState (<[this := mkSimpleVector (ptr_ v) n (capacity_ v)]> o) h).
Proof.
  intros H. unfold put_size_.
  erewrite bind_Ret by (by apply get_obj_eq). by eapply set_obj_eq.
Qed.

Lemma put_capacity_eq this o h v n :
  o !! this = Some v →
  put_capacity_ this n (mkState o h)
  = Ret () (mkState (<[this := mkSimpleVector (ptr_ v) (size_ v) n]> o) h).
Proof.
  intros H. unfold put_capacity_.
  erewrite bind_Ret by (by apply get_obj_eq). by eapply set_obj_eq.
Qed.

Lemma swap_ptr_eq this o h v tmp :
  o !! this = Some v →
  swap_ptr_ this tmp (mkState o h)
  = Ret (ptr_ v) (mkState (<[this := mkSimpleVector tmp (size_ v) (capacity_ v)]> o) h).
Proof.
  intros H. unfold swap_ptr_.
  erewrite bind_Ret by (by apply get_obj_eq).
  destruct v as [[p] n c], tmp as [t]. cbn.
  erewrite bind_Ret by (by eapply put_ptr_eq). done.
Qed.

Lemma GetSize_eq this o h v :
  o !! this = Some v → GetSize this (mkState o h) = Ret (size_ v) (mkState o h).
Proof. intros H. unfold GetSize. erewrite bind_Ret by (by apply get_obj_eq). done. Qed.

Lemma GetCapacity_eq this o h v :
  o !! this = Some v → GetCapacity this (mkState o h) = Ret (capacity_ v) (mkState o h).
Proof. intros H. unfold GetCapacity. erewrite bind_Ret by (by apply get_obj_eq). done. Qed.

Lemma begin_eq this o h v :
  o !! this = Some v → begin this (mkState o h) = Ret (raw_ptr_ (ptr_ v)) (mkState o h).
Proof. intros H. unfold begin. erewrite bind_Ret by (by apply get_obj_eq). done. Qed.

Lemma end_eq_null this o h v :
  o !! this = Some v → raw_ptr_ (ptr_ v) = nullptr →
  end_ this (mkState o h) = Ret nullptr (mkState o h).
Proof.
  intros H Hp. unfold end_. erewrite bind_Ret by (by apply get_obj_eq).
  unfold ArrayPtr_Get. rewrite Hp. done.
Qed.

Lemma end_eq_Ptr this o h v a (n : nat) :
  o !! this = Some v → raw_ptr_ (ptr_ v) = Ptr a 0 → size_ v = N.of_nat n →
  end_ this (mkState o h) = Ret (Ptr a (N.of_nat n)) (mkState o h).
Proof.
  intros H Hp Hn. unfold end_. erewrite bind_Ret by (by apply get_obj_eq).
  unfold ArrayPtr_Get. rewrite Hp, Hn. done.
Qed.

(** *** The representation predicate *)

Lemma take_lies_at blk n : lies_at blk 0 (take n blk).
Proof. intros k x Hk. apply lookup_take_Some in Hk as [Hk _]. done. Qed.

Lemma holds_inv s this xs c :
  holds s this xs c →
  ∃ p blk,
    objs s !! this = Some (mkSimpleVector (mkArrayPtr p) (N.of_nat (length xs)) c) ∧
    N.of_nat (length blk) = c ∧ c < SIZE_MOD ∧
    (length xs ≤ length blk)%nat ∧ lies_at blk 0 xs ∧
    ((p = nullptr ∧ blk = []) ∨ ∃ a, p = Ptr a 0 ∧ heap s !! a = Some blk).
Proof.
  intros ([[p] n c'] & blk & Hobj & Hbuf & Hn & Hc & Hlen & Hlt & Hle & Htake).
  cbn in *. subst n c'. exists p, blk. split_and!; try done.
  - rewrite <- Htake. apply take_lies_at.
  - unfold buffer in Hbuf. cbn in Hbuf. destruct p as [|a i].
    + left. by simplify_eq.
    + right. destruct (N.eqb_spec i 0); [|done]. subst. eauto.
Qed.

Lemma lies_at_take blk xs : lies_at blk 0 xs → take (length xs) blk = xs.
Proof.
  intros H. apply list_eq. intros k. rewrite lookup_take.
  case_decide as Hk.
  - destruct (lookup_lt_is_Some_2 xs k Hk) as [x Hx]. rewrite Hx. by apply (H k).
  - symmetry. apply lookup_ge_None. lia.
Qed.

Lemma lies_at_length blk xs : lies_at blk 0 xs → (length xs ≤ length blk)%nat.
Proof.
  intros H. destruct (decide (length xs = 0)%nat) as [|Hne]; [lia|].
  destruct (lookup_lt_is_Some_2 xs (length xs - 1)) as [x Hx]; [lia|].
  apply H in Hx. apply lookup_lt_Some in Hx. lia.
Qed.

Lemma holds_Ptr o h this v a xs blk c :
  o !! this = Some v → raw_ptr_ (ptr_ v) = Ptr a 0 →
  size_ v = N.of_nat (length xs) → capacity_ v = c →
  h !! a = Some blk → N.of_nat (length blk) = c → c < SIZE_MOD →
  lies_at blk 0 xs →
  holds (mkState o h) this xs c.
Proof.
  intros Hobj Hp Hn Hcap Ha Hlen Hc Hxs. exists v, blk. split_and!; try done.
  - unfold buffer. by rewrite Hp.
  - by apply lies_at_length.
  - by apply lies_at_take.
Qed.

Lemma holds_null o h this :
  o !! this = Some (mkSimpleVector (mkArrayPtr nullptr) 0 0) →
  holds (mkState o h) this [] 0.
Proof. intros Hobj. eexists _, []. split_and!; done. Qed.

Lemma holds_lies_at s this xs c :
  holds s this xs c →
  ∃ v blk, objs s !! this = Some v ∧ buffer s (ptr_ v) = Some blk ∧ lies_at blk 0 xs.
Proof.
  intros (v & blk & Hobj & Hbuf & _ & _ & _ & _ & _ & Htake).
  exists v, blk. split_and!; [done | done |]. rewrite <- Htake. apply take_lies_at.
Qed.

Lemma SIZE_MOD_gt_1 : 1 < SIZE_MOD.
Proof. done. Qed.

Lemma wrap_small n : n < SIZE_MOD → wrap n = n.
Proof. apply N.mod_small. Qed.

Lemma size_add_small a b : a + b < SIZE_MOD → size_add a b = a + b.
Proof. apply wrap_small. Qed.

Lemma size_mul_small a b : a * b < SIZE_MOD → size_mul a b = a * b.
Proof. apply wrap_small. Qed.

Lemma size_sub_small a b : b ≤ a → a < SIZE_MOD → size_sub a b = a - b.
Proof.
  intros Hb Ha. unfold size_sub. rewrite (wrap_small b) by lia.
  unfold wrap. replace (a + SIZE_MOD - b) with ((a - b) + 1 * SIZE_MOD) by lia.
  rewrite N.Div0.mod_add. apply N.mod_small. lia.
Qed.

Lemma size_of_diff_nat (n : nat) :
  N.of_nat n < SIZE_MOD → size_of_diff (Z.of_nat n) = N.of_nat n.
Proof.
  intros Hn. unfold size_of_diff. rewrite Z.mod_small; lia.
Qed.

Lemma owned_eq o h this v :
  o !! this = Some v →
  owned (mkState o h) this
  = match raw_ptr_ (ptr_ v) with Ptr a _ => Some a | nullptr => None end.
Proof. intros H. unfold owned. cbn. by rewrite H. Qed.

(** ** [Reserve] *)

Lemma ArrayPtr_new_eq o h n :
  n ≠ 0 →
  ArrayPtr_new n (mkState o h)
  = Ret (mkArrayPtr (Ptr (fresh (dom h)) 0))
        (mkState o (<[fresh (dom h) := replicate (N.to_nat n) T_default]> h)).
Proof. intros Hn. unfold ArrayPtr_new. destruct (N.eqb_spec n 0); done. Qed.

Lemma ArrayPtr_new_0 s : ArrayPtr_new 0 s = Ret (mkArrayPtr nullptr) s.
Proof. done. Qed.

Lemma frame_refl this s : frame this s s.
Proof. split_and!; auto. Qed.

Lemma frame_trans this s1 s2 s3 :
  frame this s1 s2 → frame this s2 s3 → frame this s1 s3.
Proof.
  intros (Ho1 & Hh1 & Hn1) (Ho2 & Hh2 & Hn2). split_and!.
  - intros r Hr. rewrite Ho2, Ho1; done.
  - intros a blk Hown Ha. apply Hh2; [|by apply Hh1].
    intros Hown2. destruct (Hn1 a Hown2) as [? | Hnone]; [done | congruence].
  - intros a Hown3. destruct (Hn2 a Hown3) as [Hown2 | Hnone].
    + by apply Hn1.
    + destruct (decide (owned s1 this = Some a)) as [|Hown1]; [by left | right].
      destruct (heap s1 !! a) as [blk|] eqn:Ha; [|done].
      rewrite (Hh1 a blk Hown1 Ha) in Hnone. done.
Qed.

Lemma ptr_diff_Ptr a (i j : nat) s :
  ptr_diff (Ptr a (N.of_nat i)) (Ptr a (N.of_nat j)) s = Ret (Z.of_nat i - Z.of_nat j)%Z s.
Proof.
  unfold ptr_diff. rewrite decide_True by done. cbn.
  by rewrite !nat_N_Z.
Qed.

Lemma std_copy_eq a (i n : nat) d s r s' :
  copy_loop n (Ptr a (N.of_nat i)) d s = Ret r s' →
  std_copy (Ptr a (N.of_nat i)) (Ptr a (N.of_nat (i + n))) d s = Ret r s'.
Proof.
  intros Hrun. unfold std_copy. erewrite bind_Ret by apply ptr_diff_Ptr.
  destruct (Z.ltb_spec (Z.of_nat (i + n) - Z.of_nat i) 0); [lia|].
  by replace (Z.to_nat (Z.of_nat (i + n) - Z.of_nat i)) with n by lia.
Qed.

Lemma std_copy_null d s : std_copy nullptr nullptr d s = Ret d s.
Proof. done. Qed.

Lemma std_copy_backward_eq a (i n : nat) d s r s' :
  copy_backward_loop n (Ptr a (N.of_nat (i + n))) d s = Ret r s' →
  std_copy_backward (Ptr a (N.of_nat i)) (Ptr a (N.of_nat (i + n))) d s = Ret r s'.
Proof.
  intros Hrun. unfold std_copy_backward. erewrite bind_Ret by apply ptr_diff_Ptr.
  destruct (Z.ltb_spec (Z.of_nat (i + n) - Z.of_nat i) 0); [lia|].
  by replace (Z.to_nat (Z.of_nat (i + n) - Z.of_nat i)) with n by lia.
Qed.

Lemma Reserve_spec s this xs c n :
  holds s this xs c → n < SIZE_MOD →
  ∃ s', Reserve this n s = Ret () s' ∧ holds s' this xs (N.max c n) ∧ frame this s s'.
Proof.
  destruct s as [o h]. intros Hholds Hn.
  pose proof Hholds as (p & blk & Hobj & Hlen & Hc & Hle & Htake & Hp)%holds_inv.
  cbn in Hobj, Hp. unfold Reserve.
  erewrite bind_Ret by (by apply get_obj_eq). cbn [capacity_].
  destruct (N.ltb_spec c n) as [Hcn|Hcn]; cycle 1.
  { exists (mkState o h). rewrite N.max_l by done. split_and!; [done | done | apply frame_refl]. }
  rewrite N.max_r by lia.
  erewrite bind_Ret by (apply ArrayPtr_new_eq; lia).
  set (t := fresh (dom h)). set (dst := replicate (N.to_nat n) T_default).
  assert (h !! t = None) as Ht by apply fresh_heap.
  assert (length dst = N.to_nat n) as Hdst by apply length_replicate.
  erewrite bind_Ret by (by apply begin_eq). cbn [ptr_ raw_ptr_ ArrayPtr_Get].
  destruct Hp as [[-> ->] | (a & -> & Ha)].
  - (* no allocation so far *)
    erewrite bind_Ret by (by eapply end_eq_null).
    erewrite bind_Ret by reflexivity.
    erewrite bind_Ret by (by apply swap_ptr_eq).
    erewrite bind_Ret by (apply put_capacity_eq, lookup_insert_eq).
    cbn. rewrite insert_insert_eq. eexists. split; [reflexivity|].
    destruct xs; [|cbn in Hle; lia]. split.
    + eapply (holds_Ptr _ _ _ _ t [] dst);
        [apply lookup_insert_eq | done | done | done | apply lookup_insert_eq | lia | done |].
      intros k x Hk. done.
    + split_and!; cbn.
      * intros r Hr. by rewrite lookup_insert_ne.
      * intros a blk _ Ha. rewrite lookup_insert_ne; [done | congruence].
      * intros a. erewrite owned_eq by apply lookup_insert_eq. cbn.
        intros [= <-]. by right.
  - (* the elements move from the old allocation to the new one *)
    assert (t ≠ a) as Hta by (eapply fresh_heap_ne; eauto).
    erewrite bind_Ret by (by eapply (end_eq_Ptr _ _ _ _ _ (length xs))).
    destruct (copy_loop_spec (length xs) 0 0 a t o (<[t := dst]> h) blk dst)
      as (dst' & Hrun & Hlen' & Hk);
      [by rewrite lookup_insert_ne | apply lookup_insert_eq | by left | lia | lia |].
    erewrite bind_Ret by (apply (std_copy_eq a 0 (length xs)), Hrun).
    rewrite insert_insert_eq.
    erewrite bind_Ret by (by apply swap_ptr_eq).
    erewrite bind_Ret by (apply put_capacity_eq, lookup_insert_eq).
    cbn [ptr_ size_ capacity_]. rewrite insert_insert_eq.
    unfold ArrayPtr_destroy. cbn. rewrite lookup_insert_ne, Ha by done.
    eexists. split; [reflexivity|]. split.
    + eapply (holds_Ptr _ _ _ _ t xs dst').
      * apply lookup_insert_eq.
      * done.
      * done.
      * done.
      * rewrite lookup_delete_ne, lookup_insert_eq by done. done.
      * lia.
      * done.
      * intros k x Hx. rewrite Hk. cbn.
        pose proof (lookup_lt_Some _ _ _ Hx).
        case_decide; [|lia]. apply Htake in Hx. rewrite <- Hx. f_equal. lia.
    + split_and!; cbn.
      * intros r Hr. by rewrite lookup_insert_ne.
      * intros a' blk'. erewrite owned_eq by done. cbn. intros Hne Ha'.
        rewrite lookup_delete_ne, lookup_insert_ne; [done | congruence | congruence].
      * intros a'. erewrite owned_eq by apply lookup_insert_eq. cbn.
        intros [= <-]. by right.
Qed.

(** ** [PushBack] *)

(** A method that writes the fields of [this] and the elements of its own
    allocation leaves the rest alone. *)
Lemma frame_in_place this o h v w a blk' :
  o !! this = Some v → raw_ptr_ (ptr_ v) = Ptr a 0 → raw_ptr_ (ptr_ w) = Ptr a 0 →
  frame this (mkState o h) (mkState (<[this := w]> o) (<[a := blk']> h)).
Proof.
  intros Hobj Hv Hw. split_and!; cbn.
  - intros r Hr. by rewrite lookup_insert_ne.
  - intros a' blk. erewrite owned_eq by done. rewrite Hv. intros Hne Ha'.
    rewrite lookup_insert_ne; [done | congruence].
  - intros a'. erewrite !owned_eq by (done || apply lookup_insert_eq).
    rewrite Hv, Hw. by left.
Qed.

Lemma frame_fields this o h v w :
  o !! this = Some v → raw_ptr_ (ptr_ w) = raw_ptr_ (ptr_ v) →
  frame this (mkState o h) (mkState (<[this := w]> o) h).
Proof.
  intros Hobj Hw. split_and!; cbn.
  - intros r Hr. by rewrite lookup_insert_ne.
  - done.
  - intros a'. erewrite !owned_eq by (done || apply lookup_insert_eq).
    rewrite Hw. by left.
Qed.

Lemma grown_capacity_gt (n c : N) : n ≤ c → n < grown_capacity n c.
Proof. unfold grown_capacity. destruct (N.eqb_spec n c); lia. Qed.

Lemma grow_if_full_spec s this xs c :
  holds s this xs c → (N.of_nat (length xs) = c → c * 2 < SIZE_MOD) →
  ∃ s', grow_if_full this s = Ret () s' ∧
        holds s' this xs (grown_capacity (N.of_nat (length xs)) c) ∧
        frame this s s'.
Proof.
  destruct s as [o h]. intros Hholds Hc2.
  pose proof Hholds as (p & blk & Hobj & Hlen & Hc & Hle & Htake & Hp)%holds_inv.
  cbn in Hobj. unfold grow_if_full, grown_capacity.
  erewrite bind_Ret by (by apply get_obj_eq). cbn [size_ capacity_].
  destruct (N.eqb_spec (N.of_nat (length xs)) c) as [Heq|Hne]; cycle 1.
  { eexists. split_and!; [done | done | apply frame_refl]. }
  set (n := if c =? 0 then 1 else size_mul c 2).
  assert (n = N.max 1 (c * 2) ∧ c < n) as [Hn Hcn].
  { specialize (Hc2 Heq). subst n. destruct (N.eqb_spec c 0); [lia|].
    rewrite size_mul_small by done. lia. }
  destruct (Reserve_spec _ this xs c n Hholds) as (s' & Hrun & Hholds' & Hframe).
  { specialize (Hc2 Heq). pose proof SIZE_MOD_gt_1. lia. }
  exists s'. split_and!; [done | | done].
  rewrite <- Hn. by rewrite N.max_r in Hholds' by lia.
Qed.

Lemma lies_at_snoc blk xs x :
  lies_at blk 0 xs → (length xs < length blk)%nat →
  lies_at (<[length xs := x]> blk) 0 (xs ++ [x]).
Proof.
  intros Hxs Hlt k y Hk. cbn. apply lookup_app_Some in Hk as [Hk | [Hge Hk]].
  - pose proof (lookup_lt_Some _ _ _ Hk).
    rewrite list_lookup_insert_ne by lia. by apply (Hxs k).
  - apply list_lookup_singleton_Some in Hk as [Hk ->].
    replace k with (length xs) by lia. by apply list_lookup_insert_eq.
Qed.

Lemma PushBack_spec s this xs c x :
  holds s this xs c → (N.of_nat (length xs) = c → c * 2 < SIZE_MOD) →
  ∃ s', PushBack this x s = Ret () s' ∧
        holds s' this (xs ++ [x]) (grown_capacity (N.of_nat (length xs)) c) ∧
        frame this s s'.
Proof.
  intros Hholds Hc2.
  destruct (grow_if_full_spec s this xs c Hholds Hc2) as ([o h] & Hgrow & Hholds1 & Hframe1).
  pose proof Hholds as (_ & blk0 & _ & Hlen0 & _ & Hle0 & _)%holds_inv.
  pose proof (grown_capacity_gt (N.of_nat (length xs)) c ltac:(lia)) as Hgt.
  set (c' := grown_capacity (N.of_nat (length xs)) c) in *.
  pose proof Hholds1 as (p & blk & Hobj & Hlen & Hc & Hle & Hxs & Hp)%holds_inv.
  destruct Hp as [[-> ->] | (a & -> & Ha)]; [cbn in Hlen; lia|].
  cbn in Hobj, Ha. unfold PushBack. erewrite bind_Ret by done.
  erewrite bind_Ret by (by apply get_obj_eq).
  erewrite bind_Ret by (by apply put_size_eq). cbn [ptr_ size_ capacity_].
  erewrite bind_Ret by (apply (ptr_add_Ptr a 0)). cbn [Nat.add].
  erewrite store_Ptr by (rewrite ?Ha; done || lia).
  eexists. split; [reflexivity|]. split.
  - eapply holds_Ptr; [apply lookup_insert_eq | done | | done | apply lookup_insert_eq | | done |].
    + cbn. rewrite size_add_small by lia. rewrite length_app. cbn. lia.
    + rewrite length_insert. lia.
    + apply lies_at_snoc; [done | lia].
  - eapply frame_trans; [done|]. by eapply frame_in_place.
Qed.

(** ** [Resize] *)

Lemma lies_at_prefix blk xs n : lies_at blk 0 xs → lies_at blk 0 (take n xs).
Proof. intros H k x Hk. apply lookup_take_Some in Hk as [Hk _]. by apply H. Qed.

Lemma Resize_spec s this xs c n :
  holds s this xs c → n < SIZE_MOD →
  ∃ s', Resize this n s = Ret () s' ∧
        holds s' this
          (take (N.to_nat n) xs ++ replicate (N.to_nat n - length xs) T_default)
          (N.max c n) ∧
        frame this s s'.
Proof.
  intros Hholds Hn.
  pose proof Hholds as (p0 & blk0 & Hobj0 & Hlen0 & Hc0 & Hle0 & _)%holds_inv.
  assert (∃ s1, (if c <? n then Reserve this n else mret ()) s = Ret () s1 ∧
                holds s1 this xs (N.max c n) ∧ frame this s s1)
    as ([o h] & Hrun1 & Hholds1 & Hframe1).
  { destruct (N.ltb_spec c n).
    - by apply Reserve_spec.
    - exists s. rewrite N.max_l by done. split_and!; [done | done | apply frame_refl]. }
  pose proof Hholds1 as (p & blk & Hobj & Hlen & Hc & Hle & Hxs & Hp)%holds_inv.
  cbn in Hobj, Hp. unfold Resize. destruct s as [o0 h0]. cbn in Hobj0.
  erewrite bind_Ret by (by apply get_obj_eq). cbn [capacity_].
  erewrite bind_Ret by done.
  erewrite bind_Ret by (by apply get_obj_eq). cbn [size_ ptr_].
  set (m := N.to_nat n). assert (n = N.of_nat m) as Hm by lia.
  destruct (N.ltb_spec (N.of_nat (length xs)) n) as [Hgrow|Hshrink].
  - (* new slots are exposed: they take the default value *)
    destruct Hp as [[-> ->] | (a & -> & Ha)]; [cbn in Hlen; lia|].
    destruct (fill_default_loop_spec (m - length xs) (length xs) a o h blk)
      as (blk' & Hfill & Hlen' & Hk); [done | lia |].
    erewrite bind_Ret; cycle 1.
    { erewrite bind_Ret by (by eapply (end_eq_Ptr _ _ _ _ _ (length xs))).
      cbn [ArrayPtr_Get raw_ptr_]. rewrite Hm.
      erewrite bind_Ret by (apply (ptr_add_Ptr a 0)). cbn [Nat.add].
      erewrite bind_Ret by apply ptr_diff_Ptr.
      destruct (Z.ltb_spec (Z.of_nat m - Z.of_nat (length xs)) 0); [lia|].
      replace (Z.to_nat (Z.of_nat m - Z.of_nat (length xs))) with (m - length xs)%nat by lia.
      apply Hfill. }
    erewrite put_size_eq by done. cbn [ptr_ capacity_].
    eexists. split; [reflexivity|]. split.
    + eapply holds_Ptr;
        [apply lookup_insert_eq | done | | done | apply lookup_insert_eq | lia | done |].
      * cbn. rewrite length_app, length_take, length_replicate. lia.
      * rewrite take_ge by lia. intros k x Hx. cbn. rewrite Hk.
        apply lookup_app_Some in Hx as [Hx | [Hge Hx]].
        -- pose proof (lookup_lt_Some _ _ _ Hx). case_decide; [lia|]. by apply (Hxs k).
        -- apply lookup_replicate in Hx as [-> Hlt]. case_decide; [done | lia].
    + eapply frame_trans; [done|]. by eapply frame_in_place.
  - (* the elements beyond the new size leave the logical sequence *)
    erewrite bind_Ret by done.
    erewrite put_size_eq by done. cbn [ptr_ capacity_].
    eexists. split; [reflexivity|]. split.
    + replace (m - length xs)%nat with 0%nat by lia. cbn [replicate]. rewrite app_nil_r.
      destruct Hp as [[-> ->] | (a & -> & Ha)].
      * destruct xs; [|cbn in Hle; lia]. cbn in Hshrink.
        assert (n = 0) as -> by lia. cbn in Hlen. rewrite <- Hlen.
        rewrite take_nil. apply holds_null. by rewrite lookup_insert_eq.
      * eapply holds_Ptr;
          [apply lookup_insert_eq | done | | done | done | lia | done |].
        -- cbn. rewrite length_take. lia.
        -- by apply lies_at_prefix.
    + eapply frame_trans; [done|]. by eapply frame_fields.
Qed.

(** ** [Insert] and [Erase] *)

Lemma position_eq o h this xs c v (p : nat) :
  holds (mkState o h) this xs c → o !! this = Some v → (p ≤ length xs)%nat →
  position this (N.of_nat p) (mkState o h) = Ret (iterator_at v p) (mkState o h).
Proof.
  intros (p0 & blk & Hobj & Hlen & Hc & Hle & Hxs & Hp)%holds_inv Hv Hpx.
  cbn in Hobj. simplify_eq. unfold position, iterator_at.
  erewrite bind_Ret by (by apply begin_eq). cbn.
  destruct Hp as [[-> ->] | (a & -> & Ha)]; [|done].
  cbn in Hle. replace p with 0%nat by lia. done.
Qed.

Lemma assert_position_ok o h this xs c v (p : nat) :
  holds (mkState o h) this xs c → o !! this = Some v → (p ≤ length xs)%nat →
  assert_position this (iterator_at v p) (mkState o h) = Ret () (mkState o h).
Proof.
  intros (p0 & blk & Hobj & Hlen & Hc & Hle & Hxs & Hp)%holds_inv Hv Hpx.
  cbn in Hobj. simplify_eq. unfold assert_position, iterator_at.
  erewrite bind_Ret by (by apply begin_eq). cbn [ptr_ raw_ptr_].
  destruct Hp as [[-> ->] | (a & -> & Ha)].
  - erewrite bind_Ret by reflexivity.
    erewrite bind_Ret
      by (cbn; erewrite bind_Ret by (by eapply end_eq_null); reflexivity).
    reflexivity.
  - unfold ptr_le.
    erewrite bind_Ret by (erewrite bind_Ret by (apply (ptr_diff_Ptr a 0 p)); reflexivity).
    destruct (Z.leb_spec (Z.of_nat 0 - Z.of_nat p) 0); [|lia].
    erewrite bind_Ret
      by (erewrite bind_Ret by (by eapply (end_eq_Ptr _ _ _ _ _ (length xs)));
          erewrite bind_Ret by (apply ptr_diff_Ptr); reflexivity).
    destruct (Z.leb_spec (Z.of_nat p - Z.of_nat (length xs)) 0); [done | lia].
Qed.

Lemma lookup_inserted xs (p : nat) x k y :
  (p ≤ length xs)%nat →
  (take p xs ++ x :: drop p xs) !! k = Some y →
  (k < p ∧ xs !! k = Some y)%nat ∨ (k = p ∧ y = x) ∨
  (p < k ∧ xs !! (k - 1)%nat = Some y)%nat.
Proof.
  intros Hp Hk. apply lookup_app_Some in Hk as [Hk | [Hge Hk]].
  - apply lookup_take_Some in Hk as [Hk Hlt]. by left.
  - rewrite length_take_le in Hge, Hk by done.
    rewrite lookup_cons in Hk. destruct (k - p)%nat as [|d] eqn:Hd.
    + right; left. split; [lia | congruence].
    + right; right. rewrite lookup_drop in Hk. split; [lia|].
      by replace (k - 1)%nat with (p + d)%nat by lia.
Qed.

Lemma lookup_erased xs (p : nat) k y :
  (p ≤ length xs)%nat →
  (take p xs ++ drop (S p) xs) !! k = Some y →
  (k < p ∧ xs !! k = Some y)%nat ∨ (p ≤ k ∧ xs !! (S k) = Some y)%nat.
Proof.
  intros Hp Hk. apply lookup_app_Some in Hk as [Hk | [Hge Hk]].
  - apply lookup_take_Some in Hk as [Hk Hlt]. by left.
  - rewrite length_take_le in Hge, Hk by done. right.
    rewrite lookup_drop in Hk. split; [lia|].
    by replace (S k) with (S p + (k - p))%nat by lia.
Qed.

Lemma Insert_spec s this xs c (p : nat) x pos :
  holds s this xs c → (N.of_nat (length xs) = c → c * 2 < SIZE_MOD) →
  (p ≤ length xs)%nat →
  position this (N.of_nat p) s = Ret pos s →
  ∃ s' it, Insert this pos x s = Ret it s' ∧
    holds s' this (take p xs ++ x :: drop p xs) (grown_capacity (N.of_nat (length xs)) c) ∧
    position this (N.of_nat p) s' = Ret it s' ∧
    frame this s s'.
Proof.
  destruct s as [o0 h0]. intros Hholds Hc2 Hp Hpos.
  pose proof Hholds as (p0 & blk0 & Hobj0 & Hlen0 & Hc0 & Hle0 & _ & Hp0)%holds_inv.
  cbn in Hobj0. erewrite position_eq in Hpos by done.
  injection Hpos as Hpos. subst pos.
  destruct (grow_if_full_spec _ this xs c Hholds Hc2) as ([o h] & Hgrow & Hholds1 & Hframe1).
  pose proof (grown_capacity_gt (N.of_nat (length xs)) c ltac:(lia)) as Hgt.
  set (c' := grown_capacity (N.of_nat (length xs)) c) in *.
  pose proof Hholds1 as (p1 & blk & Hobj & Hlen & Hc & Hle & Hxs & Hp1)%holds_inv.
  destruct Hp1 as [[-> ->] | (a & -> & Ha)]; [cbn in Hlen; lia|].
  cbn in Hobj, Ha. unfold Insert.
  erewrite bind_Ret by (by eapply assert_position_ok).
  erewrite bind_Ret by (by apply begin_eq).
  assert (∃ d, ptr_diff (iterator_at {| ptr_ := {| raw_ptr_ := p0 |};
                 size_ := N.of_nat (length xs); capacity_ := c |} p) p0 (mkState o0 h0)
               = Ret d (mkState o0 h0) ∧ size_of_diff d = N.of_nat p) as (d & Hd & Hpi).
  { unfold iterator_at. cbn. destruct Hp0 as [[-> ->] | (a0 & -> & Ha0)].
    - exists 0%Z. cbn in Hle0. replace p with 0%nat by lia. done.
    - exists (Z.of_nat p - Z.of_nat 0)%Z. split; [apply (ptr_diff_Ptr a0 p 0)|].
      rewrite Z.sub_0_r. apply size_of_diff_nat. lia. }
  erewrite bind_Ret by apply Hd. rewrite Hpi.
  erewrite bind_Ret by done.
  erewrite bind_Ret by (by apply get_obj_eq).
  erewrite bind_Ret by (by apply put_size_eq). cbn [ptr_ size_ capacity_].
  rewrite size_add_small by lia.
  replace (N.of_nat (length xs) + 1) with (N.of_nat (S (length xs))) by lia.
  erewrite bind_Ret by (apply begin_eq, lookup_insert_eq). cbn [ptr_ raw_ptr_].
  erewrite bind_Ret by (apply (ptr_add_Ptr a 0)). cbn [Nat.add].
  erewrite bind_Ret by (eapply (end_eq_Ptr _ _ _ _ _ (S (length xs))); [apply lookup_insert_eq | done | done]).
  erewrite bind_Ret by (apply (ptr_sub_Ptr a _ 1); lia).
  replace (S (length xs) - 1)%nat with (p + (length xs - p))%nat by lia.
  destruct (copy_backward_loop_spec (length xs - p) p (S p) a a
              (<[this := {| ptr_ := {| raw_ptr_ := Ptr a 0 |};
                            size_ := N.of_nat (S (length xs)); capacity_ := c' |}]> o) h blk blk)
    as (blk' & Hrun & Hlen' & Hk); [done | done | right; lia | lia | lia |].
  replace (S p + (length xs - p))%nat with (S (length xs)) in Hrun by lia.
  erewrite bind_Ret by (apply std_copy_backward_eq, Hrun).
  erewrite bind_Ret by (apply (ptr_sub_Ptr a _ 1); lia).
  replace (S p - 1)%nat with p by lia.
  erewrite bind_Ret by (eapply store_Ptr; [apply lookup_insert_eq | lia]).
  rewrite insert_insert_eq.
  eexists _, _. split; [reflexivity|]. split_and!.
  - eapply holds_Ptr;
      [apply lookup_insert_eq | done | | done | apply lookup_insert_eq | | done |].
    + cbn. rewrite length_app, length_take. cbn. rewrite length_drop. lia.
    + rewrite length_insert. lia.
    + intros k y Hy. cbn.
      apply lookup_inserted in Hy as [[Hlt Hy] | [[-> ->] | [Hlt Hy]]]; [| | | done].
      * rewrite list_lookup_insert_ne by lia. rewrite Hk.
        case_decide; [lia|]. by apply (Hxs k).
      * rewrite list_lookup_insert_eq by lia. done.
      * pose proof (lookup_lt_Some _ _ _ Hy).
        rewrite list_lookup_insert_ne by lia. rewrite Hk.
        case_decide; [|lia]. apply Hxs in Hy. rewrite <- Hy. f_equal. lia.
  - unfold position. erewrite bind_Ret by (apply begin_eq, lookup_insert_eq). done.
  - eapply frame_trans; [done|]. by eapply frame_in_place.
Qed.

Lemma Erase_spec s this xs c (p : nat) pos :
  holds s this xs c → (p < length xs)%nat →
  position this (N.of_nat p) s = Ret pos s →
  ∃ s', Erase this pos s = Ret pos s' ∧
    holds s' this (take p xs ++ drop (S p) xs) c ∧
    position this (N.of_nat p) s' = Ret pos s' ∧
    frame this s s'.
Proof.
  destruct s as [o h]. intros Hholds Hp Hpos.
  pose proof Hholds as (p0 & blk & Hobj & Hlen & Hc & Hle & Hxs & Hp0)%holds_inv.
  cbn in Hobj. erewrite position_eq in Hpos by (done || lia).
  injection Hpos as Hpos. subst pos.
  destruct Hp0 as [[-> ->] | (a & -> & Ha)]; [cbn in Hle; lia|].
  cbn in Ha. unfold Erase.
  erewrite bind_Ret by (eapply assert_position_ok; [done | done | lia]).
  unfold iterator_at. cbn [ptr_ raw_ptr_].
  erewrite bind_Ret by (apply (ptr_add_Ptr a p 1)).
  erewrite bind_Ret by (by eapply (end_eq_Ptr _ _ _ _ _ (length xs))).
  destruct (copy_loop_spec (length xs - (p + 1)) (p + 1) p a a o h blk blk)
    as (blk' & Hrun & Hlen' & Hk); [done | done | right; lia | lia | lia |].
  erewrite bind_Ret; cycle 1.
  { unfold std_move.
    replace (length xs) with ((p + 1) + (length xs - (p + 1)))%nat at 1 by lia.
    apply std_copy_eq, Hrun. }
  erewrite bind_Ret by (by apply get_obj_eq).
  erewrite bind_Ret by (by apply put_size_eq). cbn [ptr_ size_ capacity_].
  rewrite size_sub_small by lia.
  eexists. split; [reflexivity|]. split_and!.
  - eapply holds_Ptr;
      [apply lookup_insert_eq | done | | done | apply lookup_insert_eq | lia | done |].
    + cbn. rewrite length_app, length_take, length_drop. lia.
    + intros k y Hy. cbn.
      apply lookup_erased in Hy as [[Hlt Hy] | [Hlt Hy]]; [| | lia].
      * rewrite Hk. case_decide; [lia|]. by apply (Hxs k).
      * pose proof (lookup_lt_Some _ _ _ Hy).
        rewrite Hk. case_decide; [|lia]. apply Hxs in Hy. rewrite <- Hy. f_equal. lia.
  - unfold position. erewrite bind_Ret by (apply begin_eq, lookup_insert_eq). done.
  - by eapply frame_in_place.
Qed.

(** ** Frames and the copy constructor *)

Lemma holds_frame this r s s' ys c :
  frame this s s' → separate s this r → holds s r ys c → holds s' r ys c.
Proof.
  intros (Ho & Hh & _) [Hne Hsep] (v & blk & Hobj & Hbuf & Hrest).
  exists v, blk. split; [by rewrite Ho|]. split; [|apply Hrest].
  unfold buffer in *. destruct (raw_ptr_ (ptr_ v)) as [|a i] eqn:Hp; [done|].
  destruct (i =? 0); [|done]. apply Hh; [|done].
  intros Hown. apply (Hsep a Hown). unfold owned. by rewrite Hobj, Hp.
Qed.

Lemma holds_owned_live s r ys c a :
  holds s r ys c → owned s r = Some a → is_Some (heap s !! a).
Proof.
  intros (v & blk & Hobj & Hbuf & _). unfold owned, buffer in *. rewrite Hobj.
  destruct (raw_ptr_ (ptr_ v)) as [|a' i]; [done|]. intros [= ->].
  destruct (i =? 0); [eauto | done].
Qed.

Lemma separate_frame this r s s' ys c :
  frame this s s' → separate s this r → holds s r ys c → separate s' this r.
Proof.
  intros (Ho & Hh & Hn) [Hne Hsep] Hholds. split; [done|].
  intros a Hown' Hr. assert (owned s r = Some a) as Hr0.
  { unfold owned in *. by rewrite <- Ho. }
  destruct (Hn a Hown') as [Hown | Hnone].
  - by apply (Hsep a).
  - destruct (holds_owned_live _ _ _ _ _ Hholds Hr0). congruence.
Qed.

Lemma separate_sym s r1 r2 : separate s r1 r2 → separate s r2 r1.
Proof. intros [Hne Hsep]. split; [done|]. intros a H2 H1. by apply (Hsep a). Qed.

(** The elements of a well-formed vector, copied into a new array. *)
Lemma copy_elements o h xs p e blk dst0 :
  (p = nullptr ∧ e = nullptr ∧ blk = []) ∨
  (∃ a, p = Ptr a 0 ∧ e = Ptr a (N.of_nat (length xs)) ∧ h !! a = Some blk) →
  lies_at blk 0 xs → (length xs ≤ length blk)%nat → length dst0 = length xs →
  ∃ r, std_copy p e (copied_ptr h xs)
         (mkState o (match xs with [] => h | _ => <[fresh (dom h) := dst0]> h end))
       = Ret r (mkState o (copied_heap h xs)).
Proof.
  intros Hp Hxs Hle Hdst0.
  destruct Hp as [(-> & -> & ->) | (a & -> & -> & Ha)].
  - destruct xs; [by eexists | cbn in Hle; lia].
  - destruct xs as [|x xs']; [eexists; by apply (std_copy_eq a 0 0)|].
    set (xs := x :: xs') in *. unfold copied_ptr, copied_heap.
    set (t := fresh (dom h)). assert (t ≠ a) as Hta by (eapply fresh_heap_ne; eauto).
    destruct (copy_loop_spec (length xs) 0 0 a t o (<[t := dst0]> h) blk dst0)
      as (dst' & Hrun & Hlen' & Hk);
      [by rewrite lookup_insert_ne | apply lookup_insert_eq | by left | lia | lia |].
    assert (dst' = xs) as ->.
    { apply list_eq. intros k. rewrite Hk. case_decide as Hlt.
      - destruct (lookup_lt_is_Some_2 xs k) as [y Hy]; [lia|].
        rewrite Hy. apply Hxs in Hy. rewrite <- Hy. f_equal. lia.
      - rewrite (proj2 (lookup_ge_None dst0 k)) by lia.
        symmetry. apply lookup_ge_None. lia. }
    rewrite insert_insert_eq in Hrun.
    subst xs. cbn [copied_ptr]. eexists.
    apply (std_copy_eq a 0 (length (x :: xs'))). apply Hrun.
Qed.

Lemma ends o h sv xs c p blk :
  o !! sv = Some (mkSimpleVector (mkArrayPtr p) (N.of_nat (length xs)) c) →
  (p = nullptr ∧ blk = []) ∨ (∃ a, p = Ptr a 0 ∧ h !! a = Some blk) →
  ∃ e, end_ sv (mkState o h) = Ret e (mkState o h) ∧
       ((p = nullptr ∧ e = nullptr ∧ blk = []) ∨
        (∃ a, p = Ptr a 0 ∧ e = Ptr a (N.of_nat (length xs)) ∧ h !! a = Some blk)).
Proof.
  intros Hobj [[-> ->] | (a & -> & Ha)].
  - exists nullptr. split; [by eapply end_eq_null | by left].
  - exists (Ptr a (N.of_nat (length xs))).
    split; [by eapply end_eq_Ptr | right; eauto].
Qed.

Lemma ArrayPtr_new_copied o h xs :
  ArrayPtr_new (N.of_nat (length xs)) (mkState o h)
  = Ret (mkArrayPtr (copied_ptr h xs))
      (mkState o (match xs with
                  | [] => h
                  | _ => <[fresh (dom h) := replicate (length xs) T_default]> h
                  end)).
Proof.
  destruct xs as [|x xs]; [done|].
  rewrite ArrayPtr_new_eq by (cbn; lia). by rewrite Nat2N.id.
Qed.

Lemma SimpleVector_copy_eq o h this sv xs c :
  holds (mkState o h) sv xs c → o !! this = None →
  SimpleVector_copy this sv (mkState o h)
  = Ret () (mkState
      (<[this := mkSimpleVector (mkArrayPtr (copied_ptr h xs))
                   (N.of_nat (length xs)) (N.of_nat (length xs))]> o)
      (copied_heap h xs)).
Proof.
  intros Hholds Hthis.
  pose proof Hholds as (p & blk & Hobj & Hlen & Hc & Hle & Hxs & Hp)%holds_inv.
  cbn in Hobj, Hp. assert (this ≠ sv) as Hne by congruence.
  unfold SimpleVector_copy.
  erewrite bind_Ret by (unfold new_obj; cbn; by rewrite Hthis).
  erewrite bind_Ret by (by apply GetSize_eq; rewrite lookup_insert_ne). cbn [size_].
  erewrite bind_Ret by apply ArrayPtr_new_copied.
  erewrite bind_Ret by (apply swap_ptr_eq, lookup_insert_eq). cbn [ptr_ size_ capacity_].
  rewrite insert_insert_eq.
  erewrite bind_Ret by (by apply begin_eq; rewrite lookup_insert_ne). cbn [ptr_ raw_ptr_].
  destruct (ends (<[this := mkSimpleVector (mkArrayPtr (copied_ptr h xs)) 0 0]> o)
              (match xs with
               | [] => h
               | _ => <[fresh (dom h) := replicate (length xs) T_default]> h
               end) sv xs c p blk) as (e & He & Hpe).
  { by rewrite lookup_insert_ne. }
  { destruct Hp as [? | (a & -> & Ha)]; [by left | right].
    exists a. split; [done|]. destruct xs; [done|].
    rewrite lookup_insert_ne; [done|]. by eapply fresh_heap_ne. }
  erewrite bind_Ret by apply He.
  erewrite bind_Ret by (apply begin_eq, lookup_insert_eq). cbn [ptr_ raw_ptr_].
  destruct (copy_elements (<[this := mkSimpleVector (mkArrayPtr (copied_ptr h xs)) 0 0]> o)
              h xs p e blk (replicate (length xs) T_default)) as (r & Hcopy);
    [| done | done | apply length_replicate |].
  { destruct Hpe as [? | (a & -> & -> & Ha)]; [by left | right].
    exists a. split_and!; [done | done |]. destruct Hp as [[? _] | (a' & [= <-] & ?)]; done. }
  erewrite bind_Ret by apply Hcopy.
  erewrite bind_Ret by (by apply GetSize_eq; rewrite lookup_insert_ne). cbn [size_].
  erewrite bind_Ret by (apply put_size_eq, lookup_insert_eq). cbn [ptr_ size_ capacity_].
  rewrite insert_insert_eq.
  erewrite bind_Ret by (by apply GetSize_eq; rewrite lookup_insert_ne). cbn [size_].
  erewrite bind_Ret by (apply put_capacity_eq, lookup_insert_eq). cbn [ptr_ size_ capacity_].
  rewrite insert_insert_eq. done.
Qed.

(** ** Copy construction and copy assignment *)

Lemma holds_size_lt s r xs c : holds s r xs c → N.of_nat (length xs) < SIZE_MOD.
Proof. intros (_ & blk & _ & Hlen & Hc & Hle & _)%holds_inv. lia. Qed.

Lemma holds_copied_ptr o h this xs :
  N.of_nat (length xs) < SIZE_MOD →
  o !! this = Some (mkSimpleVector (mkArrayPtr (copied_ptr h xs))
                      (N.of_nat (length xs)) (N.of_nat (length xs))) →
  ∀ h', (∀ x xs', xs = x :: xs' → h' !! fresh (dom h) = Some xs) →
  holds (mkState o h') this xs (N.of_nat (length xs)).
Proof.
  intros Hlt Hobj h' Hh'. destruct xs as [|x xs'].
  - by apply holds_null.
  - eapply holds_Ptr; [done | done | done | done | by eapply Hh' | done | done |].
    by intros k y Hy.
Qed.

Lemma SimpleVector_copy_spec s this sv xs c :
  holds s sv xs c → objs s !! this = None →
  ∃ s', SimpleVector_copy this sv s = Ret () s' ∧
        holds s' this xs (N.of_nat (length xs)) ∧
        holds s' sv xs c ∧
        separate s' this sv.
Proof.
  destruct s as [o h]. cbn. intros Hholds Hthis.
  pose proof (holds_size_lt _ _ _ _ Hholds) as Hlt.
  pose proof Hholds as (p & blk & Hobj & Hlen & Hc & Hle & Hxs & Hp)%holds_inv.
  cbn in Hobj, Hp. assert (this ≠ sv) as Hne by congruence.
  eexists. split; [by eapply SimpleVector_copy_eq|]. split_and!.
  - apply (holds_copied_ptr _ h); [done | apply lookup_insert_eq |].
    intros x xs' ->. apply lookup_insert_eq.
  - destruct Hp as [[-> ->] | (a & -> & Ha)].
    + destruct xs; [|cbn in Hle; lia]. cbn in Hlen. subst c.
      apply holds_null. by rewrite lookup_insert_ne.
    + eapply holds_Ptr; [by rewrite lookup_insert_ne | done | done | done | | done | done | done].
      destruct xs; [done|]. cbn. rewrite lookup_insert_ne; [done|]. by eapply fresh_heap_ne.
  - split; [done|]. intros a.
    erewrite !owned_eq by (apply lookup_insert_eq || by rewrite lookup_insert_ne).
    cbn. destruct xs as [|x xs']; [done|]. cbn. intros [= Ht].
    destruct Hp as [[-> ->] | (a' & -> & Ha)]; [done|]. intros [= Ha'].
    pose proof (fresh_heap h). congruence.
Qed.

Lemma assign_copy_spec s this rhs xs c ys c2 :
  holds s rhs xs c → holds s this ys c2 →
  this = rhs ∨ separate s this rhs →
  ∃ s', assign_copy this rhs s = Ret () s' ∧
        holds s' this xs (N.of_nat (length xs)) ∧
        (this ≠ rhs → holds s' rhs xs c ∧ separate s' this rhs).
Proof.
  destruct s as [o h]. intros Hrhs Hthis Hsep.
  pose proof (holds_size_lt _ _ _ _ Hrhs) as Hlt.
  pose proof Hrhs as (p & blk & Hobj & Hlen & Hc & Hle & Hxs & Hp)%holds_inv.
  pose proof Hthis as (p2 & blk2 & Hobj2 & Hlen2 & Hc2 & Hle2 & Hxs2 & Hp2)%holds_inv.
  cbn in Hobj, Hp, Hobj2, Hp2. unfold assign_copy.
  erewrite bind_Ret by (by apply GetSize_eq). cbn [size_].
  erewrite bind_Ret by apply ArrayPtr_new_copied.
  erewrite bind_Ret by (by apply begin_eq). cbn [ptr_ raw_ptr_].
  destruct (ends o (match xs with
               | [] => h
               | _ => <[fresh (dom h) := replicate (length xs) T_default]> h
               end) rhs xs c p blk) as (e & He & Hpe); [done | |].
  { destruct Hp as [? | (a & -> & Ha)]; [by left | right].
    exists a. split; [done|]. destruct xs; [done|].
    rewrite lookup_insert_ne; [done|]. by eapply fresh_heap_ne. }
  erewrite bind_Ret by apply He.
  destruct (copy_elements o h xs p e blk (replicate (length xs) T_default)) as (r & Hcopy);
    [| done | done | apply length_replicate |].
  { destruct Hpe as [? | (a & -> & -> & Ha)]; [by left | right].
    exists a. split_and!; [done | done |]. destruct Hp as [[? _] | (a' & [= <-] & ?)]; done. }
  erewrite bind_Ret by apply Hcopy.
  erewrite bind_Ret by (by apply swap_ptr_eq). cbn [ptr_ size_ capacity_].
  assert (∀ v, (<[this := v]> o) !! rhs = Some
            (if decide (this = rhs) then v
             else mkSimpleVector (mkArrayPtr p) (N.of_nat (length xs)) c)) as Hrhs'.
  { intros v. case_decide as Heq; [subst; apply lookup_insert_eq|].
    by rewrite lookup_insert_ne. }
  assert (length ys = length xs ∨ this ≠ rhs) as Hsz.
  { destruct (decide (this = rhs)) as [->|]; [left | by right].
    rewrite Hobj in Hobj2. injection Hobj2. lia. }
  erewrite bind_Ret by (apply GetSize_eq, Hrhs').
  erewrite bind_Ret by (apply put_size_eq, lookup_insert_eq). cbn [ptr_ size_ capacity_].
  rewrite insert_insert_eq.
  erewrite bind_Ret by (apply GetSize_eq, Hrhs').
  erewrite bind_Ret by (apply put_capacity_eq, lookup_insert_eq). cbn [ptr_ size_ capacity_].
  rewrite insert_insert_eq.
  assert ((if decide (this = rhs)
           then {| ptr_ := {| raw_ptr_ := copied_ptr h xs |};
                   size_ := N.of_nat (length ys); capacity_ := c2 |}
           else {| ptr_ := {| raw_ptr_ := p |};
                   size_ := N.of_nat (length xs); capacity_ := c |}).(size_)
          = N.of_nat (length xs)) as ->.
  { case_decide; cbn; [|done]. destruct Hsz as [->|]; done. }
  assert (∀ q, (if decide (this = rhs)
           then {| ptr_ := {| raw_ptr_ := copied_ptr h xs |};
                   size_ := q; capacity_ := c2 |}
           else {| ptr_ := {| raw_ptr_ := p |};
                   size_ := N.of_nat (length xs); capacity_ := c |}).(size_)
          = if decide (this = rhs) then q else N.of_nat (length xs)) as Hq.
  { intros q. by case_decide. }
  rewrite Hq. clear Hq.
  assert ((if decide (this = rhs) then N.of_nat (length xs) else N.of_nat (length xs))
          = N.of_nat (length xs)) as -> by (by case_decide).
  unfold ArrayPtr_destroy. cbn [raw_ptr_].
  assert (∀ a blk', h !! a = Some blk' → copied_heap h xs !! a = Some blk') as Hkeep.
  { intros a blk' Ha. unfold copied_heap. destruct xs; [done|].
    rewrite lookup_insert_ne; [done|]. by eapply fresh_heap_ne. }
  assert (∃ h', delete_array p2 (mkState
             (<[this := mkSimpleVector (mkArrayPtr (copied_ptr h xs))
                          (N.of_nat (length xs)) (N.of_nat (length xs))]> o)
             (copied_heap h xs))
           = Ret () (mkState
             (<[this := mkSimpleVector (mkArrayPtr (copied_ptr h xs))
                          (N.of_nat (length xs)) (N.of_nat (length xs))]> o) h') ∧
           (∀ x xs', xs = x :: xs' → h' !! fresh (dom h) = Some xs) ∧
           (∀ a blk', h !! a = Some blk' → p2 ≠ Ptr a 0 → h' !! a = Some blk'))
    as (h' & Hdel & Hnew & Hold).
  { destruct Hp2 as [[-> ->] | (a2 & -> & Ha2)].
    - exists (copied_heap h xs). split_and!; [done | | by auto].
      intros x xs' ->. apply lookup_insert_eq.
    - exists (delete a2 (copied_heap h xs)). split_and!.
      + cbn. by rewrite (Hkeep _ _ Ha2).
      + intros x xs' ->. rewrite lookup_delete_ne; [apply lookup_insert_eq|].
        intros Heq. pose proof (fresh_heap h). congruence.
      + intros a blk' Ha Hne. rewrite lookup_delete_ne by congruence. by apply Hkeep. }
  rewrite Hdel. eexists. split; [reflexivity|]. split.
  - apply (holds_copied_ptr _ h); [done | apply lookup_insert_eq | done].
  - intros Hne. destruct Hsep as [? | [_ Hsep]]; [done|].
    erewrite owned_eq in Hsep by done. cbn in Hsep. split.
    + destruct Hp as [[-> ->] | (a & -> & Ha)].
      * destruct xs; [|cbn in Hle; lia]. cbn in Hlen. subst c.
        apply holds_null. by rewrite lookup_insert_ne.
      * eapply holds_Ptr; [by rewrite lookup_insert_ne | done | done | done | | done | done | done].
        apply Hold; [done|]. intros ->. apply (Hsep a); [done|].
        by erewrite owned_eq by done.
    + split; [done|]. intros a.
      erewrite !owned_eq by (apply lookup_insert_eq || by rewrite lookup_insert_ne).
      cbn. destruct xs as [|x xs']; [done|]. cbn. intros [= Ht].
      destruct Hp as [[-> ->] | (a' & -> & Ha)]; [done|]. intros [= Ha'].
      pose proof (fresh_heap h). congruence.
Qed.

(** ** Comparison operators *)

(** The range [begin(), end()) of a well-formed vector. *)
Lemma range_spec o h this xs c :
  holds (mkState o h) this xs c →
  ∃ b e, begin this (mkState o h) = Ret b (mkState o h) ∧
         end_ this (mkState o h) = Ret e (mkState o h) ∧
         ptr_diff e b (mkState o h) = Ret (Z.of_nat (length xs)) (mkState o h) ∧
         (xs = [] ∨ ∃ a blk, b = Ptr a (N.of_nat 0) ∧ h !! a = Some blk ∧ lies_at blk 0 xs).
Proof.
  intros (p & blk & Hobj & Hlen & Hc & Hle & Hxs & Hp)%holds_inv. cbn in Hobj, Hp.
  destruct (ends o h this xs c p blk Hobj Hp) as (e & He & Hpe).
  exists p, e. split_and!; [apply (begin_eq _ _ _ _ Hobj) | done | |].
  - destruct Hpe as [(-> & -> & ->) | (a & -> & -> & Ha)].
    + destruct xs; [done | cbn in Hle; lia].
    + rewrite (ptr_diff_Ptr a (length xs) 0). do 2 f_equal. lia.
  - destruct Hpe as [(-> & -> & ->) | (a & -> & -> & Ha)].
    + left. destruct xs; [done | cbn in Hle; lia].
    + right. eauto.
Qed.

Lemma op_eq_spec s a b xs ys ca cb :
  holds s a xs ca → holds s b ys cb → a ≠ b →
  ∃ r, op_eq a b s = Ret r s ∧ (r = true ↔ same_elements xs ys).
Proof.
  destruct s as [o h]. intros Ha Hb Hne.
  destruct (range_spec _ _ _ _ _ Ha) as (b1 & e1 & Hb1 & He1 & Hd1 & Hr1).
  destruct (range_spec _ _ _ _ _ Hb) as (b2 & e2 & Hb2 & He2 & Hd2 & Hr2).
  pose proof (holds_size_lt _ _ _ _ Ha). pose proof (holds_size_lt _ _ _ _ Hb).
  apply holds_inv in Ha as (p1 & _ & Hobj1 & _). apply holds_inv in Hb as (p2 & _ & Hobj2 & _).
  cbn in Hobj1, Hobj2. unfold op_eq, same_elements. rewrite decide_False by done.
  erewrite bind_Ret by (by apply GetSize_eq).
  erewrite bind_Ret by (by apply GetSize_eq). cbn [size_].
  destruct (N.eqb_spec (N.of_nat (length xs)) (N.of_nat (length ys))) as [Heq|Hneq]; cycle 1.
  { exists false. split; [done|]. split; [done | intros [? _]; lia]. }
  assert (length xs = length ys) as Hlen by lia.
  erewrite bind_Ret by apply Hb1. erewrite bind_Ret by apply He1.
  erewrite bind_Ret by apply Hb2. erewrite bind_Ret by apply He2.
  unfold std_equal.
  erewrite bind_Ret by apply Hd1. erewrite bind_Ret by apply Hd2.
  destruct (Z.ltb_spec (Z.of_nat (length xs)) 0); [lia|].
  destruct (Z.ltb_spec (Z.of_nat (length ys)) 0); [lia|]. cbn [orb].
  destruct (Z.eqb_spec (Z.of_nat (length xs)) (Z.of_nat (length ys))); [|lia].
  rewrite Nat2Z.id.
  destruct Hr1 as [-> | (a1 & blk1 & -> & Hblk1 & Hxs)].
  { exists true. split; [done|]. split; [|done]. intros _. split; [done|]. by intros ???. }
  destruct Hr2 as [-> | (a2 & blk2 & -> & Hblk2 & Hys)].
  { destruct xs; [|done]. exists true. split; [done|].
    split; [|done]. intros _. split; [done|]. by intros ???. }
  destruct (equal_loop_spec xs ys 0 0 a1 a2 (mkState o h) blk1 blk2) as (r & Hrun & Hr);
    [done..|].
  exists r. split; [done|]. rewrite Hr.
  split; [intros Hall; split; [done | apply Hall] | intros [_ Hall]; apply Hall].
Qed.

Lemma op_eq_self s a : op_eq a a s = Ret true s.
Proof. unfold op_eq. by rewrite decide_True. Qed.

Lemma op_lt_spec s a b xs ys ca cb :
  holds s a xs ca → holds s b ys cb →
  ∃ r, op_lt a b s = Ret r s ∧ (r = true ↔ lexicographically_less xs ys).
Proof.
  destruct s as [o h]. intros Ha Hb.
  destruct (range_spec _ _ _ _ _ Ha) as (b1 & e1 & Hb1 & He1 & Hd1 & Hr1).
  destruct (range_spec _ _ _ _ _ Hb) as (b2 & e2 & Hb2 & He2 & Hd2 & Hr2).
  unfold op_lt.
  erewrite bind_Ret by apply Hb1. erewrite bind_Ret by apply He1.
  erewrite bind_Ret by apply Hb2. erewrite bind_Ret by apply He2.
  unfold std_lexicographical_compare.
  erewrite bind_Ret by apply Hd1. erewrite bind_Ret by apply Hd2.
  destruct (Z.ltb_spec (Z.of_nat (length xs)) 0); [lia|].
  destruct (Z.ltb_spec (Z.of_nat (length ys)) 0); [lia|]. cbn [orb].
  rewrite !Nat2Z.id.
  destruct Hr2 as [-> | (a2 & blk2 & -> & Hblk2 & Hys)].
  { exists false. split; [by destruct (length xs)|]. split; [done|].
    intros Hlt. by apply lexicographically_less_nil_r in Hlt. }
  destruct Hr1 as [-> | (a1 & blk1 & -> & Hblk1 & Hxs)].
  { destruct ys as [|y ys]; [exists false | exists true]; (split; [done|]).
    - split; [done|]. intros Hlt. by apply lexicographically_less_nil_r in Hlt.
    - split; [|done]. intros _. apply lexicographically_less_nil_l. }
  by eapply lexicographical_loop_spec.
Qed.

Lemma holds_mono o h o' h' r xs c :
  holds (mkState o h) r xs c → o' !! r = o !! r →
  (∀ a blk, h !! a = Some blk → h' !! a = Some blk) →
  holds (mkState o' h') r xs c.
Proof.
  intros (v & blk & Hobj & Hbuf & Hrest) Ho Hh.
  exists v, blk. split; [cbn in *; congruence|]. split; [|apply Hrest].
  unfold buffer in *. destruct (raw_ptr_ (ptr_ v)) as [|a i]; [done|].
  destruct (i =? 0); [|done]. by apply Hh.
Qed.

Lemma copied_heap_keeps h xs a blk :
  h !! a = Some blk → copied_heap h xs !! a = Some blk.
Proof.
  intros Ha. unfold copied_heap. destruct xs; [done|].
  rewrite lookup_insert_ne; [done|]. by eapply fresh_heap_ne.
Qed.

Lemma fresh_obj o : o !! fresh (dom o) = None.
Proof. apply not_elem_of_dom, is_fresh. Qed.

(** The parameter object of [operator!=] is made and destroyed: the store
    is as it was. *)
Lemma SimpleVector_destroy_copied o h tmp xs :
  o !! tmp = None →
  SimpleVector_destroy tmp
    (mkState (<[tmp := mkSimpleVector (mkArrayPtr (copied_ptr h xs))
                         (N.of_nat (length xs)) (N.of_nat (length xs))]> o)
             (copied_heap h xs))
  = Ret () (mkState o h).
Proof.
  intros Htmp. unfold SimpleVector_destroy.
  erewrite bind_Ret by (apply get_obj_eq, lookup_insert_eq). cbn [ptr_].
  unfold ArrayPtr_destroy. cbn [raw_ptr_].
  destruct xs as [|x xs'].
  - erewrite bind_Ret by reflexivity. unfold del_obj. cbn.
    rewrite lookup_insert_eq, delete_insert_id by done. done.
  - erewrite bind_Ret; cycle 1.
    { cbn. rewrite lookup_insert_eq. reflexivity. }
    rewrite delete_insert_id by apply fresh_heap.
    unfold del_obj. cbn. rewrite lookup_insert_eq, delete_insert_id by done. done.
Qed.

Lemma op_ne_spec s a b xs ys ca cb :
  holds s a xs ca → holds s b ys cb →
  ∃ r, op_ne a b s = Ret (negb r) s ∧ (r = true ↔ same_elements xs ys).
Proof.
  destruct s as [o h]. intros Ha Hb.
  pose proof (holds_size_lt _ _ _ _ Hb) as Hlt.
  unfold op_ne. cbn [objs]. set (tmp := fresh (dom o)).
  assert (o !! tmp = None) as Htmp by apply fresh_obj.
  assert (a ≠ tmp) as Hne.
  { apply holds_inv in Ha as (? & ? & Hobj & _). cbn in Hobj. congruence. }
  erewrite bind_Ret by (by eapply SimpleVector_copy_eq).
  set (s1 := mkState _ _).
  destruct (op_eq_spec s1 a tmp xs ys ca (N.of_nat (length ys))) as (r & Hrun & Hr);
    [| | done |].
  { eapply holds_mono; [done | by apply lookup_insert_ne | apply copied_heap_keeps]. }
  { apply (holds_copied_ptr _ h); [done | apply lookup_insert_eq |].
    intros x xs' ->. apply lookup_insert_eq. }
  erewrite bind_Ret by apply Hrun.
  erewrite bind_Ret by (by apply SimpleVector_destroy_copied).
  by exists r.
Qed.

Lemma op_le_eq s a b r : op_lt b a s = Ret r s → op_le a b s = Ret (negb r) s.
Proof. intros H. unfold op_le. by erewrite bind_Ret. Qed.

Lemma op_gt_eq s a b r : op_le a b s = Ret r s → op_gt a b s = Ret (negb r) s.
Proof. intros H. unfold op_gt. by erewrite bind_Ret. Qed.

Lemma op_ge_eq s a b r : op_lt a b s = Ret r s → op_ge a b s = Ret (negb r) s.
Proof. intros H. unfold op_ge. by erewrite bind_Ret. Qed.

Lemma same_elements_refl xs :
  (∀ x, T_eq x x = true) → same_elements xs xs.
Proof. intros Hrefl. split; [done|]. intros i x y Hx Hy. simplify_eq. apply Hrefl. Qed.

Lemma same_elements_sym xs ys :
  (∀ x y, T_eq x y = T_eq y x) → same_elements xs ys → same_elements ys xs.
Proof.
  intros Hsym [Hlen Hall]. split; [done|]. intros i y x Hy Hx.
  rewrite Hsym. by apply (Hall i).
Qed.

(** ** Constructors, [Clear], [PopBack] and [swap] *)

Lemma fill_loop_spec this init : ∀ (i : nat) o h v a blk,
  o !! this = Some v → raw_ptr_ (ptr_ v) = Ptr a 0 → h !! a = Some blk →
  (i + length init ≤ length blk)%nat → N.of_nat (length blk) < SIZE_MOD →
  ∃ blk',
    fill_loop this (N.of_nat i) init (mkState o h) = Ret () (mkState o (<[a := blk']> h)) ∧
    length blk' = length blk ∧
    ∀ k, blk' !! k
         = if decide (i ≤ k < i + length init)%nat then init !! (k - i)%nat else blk !! k.
Proof.
  induction init as [|x init IH]; intros i o h v a blk Hobj Hp Ha Hi Hlt.
  - exists blk. split_and!; [|done|].
    + cbn. by rewrite insert_id.
    + intros k. cbn in *. case_decide; [lia | done].
  - cbn [length] in Hi.
    destruct (IH (S i) o (<[a := <[i := x]> blk]> h) v a (<[i := x]> blk))
      as (blk' & Hrun & Hlen & Hk);
      [done | done | apply lookup_insert_eq | by (rewrite length_insert; lia)
      | by rewrite length_insert |].
    exists blk'. split_and!.
    + cbn [fill_loop].
      erewrite bind_Ret by (by apply get_obj_eq).
      unfold ArrayPtr_index. rewrite Hp.
      erewrite bind_Ret by (apply (ptr_add_Ptr a 0)). cbn [Nat.add].
      erewrite bind_Ret by (eapply store_Ptr; [done | lia]).
      rewrite size_add_small by lia.
      replace (N.of_nat i + 1) with (N.of_nat (S i)) by lia.
      rewrite Hrun. by rewrite insert_insert_eq.
    + rewrite Hlen. by rewrite length_insert.
    + intros k. rewrite Hk. cbn [length].
      destruct (decide (k = i)) as [->|Hne].
      * rewrite list_lookup_insert_eq by lia.
        repeat case_decide; try lia. by replace (i - i)%nat with 0%nat by lia.
      * rewrite list_lookup_insert_ne by lia.
        repeat case_decide; try lia; [|done].
        replace (k - i)%nat with (S (k - S i)) by lia. done.
Qed.

(** The three constructors that allocate [n] elements and fill them. *)
Lemma constructed_spec o h this (n : nat) init fill :
  o !! this = None → N.of_nat n < SIZE_MOD → length init = n →
  (∀ o1 h1 v a blk,
     o1 !! this = Some v → raw_ptr_ (ptr_ v) = Ptr a 0 → h1 !! a = Some blk →
     blk = replicate n T_default →
     ∃ blk', fill (mkState o1 h1) = Ret () (mkState o1 (<[a := blk']> h1)) ∧
             length blk' = n ∧ lies_at blk' 0 init) →
  (n = 0%nat → ∀ s, fill s = Ret () s) →
  ∃ s',
    (new_obj this;;
     tmp ← ArrayPtr_new (N.of_nat n);
     tmp' ← swap_ptr_ this tmp;
     fill;;
     put_size_ this (N.of_nat n);;
     put_capacity_ this (N.of_nat n);;
     ArrayPtr_destroy tmp') (mkState o h) = Ret () s' ∧
    holds s' this init (N.of_nat n) ∧
    frame this (mkState o h) s'.
Proof.
  intros Hnew Hn Hinit Hfill Hfill0.
  erewrite bind_Ret by (unfold new_obj; cbn; by rewrite Hnew).
  destruct n as [|n'].
  - erewrite bind_Ret by reflexivity.
    erewrite bind_Ret by (apply swap_ptr_eq, lookup_insert_eq). cbn [ptr_ size_ capacity_].
    rewrite insert_insert_eq.
    erewrite bind_Ret by (by apply Hfill0).
    erewrite bind_Ret by (apply put_size_eq, lookup_insert_eq). cbn [ptr_ size_ capacity_].
    rewrite insert_insert_eq.
    erewrite bind_Ret by (apply put_capacity_eq, lookup_insert_eq). cbn [ptr_ size_ capacity_].
    rewrite insert_insert_eq.
    eexists. split; [reflexivity|]. destruct init; [|done]. split.
    + apply holds_null, lookup_insert_eq.
    + split_and!; cbn.
      * intros r Hr. by rewrite lookup_insert_ne.
      * done.
      * intros a. erewrite owned_eq by apply lookup_insert_eq. done.
  - set (n := S n') in *.
    erewrite bind_Ret by (apply ArrayPtr_new_eq; lia).
    set (t := fresh (dom h)). rewrite Nat2N.id.
    erewrite bind_Ret by (apply swap_ptr_eq, lookup_insert_eq). cbn [ptr_ size_ capacity_].
    rewrite insert_insert_eq.
    edestruct (Hfill (<[this := mkSimpleVector (mkArrayPtr (Ptr t 0)) 0 0]> o)
                 (<[t := replicate n T_default]> h)) as (blk' & Hrun & Hlen' & Hlies);
      [apply lookup_insert_eq | done | apply lookup_insert_eq | done |].
    erewrite bind_Ret by apply Hrun. rewrite insert_insert_eq.
    erewrite bind_Ret by (apply put_size_eq, lookup_insert_eq). cbn [ptr_ size_ capacity_].
    rewrite insert_insert_eq.
    erewrite bind_Ret by (apply put_capacity_eq, lookup_insert_eq). cbn [ptr_ size_ capacity_].
    rewrite insert_insert_eq.
    eexists. split; [reflexivity|]. split.
    + eapply holds_Ptr;
        [apply lookup_insert_eq | done | cbn; by rewrite Hinit | done
        | apply lookup_insert_eq | by rewrite Hlen' | done | done].
    + split_and!; cbn.
      * intros r Hr. by rewrite lookup_insert_ne.
      * intros a blk _ Ha. rewrite lookup_insert_ne; [done|]. by eapply fresh_heap_ne.
      * intros a. erewrite owned_eq by apply lookup_insert_eq. cbn.
        intros [= <-]. right. apply fresh_heap.
Qed.

Lemma SimpleVector_default_spec s this :
  objs s !! this = None →
  ∃ s', SimpleVector_default this s = Ret () s' ∧ holds s' this [] 0 ∧ frame this s s'.
Proof.
  destruct s as [o h]. cbn. intros Hnew. eexists. split.
  { unfold SimpleVector_default, new_obj. cbn. by rewrite Hnew. }
  split; [apply holds_null, lookup_insert_eq|]. split_and!; cbn.
  - intros r Hr. by rewrite lookup_insert_ne.
  - done.
  - intros a. erewrite owned_eq by apply lookup_insert_eq. done.
Qed.

Lemma SimpleVector_reserved_spec s this rpo :
  objs s !! this = None → capacity rpo < SIZE_MOD →
  ∃ s', SimpleVector_reserved this rpo s = Ret () s' ∧ holds s' this [] (capacity rpo).
Proof.
  intros Hnew Hc.
  destruct (SimpleVector_default_spec s this Hnew) as (s1 & Hrun1 & Hholds1 & _).
  destruct (Reserve_spec s1 this [] 0 (capacity rpo) Hholds1 Hc) as (s' & Hrun & Hholds & _).
  exists s'. split.
  - unfold SimpleVector_reserved. by erewrite bind_Ret by apply Hrun1.
  - by rewrite N.max_r in Hholds by lia.
Qed.

Lemma SimpleVector_sized_spec s this size :
  objs s !! this = None → size < SIZE_MOD →
  ∃ s', SimpleVector_sized this size s = Ret () s' ∧
        holds s' this (replicate (N.to_nat size) T_default) size ∧
        frame this s s'.
Proof.
  destruct s as [o h]. cbn. intros Hnew Hsize.
  assert (∃ n : nat, size = N.of_nat n) as [n ->] by (exists (N.to_nat size); lia).
  rewrite Nat2N.id.
  destruct (constructed_spec o h this n (replicate n T_default) (mret () : M T unit))
    as (s' & Hrun & Hrest); [done | lia | apply length_replicate | | done |].
  { intros o1 h1 v a blk Hobj Hp Ha ->. exists (replicate n T_default).
    split_and!; [by rewrite insert_id | apply length_replicate | by intros k x Hk]. }
  exists s'. split; [exact Hrun | exact Hrest].
Qed.

Lemma SimpleVector_filled_spec s this size value :
  objs s !! this = None → size < SIZE_MOD →
  ∃ s', SimpleVector_filled this size value s = Ret () s' ∧
        holds s' this (replicate (N.to_nat size) value) size ∧
        frame this s s'.
Proof.
  destruct s as [o h]. cbn. intros Hnew Hsize.
  assert (∃ n : nat, size = N.of_nat n) as [n ->] by (exists (N.to_nat size); lia).
  unfold SimpleVector_filled. rewrite Nat2N.id.
  apply (constructed_spec o h this n _ (fill_loop this 0 (replicate n value)));
    [done | lia | apply length_replicate | | by intros ->].
  intros o1 h1 v a blk Hobj Hp Ha ->.
  destruct (fill_loop_spec this (replicate n value) 0 o1 h1 v a
              (replicate n T_default)) as (blk' & Hrun & Hlen & Hk);
    [done | done | done | by rewrite !length_replicate
    | by (rewrite length_replicate; lia) |].
  exists blk'. split_and!; [done | by rewrite Hlen, length_replicate |].
  intros k x Hx. rewrite Hk. pose proof (lookup_lt_Some _ _ _ Hx).
  cbn. case_decide; [|lia]. by rewrite Nat.sub_0_r.
Qed.

Lemma SimpleVector_list_spec s this init :
  objs s !! this = None → N.of_nat (length init) < SIZE_MOD →
  ∃ s', SimpleVector_list this init s = Ret () s' ∧
        holds s' this init (N.of_nat (length init)) ∧
        frame this s s'.
Proof.
  destruct s as [o h]. cbn. intros Hnew Hsize.
  unfold SimpleVector_list. rewrite wrap_small by done.
  apply (constructed_spec o h this (length init) _ (fill_loop this 0 init));
    [done | lia | done | | ].
  - intros o1 h1 v a blk Hobj Hp Ha ->.
    destruct (fill_loop_spec this init 0 o1 h1 v a
                (replicate (length init) T_default)) as (blk' & Hrun & Hlen & Hk);
      [done | done | done | by rewrite length_replicate
      | by (rewrite length_replicate; lia) |].
    exists blk'. split_and!; [done | by rewrite Hlen, length_replicate |].
    intros k x Hx. rewrite Hk. pose proof (lookup_lt_Some _ _ _ Hx).
    cbn. case_decide; [|lia]. by rewrite Nat.sub_0_r.
  - intros Hlen s. by destruct init.
Qed.

Lemma Clear_spec s this xs c :
  holds s this xs c →
  ∃ s', Clear this s = Ret () s' ∧ holds s' this [] c ∧ frame this s s'.
Proof.
  destruct s as [o h].
  intros (v & blk & Hobj & Hbuf & Hn & Hc & Hlen & Hlt & Hle & Htake). cbn in Hobj.
  eexists. split; [by apply put_size_eq|]. split.
  - eexists _, blk. split_and!; [apply lookup_insert_eq | done..| cbn; lia | done].
  - by eapply frame_fields.
Qed.

Lemma PopBack_spec s this xs c :
  holds s this xs c → xs ≠ [] →
  ∃ s', PopBack this s = Ret () s' ∧
        holds s' this (take (length xs - 1) xs) c ∧ frame this s s'.
Proof.
  intros Hholds Hne. pose proof (holds_size_lt _ _ _ _ Hholds) as Hlt.
  assert (length xs ≠ 0)%nat as Hlen by (by destruct xs).
  destruct (Resize_spec s this xs c (N.of_nat (length xs) - 1) Hholds ltac:(lia))
    as (s' & Hrun & Hholds' & Hframe).
  exists s'. split_and!; [| | done].
  - destruct s as [o h]. apply holds_inv in Hholds as (p & blk & Hobj & _).
    cbn in Hobj. unfold PopBack.
    erewrite bind_Ret by (by apply get_obj_eq). cbn [size_].
    destruct (N.eqb_spec (N.of_nat (length xs)) 0); [lia|].
    erewrite bind_Ret by reflexivity.
    by rewrite size_sub_small by lia.
  - apply holds_inv in Hholds as (_ & blk & _ & Hblk & _ & Hle & _).
    replace (N.to_nat (N.of_nat (length xs) - 1)) with (length xs - 1)%nat in Hholds' by lia.
    replace (length xs - 1 - length xs)%nat with 0%nat in Hholds' by lia.
    cbn [replicate] in Hholds'. rewrite app_nil_r in Hholds'.
    by rewrite N.max_l in Hholds' by lia.
Qed.

Lemma swap_spec s a b xs ys ca cb :
  holds s a xs ca → holds s b ys cb → a ≠ b →
  ∃ s', swap a b s = Ret () s' ∧ holds s' a ys cb ∧ holds s' b xs ca.
Proof.
  destruct s as [o h].
  intros (va & blka & Hobja & Hbufa & Hresta) (vb & blkb & Hobjb & Hbufb & Hrestb) Hne.
  cbn in Hobja, Hobjb. destruct va as [[pa] na ca'], vb as [[pb] nb cb'].
  unfold swap.
  erewrite bind_Ret by (by apply get_obj_eq).
  erewrite bind_Ret by (by apply get_obj_eq). cbn [ArrayPtr_swap ptr_ raw_ptr_].
  erewrite bind_Ret by (by apply put_ptr_eq).
  erewrite bind_Ret by (apply put_ptr_eq; by rewrite lookup_insert_ne).
  cbn [ptr_ size_ capacity_].
  erewrite bind_Ret
    by (apply get_obj_eq; rewrite lookup_insert_ne, lookup_insert_eq by done; done).
  erewrite bind_Ret by (apply get_obj_eq, lookup_insert_eq).
  erewrite bind_Ret
    by (apply put_size_eq; rewrite lookup_insert_ne, lookup_insert_eq by done; done).
  erewrite bind_Ret
    by (apply put_size_eq; rewrite !lookup_insert_ne, lookup_insert_eq by done; done).
  cbn [ptr_ size_ capacity_].
  erewrite bind_Ret
    by (apply get_obj_eq; rewrite !lookup_insert_ne, lookup_insert_eq by done; done).
  erewrite bind_Ret by (apply get_obj_eq, lookup_insert_eq).
  erewrite bind_Ret
    by (apply put_capacity_eq; rewrite !lookup_insert_ne, lookup_insert_eq by done; done).
  erewrite put_capacity_eq
    by (rewrite !lookup_insert_ne, lookup_insert_eq by done; done).
  cbn [ptr_ size_ capacity_].
  eexists. split; [reflexivity|]. split.
  - eexists _, blkb. split; [|split; [|apply Hrestb]].
    + cbn. rewrite lookup_insert_ne, lookup_insert_eq by done. reflexivity.
    + done.
  - eexists _, blka. split; [|split; [|apply Hresta]].
    + cbn. rewrite lookup_insert_eq. reflexivity.
    + done.
Qed.

(** ** Claims about growth, [Resize] and [At] *)

Lemma holds_elements s r xs c : holds s r xs c → elements s r = Some xs.
Proof.
  intros (v & blk & Hobj & Hbuf & Hn & _ & _ & _ & Hle & Htake).
  unfold elements. rewrite Hobj. cbn. rewrite Hbuf. cbn.
  rewrite Hn, Nat2N.id. rewrite decide_True by done. by rewrite Htake.
Qed.

Lemma holds_GetSize s r xs c :
  holds s r xs c → GetSize r s = Ret (N.of_nat (length xs)) s.
Proof.
  destruct s as [o h]. intros (v & blk & Hobj & _ & Hn & _).
  rewrite <- Hn. by apply GetSize_eq.
Qed.

Lemma holds_GetCapacity s r xs c : holds s r xs c → GetCapacity r s = Ret c s.
Proof.
  destruct s as [o h]. intros (v & blk & Hobj & _ & _ & Hc & _).
  rewrite <- Hc. by apply GetCapacity_eq.
Qed.

Lemma holds_size_le_capacity s r xs c :
  holds s r xs c → ∃ v, objs s !! r = Some v ∧ size_le_capacity v = true.
Proof.
  intros (v & blk & Hobj & _ & Hn & Hc & Hlen & _ & Hle & _).
  exists v. split; [done|]. unfold size_le_capacity. apply N.leb_le. lia.
Qed.

(** *** Growth by [PushBack] *)

Lemma doubled_grown k c :
  doubled k c → doubled (k + 1) (grown_capacity k c).
Proof.
  unfold doubled, grown_capacity. rewrite (decide_False (P := k + 1 = 0)) by lia.
  case_decide as Hk.
  - intros ->. subst k. cbn. exists 0. cbn. lia.
  - intros (m & -> & Hle & Hlt). destruct (N.eqb_spec k (2 ^ m)) as [Heq|Hne].
    + exists (m + 1). rewrite N.pow_add_r. cbn. lia.
    + exists m. lia.
Qed.

Lemma doubled_least k c : k ≠ 0 → doubled k c → least_power_of_two_ge k c.
Proof.
  unfold doubled. intros Hk. rewrite decide_False by done.
  intros (m & -> & Hle & Hlt). split_and!; [by exists m | done |].
  intros j Hj. apply N.pow_le_mono_r; [lia|].
  assert (2 ^ m < 2 ^ (j + 1)) as Hpow by (rewrite N.pow_add_r; cbn; lia).
  apply N.pow_lt_mono_r_iff in Hpow; lia.
Qed.

Lemma PushBack_all_spec xs : ∀ s this ys c,
  holds s this ys c → doubled (N.of_nat (length ys)) c →
  N.of_nat (length ys + length xs) ≤ 2 ^ 63 →
  ∃ s' c', PushBack_all this xs s = Ret () s' ∧
           holds s' this (ys ++ xs) c' ∧
           doubled (N.of_nat (length (ys ++ xs))) c'.
Proof.
  induction xs as [|x xs IH]; intros s this ys c Hholds Hd Hk.
  - exists s, c. rewrite app_nil_r. done.
  - destruct (PushBack_spec s this ys c x Hholds) as (s1 & Hrun & Hholds1 & _).
    { intros Hfull. cbn in Hk.
      assert (c < 2 ^ 63) as Hlt by lia.
      change SIZE_MOD with (2 ^ 63 * 2). lia. }
    apply doubled_grown in Hd.
    replace (N.of_nat (length ys) + 1) with (N.of_nat (length (ys ++ [x]))) in Hd
      by (rewrite length_app; cbn; lia).
    destruct (IH s1 this (ys ++ [x]) _ Hholds1 Hd) as (s' & c' & Hrun' & Hholds' & Hd').
    { rewrite length_app. cbn in *. lia. }
    exists s', c'. rewrite <- app_assoc in Hholds', Hd'. split_and!; [|done..].
    cbn [PushBack_all]. by erewrite bind_Ret.
Qed.

(** C3: after [k >= 1] calls of [PushBack] on a default-constructed vector
    ([k] at most [2^63], so that the doubled capacity is a [size_t]), the size
    is [k], the elements are the pushed ones in order, and the capacity is at
    least [k] and is the smallest power of two that is at least [k]; each
    single [PushBack] on a well-formed vector leaves the capacity the growth
    policy gives: [max(1, capacity * 2)] when the vector was full, the old
    capacity otherwise. *)
Theorem PushBack_capacity_doubles s this xs :
  objs s !! this = None → xs ≠ [] → N.of_nat (length xs) ≤ 2 ^ 63 →
  (∃ s' c,
     (SimpleVector_default this;; PushBack_all this xs) s = Ret () s' ∧
     GetSize this s' = Ret (N.of_nat (length xs)) s' ∧
     GetCapacity this s' = Ret c s' ∧
     elements s' this = Some xs ∧
     N.of_nat (length xs) ≤ c ∧
     least_power_of_two_ge (N.of_nat (length xs)) c) ∧
  (∀ s0 ys c0 x,
     holds s0 this ys c0 → (N.of_nat (length ys) = c0 → c0 * 2 < SIZE_MOD) →
     ∃ s1, PushBack this x s0 = Ret () s1 ∧
           elements s1 this = Some (ys ++ [x]) ∧
           GetCapacity this s1
           = Ret (if N.of_nat (length ys) =? c0 then N.max 1 (c0 * 2) else c0) s1).
Proof.
  intros Hnew Hne Hk. split.
  - destruct s as [o h]. cbn in Hnew.
    destruct (PushBack_all_spec xs
                (mkState (<[this := mkSimpleVector (mkArrayPtr nullptr) 0 0]> o) h)
                this [] 0) as (s' & c & Hrun & Hholds & Hd).
    { apply holds_null, lookup_insert_eq. }
    { done. }
    { done. }
    cbn [app] in Hholds, Hd.
    exists s', c. split_and!.
    + erewrite bind_Ret; [apply Hrun|].
      unfold SimpleVector_default, new_obj. cbn. by rewrite Hnew.
    + by eapply holds_GetSize.
    + by eapply holds_GetCapacity.
    + by eapply holds_elements.
    + apply doubled_least in Hd as (_ & Hle & _); [done|]. destruct xs; [done | cbn; lia].
    + apply doubled_least; [|done]. destruct xs; [done | cbn; lia].
  - intros s0 ys c0 x Hholds Hfull.
    destruct (PushBack_spec s0 this ys c0 x Hholds Hfull) as (s1 & Hrun & Hholds1 & _).
    exists s1. split_and!; [done | by eapply holds_elements |].
    by eapply holds_GetCapacity.
Qed.

(** C4: [Resize(new_size)] sets the size to [new_size]; the capacity becomes
    exactly [new_size] when that exceeds it and stays otherwise; the elements
    are the old ones up to [new_size], followed by default values in the slots
    from the old size on. *)
Theorem Resize_sets_size_and_fills s this xs c new_size :
  holds s this xs c → new_size < SIZE_MOD →
  ∃ s',
    Resize this new_size s = Ret () s' ∧
    GetSize this s' = Ret new_size s' ∧
    GetCapacity this s' = Ret (if c <? new_size then new_size else c) s' ∧
    elements s' this
    = Some (take (N.to_nat new_size) xs
            ++ replicate (N.to_nat new_size - length xs) T_default) ∧
    ∃ v', objs s' !! this = Some v' ∧ size_le_capacity v' = true.
Proof.
  intros Hholds Hn.
  destruct (Resize_spec s this xs c new_size Hholds Hn) as (s' & Hrun & Hholds' & _).
  exists s'. split_and!; [done | | | by eapply holds_elements | by eapply holds_size_le_capacity].
  - erewrite holds_GetSize by done. do 2 f_equal.
    rewrite length_app, length_take, length_replicate. lia.
  - erewrite holds_GetCapacity by done. f_equal.
    destruct (N.ltb_spec c new_size); lia.
Qed.

(** C5: [At(i)] throws [out_of_range] exactly when [i >= size]; for
    [i < size] it returns the reference [operator[](i)] returns, which is the
    [i]-th element; the state is the same after either. *)
Theorem At_checks_the_index s this xs c i :
  holds s this xs c →
  ((∃ e s', At this i s = Throw e s') ↔ N.of_nat (length xs) ≤ i) ∧
  (N.of_nat (length xs) ≤ i →
     At this i s = Throw (out_of_range "Index >= size") s) ∧
  (i < N.of_nat (length xs) →
     ∃ p x, At this i s = Ret p s ∧ index this i s = Ret p s ∧
            load p s = Ret x s ∧ xs !! N.to_nat i = Some x).
Proof.
  destruct s as [o h].
  intros (p & blk & Hobj & Hlen & Hc & Hle & Hxs & Hp)%holds_inv. cbn in Hobj, Hp.
  assert (N.of_nat (length xs) ≤ i →
          At this i (mkState o h) = Throw (out_of_range "Index >= size") (mkState o h)) as Hthrow.
  { intros Hi. unfold At. erewrite bind_Ret by (by apply get_obj_eq). cbn [size_].
    by destruct (N.leb_spec (N.of_nat (length xs)) i); [|lia]. }
  assert (i < N.of_nat (length xs) →
     ∃ p x, At this i (mkState o h) = Ret p (mkState o h) ∧
            index this i (mkState o h) = Ret p (mkState o h) ∧
            load p (mkState o h) = Ret x (mkState o h) ∧ xs !! N.to_nat i = Some x) as Hret.
  { intros Hi. destruct Hp as [[-> ->] | (a & -> & Ha)]; [cbn in Hle; lia|].
    destruct (lookup_lt_is_Some_2 xs (N.to_nat i)) as [x Hx]; [lia|].
    exists (Ptr a i), x. split_and!; [| | | done].
    - unfold At. erewrite bind_Ret by (by apply get_obj_eq). cbn [size_ ptr_].
      by destruct (N.leb_spec (N.of_nat (length xs)) i); [lia|].
    - unfold index. erewrite bind_Ret by (by apply get_obj_eq). cbn [size_ ptr_].
      by destruct (N.ltb_spec i (N.of_nat (length xs))); [|lia].
    - rewrite <- (N2Nat.id i). eapply load_Ptr; [done|]. by apply (Hxs (N.to_nat i)). }
  split_and!; [|done..]. split; [|by eauto].
  intros (e & s' & Hat). destruct (N.le_gt_cases (N.of_nat (length xs)) i) as [|Hi]; [done|].
  destruct (Hret ltac:(lia)) as (p' & x & Hat' & _). congruence.
Qed.

(** ** Claims about [Insert], copies and [Release] *)

Lemma erase_inserted xs (p : nat) x :
  (p ≤ length xs)%nat →
  take p (take p xs ++ x :: drop p xs) ++ drop (S p) (take p xs ++ x :: drop p xs) = xs.
Proof.
  intros Hp.
  rewrite take_app_length' by (by rewrite length_take_le).
  rewrite cons_middle, app_assoc.
  rewrite drop_app_length' by (rewrite length_app, length_take_le by done; cbn; lia).
  apply take_drop.
Qed.

(** C6: for a position [p] in [[begin, end]], [Insert] of [x] at [p] puts [x]
    before the elements from [p] on and adds one to the size, and [Erase] at
    the iterator [Insert] returned, which is [begin() + p], gives back the
    sequence and the size there were. *)
Theorem Insert_then_Erase_restores s this xs c (p : nat) x pos :
  holds s this xs c → (N.of_nat (length xs) = c → c * 2 < SIZE_MOD) →
  (p ≤ length xs)%nat →
  position this (N.of_nat p) s = Ret pos s →
  ∃ s1 it s2,
    Insert this pos x s = Ret it s1 ∧
    position this (N.of_nat p) s1 = Ret it s1 ∧
    elements s1 this = Some (take p xs ++ x :: drop p xs) ∧
    GetSize this s1 = Ret (N.of_nat (length xs) + 1) s1 ∧
    Erase this it s1 = Ret it s2 ∧
    elements s2 this = Some xs ∧
    GetSize this s2 = Ret (N.of_nat (length xs)) s2.
Proof.
  intros Hholds Hfull Hp Hpos.
  destruct (Insert_spec s this xs c p x pos Hholds Hfull Hp Hpos)
    as (s1 & it & Hins & Hholds1 & Hpos1 & _).
  destruct (Erase_spec s1 this _ _ p it Hholds1) as (s2 & Hers & Hholds2 & _); [|done|].
  { rewrite length_app, length_take_le by done. cbn. lia. }
  rewrite erase_inserted in Hholds2 by done.
  exists s1, it, s2. split_and!; [done | done | by eapply holds_elements | | done
                                  | by eapply holds_elements | by eapply holds_GetSize].
  erewrite holds_GetSize by done. do 2 f_equal.
  rewrite length_app, length_take_le by done. cbn. rewrite length_drop. lia.
Qed.

(** C7: the copy constructor and copy assignment make a vector with the
    elements of the source and with capacity equal to its size, whatever the
    capacity of the source; the source keeps its elements and its capacity,
    also after a [PushBack] on the copy. *)
Theorem copy_is_exact_and_independent s a xs c x :
  holds s a xs c → N.of_nat (length xs) * 2 < SIZE_MOD →
  (∀ b, objs s !! b = None →
   ∃ s1 s2,
     SimpleVector_copy b a s = Ret () s1 ∧
     elements s1 b = Some xs ∧
     GetSize b s1 = Ret (N.of_nat (length xs)) s1 ∧
     GetCapacity b s1 = Ret (N.of_nat (length xs)) s1 ∧
     PushBack b x s1 = Ret () s2 ∧
     elements s2 b = Some (xs ++ [x]) ∧
     elements s2 a = Some xs ∧
     GetSize a s2 = Ret (N.of_nat (length xs)) s2 ∧
     GetCapacity a s2 = Ret c s2) ∧
  (∀ b ys cb, holds s b ys cb → separate s b a →
   ∃ s1 s2,
     assign_copy b a s = Ret () s1 ∧
     elements s1 b = Some xs ∧
     GetSize b s1 = Ret (N.of_nat (length xs)) s1 ∧
     GetCapacity b s1 = Ret (N.of_nat (length xs)) s1 ∧
     PushBack b x s1 = Ret () s2 ∧
     elements s2 b = Some (xs ++ [x]) ∧
     elements s2 a = Some xs ∧
     GetSize a s2 = Ret (N.of_nat (length xs)) s2 ∧
     GetCapacity a s2 = Ret c s2).
Proof.
  intros Ha Hsize.
  assert (∀ b s1, holds s1 b xs (N.of_nat (length xs)) → holds s1 a xs c → separate s1 b a →
          ∃ s2, elements s1 b = Some xs ∧
                GetSize b s1 = Ret (N.of_nat (length xs)) s1 ∧
                GetCapacity b s1 = Ret (N.of_nat (length xs)) s1 ∧
                PushBack b x s1 = Ret () s2 ∧
                elements s2 b = Some (xs ++ [x]) ∧
                elements s2 a = Some xs ∧
                GetSize a s2 = Ret (N.of_nat (length xs)) s2 ∧
                GetCapacity a s2 = Ret c s2) as Hthen.
  { intros b s1 Hb1 Ha1 Hsep.
    destruct (PushBack_spec s1 b xs _ x Hb1) as (s2 & Hpush & Hb2 & Hframe); [done|].
    pose proof (holds_frame _ _ _ _ _ _ Hframe Hsep Ha1) as Ha2.
    exists s2. split_and!;
      eauto using holds_elements, holds_GetSize, holds_GetCapacity. }
  split.
  - intros b Hnew.
    destruct (SimpleVector_copy_spec s b a xs c Ha Hnew) as (s1 & Hrun & Hb1 & Ha1 & Hsep).
    destruct (Hthen b s1 Hb1 Ha1 Hsep) as (s2 & H).
    exists s1, s2. by split.
  - intros b ys cb Hb Hsep.
    destruct (assign_copy_spec s b a xs c ys cb Ha Hb (or_intror Hsep))
      as (s1 & Hrun & Hb1 & Hrest).
    destruct Hrest as [Ha1 Hsep1]; [by destruct Hsep|].
    destruct (Hthen b s1 Hb1 Ha1 Hsep1) as (s2 & H).
    exists s1, s2. by split.
Qed.

(** C8: [Release()] returns the raw pointer and leaves the [ArrayPtr] empty,
    with the heap as it was; the destructor of the released [ArrayPtr] then
    does nothing.  When the pointer was a live allocation, it is live after
    both, the caller's [delete[]] frees it, and a second one would fault. *)
Theorem Release_disarms_the_destructor s (p : ArrayPtr) :
  ∃ p',
    ArrayPtr_Release p s = Ret (raw_ptr_ p, p') s ∧
    ArrayPtr_Get p' = nullptr ∧ ArrayPtr_bool p' = false ∧
    ArrayPtr_destroy p' s = Ret () s ∧
    ∀ a blk, raw_ptr_ p = Ptr a 0 → heap s !! a = Some blk →
      ∃ s', delete_array (raw_ptr_ p) s = Ret () s' ∧
            heap s' !! a = None ∧
            ArrayPtr_destroy p' s' = Ret () s' ∧
            delete_array (raw_ptr_ p) s' = Fault.
Proof.
  exists (mkArrayPtr nullptr). split_and!; [done..|].
  intros a blk Hp Ha. rewrite Hp.
  exists (mkState (objs s) (delete a (heap s))). split_and!.
  - cbn. by rewrite Ha.
  - apply lookup_delete_eq.
  - done.
  - cbn. by rewrite lookup_delete_eq.
Qed.

(** C10: the copy assignment of a vector to itself keeps its elements and
    its size, and leaves the capacity equal to the size. *)
Theorem self_assignment_keeps_elements s v xs c :
  holds s v xs c →
  ∃ s',
    assign_copy v v s = Ret () s' ∧
    elements s' v = Some xs ∧
    GetSize v s' = Ret (N.of_nat (length xs)) s' ∧
    GetCapacity v s' = Ret (N.of_nat (length xs)) s'.
Proof.
  intros Hholds.
  destruct (assign_copy_spec s v v xs c xs c Hholds Hholds (or_introl eq_refl))
    as (s' & Hrun & Hholds' & _).
  exists s'. split_and!;
    eauto using holds_elements, holds_GetSize, holds_GetCapacity.
Qed.

(** ** Claims about comparison and moves *)

Lemma bool_iff_eq (b1 b2 : bool) (P : Prop) :
  (b1 = true ↔ P) → (b2 = true ↔ P) → b1 = b2.
Proof. destruct b1, b2; intuition congruence. Qed.

Lemma holds_unique s r xs ys c c' : holds s r xs c → holds s r ys c' → xs = ys.
Proof. intros H1%holds_elements H2%holds_elements. congruence. Qed.

(** The move constructor and move assignment, on two different objects: the
    destination takes the pointer and the size of the source, and its
    capacity is read from the size field of the source after that field was
    set to zero; the capacity field of the source is not written. *)
Lemma move_body_eq o h this sv v w :
  this ≠ sv → o !! this = Some v → o !! sv = Some w →
  move_body this sv (mkState o h)
  = Ret () (mkState
      (<[this := mkSimpleVector (ptr_ w) (size_ w) 0]>
         (<[sv := mkSimpleVector (ptr_ v) 0 (capacity_ w)]> o)) h).
Proof.
  intros Hne Hv Hw. unfold move_body, swap_ptrs_, exchange_size_.
  destruct v as [[pv] nv cv], w as [[pw] nw cw].
  erewrite bind_Ret; cycle 1.
  { erewrite bind_Ret by (by apply get_obj_eq).
    erewrite bind_Ret by (by apply get_obj_eq). cbn.
    erewrite bind_Ret by (by apply put_ptr_eq).
    apply put_ptr_eq. by rewrite lookup_insert_ne. }
  cbn [ptr_ size_ capacity_ raw_ptr_].
  erewrite bind_Ret; cycle 1.
  { erewrite bind_Ret by (apply GetSize_eq, lookup_insert_eq).
    erewrite bind_Ret by (apply put_size_eq, lookup_insert_eq). reflexivity. }
  cbn [ptr_ size_ capacity_]. rewrite insert_insert_eq.
  erewrite bind_Ret
    by (apply put_size_eq; rewrite lookup_insert_ne, lookup_insert_eq by done; done).
  cbn [ptr_ size_ capacity_].
  erewrite bind_Ret; cycle 1.
  { erewrite bind_Ret
      by (apply GetSize_eq; rewrite lookup_insert_ne, lookup_insert_eq by done; done).
    erewrite bind_Ret
      by (apply put_size_eq; rewrite lookup_insert_ne, lookup_insert_eq by done; done).
    reflexivity. }
  cbn [ptr_ size_ capacity_].
  erewrite put_capacity_eq
    by (rewrite lookup_insert_ne, lookup_insert_eq by done; done).
  cbn [ptr_ size_ capacity_]. do 2 f_equal.
  apply map_eq. intros i.
  destruct (decide (i = this)) as [->|]; [by rewrite !lookup_insert_eq|].
  rewrite !(lookup_insert_ne _ this i) by done.
  destruct (decide (i = sv)) as [->|]; [by rewrite !lookup_insert_eq|].
  by rewrite !lookup_insert_ne by done.
Qed.

(** The move constructor on a well-formed source, in general: the elements
    and the size go to the new vector, its capacity is 0, and the source
    keeps its capacity. *)
Lemma SimpleVector_move_spec s a b xs c :
  holds s a xs c → objs s !! b = None →
  ∃ s', SimpleVector_move b a s = Ret () s' ∧
        elements s' b = Some xs ∧
        GetSize b s' = Ret (N.of_nat (length xs)) s' ∧
        GetCapacity b s' = Ret 0 s' ∧
        GetSize a s' = Ret 0 s' ∧
        GetCapacity a s' = Ret c s'.
Proof.
  destruct s as [o h]. cbn. intros Ha Hb.
  destruct Ha as (v & blk & Hobj & Hbuf & Hn & Hc & Hlen & Hlt & Hle & Htake).
  cbn in Hobj. assert (b ≠ a) as Hne by congruence.
  eexists. split.
  { unfold SimpleVector_move.
    erewrite bind_Ret by (unfold new_obj; cbn; by rewrite Hb).
    apply move_body_eq; [done | apply lookup_insert_eq | by rewrite lookup_insert_ne]. }
  cbn [ptr_ size_ capacity_]. split_and!.
  - unfold elements. cbn [objs]. rewrite lookup_insert_eq. cbn [mbind option_bind ptr_ size_].
    change (buffer _ (ptr_ v)) with (buffer (mkState o h) (ptr_ v)). rewrite Hbuf.
    cbn [mbind option_bind]. rewrite Hn, Nat2N.id, decide_True by done. by rewrite Htake.
  - erewrite GetSize_eq by apply lookup_insert_eq. cbn. by rewrite Hn.
  - by erewrite GetCapacity_eq by apply lookup_insert_eq.
  - by erewrite GetSize_eq
      by (rewrite lookup_insert_ne, lookup_insert_eq by done; done).
  - erewrite GetCapacity_eq
      by (rewrite lookup_insert_ne, lookup_insert_eq by done; done).
    cbn. by rewrite Hc.
Qed.

(** C9, as the code has it.  For every element type: [a < b] holds exactly
    when the elements of [a] are lexicographically less than those of [b],
    [a <= b] is [!(b < a)], [a > b] is [!(a <= b)], [a >= b] is [!(a < b)],
    and [a == a] holds for one and the same object, without a scan.  For two
    different objects, [a == b] holds exactly when the two vectors have the
    same size and equal elements at every index, [b == a] likewise with the
    elements compared the other way round, and [a != b] is [!(a == b)].
    With an element [operator==] that is reflexive, [a == b] holds exactly
    when the elements are equal and [a != b] is [!(a == b)] for one and the
    same object as well; with one that is symmetric, [b == a] is [a == b].
    None of the operators changes the state.  And [{1,2,3} == {1,2,3}],
    [{1,2,3} != {1,2}], [{1,2,3} < {1,2,4}], [{1,2} < {1,2,3}]. *)
Theorem comparison_operators s a b xs ys ca cb :
  holds s a xs ca → holds s b ys cb →
  (∃ lt gt : bool,
     op_eq a a s = Ret true s ∧
     op_lt a b s = Ret lt s ∧ (lt = true ↔ lexicographically_less xs ys) ∧
     op_lt b a s = Ret gt s ∧
     op_le a b s = Ret (negb gt) s ∧
     op_gt a b s = Ret (negb (negb gt)) s ∧
     op_ge a b s = Ret (negb lt) s) ∧
  (a ≠ b →
   ∃ eq eq' : bool,
     op_eq a b s = Ret eq s ∧ (eq = true ↔ same_elements xs ys) ∧
     op_eq b a s = Ret eq' s ∧ (eq' = true ↔ same_elements ys xs) ∧
     op_ne a b s = Ret (negb eq) s) ∧
  ((∀ x, T_eq x x = true) →
   ∃ eq : bool,
     op_eq a b s = Ret eq s ∧ (eq = true ↔ same_elements xs ys) ∧
     op_ne a b s = Ret (negb eq) s) ∧
  ((∀ x y, T_eq x y = T_eq y x) →
   ∃ eq : bool, op_eq a b s = Ret eq s ∧ op_eq b a s = Ret eq s) ∧
  value_of ((SimpleVector_list 1 [1; 2; 3]%Z;; SimpleVector_list 2 [1; 2; 3]%Z;;
             op_eq 1 2) empty_state) = Some true ∧
  value_of ((SimpleVector_list 1 [1; 2; 3]%Z;; SimpleVector_list 2 [1; 2]%Z;;
             op_ne 1 2) empty_state) = Some true ∧
  value_of ((SimpleVector_list 1 [1; 2; 3]%Z;; SimpleVector_list 2 [1; 2]%Z;;
             op_eq 1 2) empty_state) = Some false ∧
  value_of ((SimpleVector_list 1 [1; 2; 3]%Z;; SimpleVector_list 2 [1; 2; 4]%Z;;
             op_lt 1 2) empty_state) = Some true ∧
  value_of ((SimpleVector_list 1 [1; 2]%Z;; SimpleVector_list 2 [1; 2; 3]%Z;;
             op_lt 1 2) empty_state) = Some true.
Proof.
  intros Ha Hb.
  destruct (op_lt_spec s a b xs ys ca cb Ha Hb) as (lt & Hlt & Hlt_iff).
  destruct (op_lt_spec s b a ys xs cb ca Hb Ha) as (gt & Hgt & _).
  destruct (op_ne_spec s a b xs ys ca cb Ha Hb) as (ne & Hne & Hne_iff).
  split; [|split; [|split; [|split; [|by vm_compute]]]].
  - exists lt, gt. split_and!; [apply op_eq_self | done | done | done | ..].
    + by apply op_le_eq.
    + by apply op_gt_eq, op_le_eq.
    + by apply op_ge_eq.
  - intros Hab.
    destruct (op_eq_spec s a b xs ys ca cb Ha Hb Hab) as (eq & Heq & Heq_iff).
    destruct (op_eq_spec s b a ys xs cb ca Hb Ha ltac:(done)) as (eq' & Heq' & Heq'_iff).
    exists eq, eq'. split_and!; [done..|].
    by rewrite <- (bool_iff_eq ne eq _ Hne_iff Heq_iff).
  - intros Hrefl. destruct (decide (a = b)) as [Heq|Hab].
    + subst b. pose proof (holds_unique _ _ _ _ _ _ Ha Hb) as Hxs. subst ys.
      pose proof (same_elements_refl xs Hrefl) as Hsame.
      exists true. split_and!; [apply op_eq_self | done |].
      by rewrite <- (proj2 Hne_iff Hsame).
    + destruct (op_eq_spec s a b xs ys ca cb Ha Hb Hab) as (eq & Heq & Heq_iff).
      exists eq. split_and!; [done..|].
      by rewrite <- (bool_iff_eq ne eq _ Hne_iff Heq_iff).
  - intros Hsym. destruct (decide (a = b)) as [Heq|Hab].
    + subst b. exists true. split; apply op_eq_self.
    + destruct (op_eq_spec s a b xs ys ca cb Ha Hb Hab) as (eq & Heq & Heq_iff).
      destruct (op_eq_spec s b a ys xs cb ca Hb Ha ltac:(done)) as (eq' & Heq' & Heq'_iff).
      exists eq. split; [done|].
      rewrite Heq'. do 2 f_equal. apply (bool_iff_eq _ _ (same_elements xs ys)); [|done].
      rewrite Heq'_iff. split; by apply same_elements_sym.
Qed.

(** C1 at [a = {1,2,3}]: after [b = std::move(a)], by the constructor or by
    assignment to an empty [b], [b] has the three elements and size 3 but
    capacity 0, and [a] has size 0 but still capacity 3. *)
Theorem move_leaves_the_capacity_behind :
  value_of ((SimpleVector_list 1 [1; 2; 3]%Z;;
             SimpleVector_move 2 1;;
             size_b ← GetSize 2; capacity_b ← GetCapacity 2;
             size_a ← GetSize 1; capacity_a ← GetCapacity 1;
             elements_b ← read_elements 2;
             mret (elements_b, size_b, capacity_b, size_a, capacity_a))
              empty_state)
  = Some (Some [1; 2; 3]%Z, 3, 0, 0, 3) ∧
  value_of ((SimpleVector_list 1 [1; 2; 3]%Z;;
             SimpleVector_default 2;;
             assign_move 2 1;;
             size_b ← GetSize 2; capacity_b ← GetCapacity 2;
             size_a ← GetSize 1; capacity_a ← GetCapacity 1;
             elements_b ← read_elements 2;
             mret (elements_b, size_b, capacity_b, size_a, capacity_a))
              empty_state)
  = Some (Some [1; 2; 3]%Z, 3, 0, 0, 3).
Proof. by vm_compute. Qed.

(** C2 at [a = {1,2,3}]: the vector move-constructed from [a] is reached by
    public operations and has size 3 above capacity 0; the next [PushBack] on
    it does not grow the array and writes past its end. *)
Theorem move_breaks_size_le_capacity :
  value_of ((SimpleVector_list 1 [1; 2; 3]%Z;;
             SimpleVector_move 2 1;;
             b ← get_obj 2;
             mret (size_ b, capacity_ b, size_le_capacity b)) empty_state)
  = Some (3, 0, false) ∧
  (SimpleVector_list 1 [1; 2; 3]%Z;;
   SimpleVector_move 2 1;;
   PushBack 2 4%Z) empty_state = Fault.
Proof. by vm_compute. Qed.

End Proofs.

(** * The theorems at [SimpleVector<int>] *)

Lemma PushBack_capacity_doubles_witness :
  ∃ s' c,
    (SimpleVector_default 1;; PushBack_all 1 [7; 8; 9]%Z) empty_state = Ret () s' ∧
    GetSize 1 s' = Ret 3 s' ∧
    GetCapacity 1 s' = Ret c s' ∧
    elements s' 1 = Some [7; 8; 9]%Z ∧
    3 ≤ c ∧
    least_power_of_two_ge 3 c.
Proof.
  refine (proj1 (PushBack_capacity_doubles empty_state 1 [7; 8; 9]%Z _ _ _)).
  - reflexivity.
  - discriminate.
  - vm_compute. discriminate.
Defined.

Lemma Resize_sets_size_and_fills_witness :
  ∃ s',
    Resize 1 6 sample_state = Ret () s' ∧
    GetSize 1 s' = Ret 6 s' ∧
    GetCapacity 1 s' = Ret 6 s' ∧
    elements s' 1 = Some [1; 2; 3; 0; 0; 0]%Z ∧
    ∃ v', objs s' !! 1%positive = Some v' ∧ size_le_capacity v' = true.
Proof.
  refine (Resize_sets_size_and_fills sample_state 1 [1; 2; 3]%Z 4 6 _ _).
  - holds_by_evaluation.
  - reflexivity.
Defined.

Lemma At_checks_the_index_witness :
  ((∃ e s', At 1 1 sample_state = Throw e s') ↔ 3 ≤ 1) ∧
  (3 ≤ 1 → At 1 1 sample_state = Throw (out_of_range "Index >= size") sample_state) ∧
  (1 < 3 →
     ∃ p x, At 1 1 sample_state = Ret p sample_state ∧
            index 1 1 sample_state = Ret p sample_state ∧
            load p sample_state = Ret x sample_state ∧
            [1; 2; 3]%Z !! 1%nat = Some x).
Proof.
  refine (At_checks_the_index sample_state 1 [1; 2; 3]%Z 4 1 _).
  holds_by_evaluation.
Defined.

Lemma Insert_then_Erase_restores_witness :
  ∃ s1 it s2,
    Insert 1 (Ptr 1 1) 9%Z sample_state = Ret it s1 ∧
    position 1 1 s1 = Ret it s1 ∧
    elements s1 1 = Some [1; 9; 2; 3]%Z ∧
    GetSize 1 s1 = Ret 4 s1 ∧
    Erase 1 it s1 = Ret it s2 ∧
    elements s2 1 = Some [1; 2; 3]%Z ∧
    GetSize 1 s2 = Ret 3 s2.
Proof.
  refine (Insert_then_Erase_restores sample_state 1 [1; 2; 3]%Z 4 1 9%Z (Ptr 1 1) _ _ _ _).
  - holds_by_evaluation.
  - discriminate.
  - simpl. lia.
  - reflexivity.
Defined.

Lemma copy_is_exact_and_independent_witness :
  (∃ s1 s2,
     SimpleVector_copy 3 1 sample_state = Ret () s1 ∧
     elements s1 3 = Some [1; 2; 3]%Z ∧
     GetSize 3 s1 = Ret 3 s1 ∧
     GetCapacity 3 s1 = Ret 3 s1 ∧
     PushBack 3 4%Z s1 = Ret () s2 ∧
     elements s2 3 = Some [1; 2; 3; 4]%Z ∧
     elements s2 1 = Some [1; 2; 3]%Z ∧
     GetSize 1 s2 = Ret 3 s2 ∧
     GetCapacity 1 s2 = Ret 4 s2) ∧
  (∃ s1 s2,
     assign_copy 2 1 sample_state = Ret () s1 ∧
     elements s1 2 = Some [1; 2; 3]%Z ∧
     GetSize 2 s1 = Ret 3 s1 ∧
     GetCapacity 2 s1 = Ret 3 s1 ∧
     PushBack 2 4%Z s1 = Ret () s2 ∧
     elements s2 2 = Some [1; 2; 3; 4]%Z ∧
     elements s2 1 = Some [1; 2; 3]%Z ∧
     GetSize 1 s2 = Ret 3 s2 ∧
     GetCapacity 1 s2 = Ret 4 s2).
Proof.
  assert (holds sample_state 1 [1; 2; 3]%Z 4) as Ha by holds_by_evaluation.
  assert (N.of_nat (length [1; 2; 3]%Z) * 2 < SIZE_MOD) as Hsize by reflexivity.
  destruct (copy_is_exact_and_independent sample_state 1 [1; 2; 3]%Z 4 4%Z Ha Hsize)
    as [Hctor Hassign].
  split.
  - apply (Hctor 3%positive). reflexivity.
  - apply (Hassign 2%positive [5]%Z 1).
    + holds_by_evaluation.
    + split; [discriminate|]. vm_compute. intros a [= <-]. discriminate.
Defined.

Lemma Release_disarms_the_destructor_witness :
  ∃ p',
    ArrayPtr_Release (mkArrayPtr (Ptr 1 0)) sample_state
    = Ret (Ptr 1 0, p') sample_state ∧
    ArrayPtr_Get p' = nullptr ∧ ArrayPtr_bool p' = false ∧
    ArrayPtr_destroy p' sample_state = Ret () sample_state ∧
    ∃ s', delete_array (Ptr 1 0) sample_state = Ret () s' ∧
          heap s' !! 1%positive = None ∧
          ArrayPtr_destroy p' s' = Ret () s' ∧
          delete_array (Ptr 1 0) s' = Fault.
Proof.
  destruct (Release_disarms_the_destructor sample_state (mkArrayPtr (Ptr 1 0)))
    as (p' & Hrel & Hget & Hbool & Hdestroy & Hlive).
  exists p'. split_and!; [done..|].
  apply (Hlive 1%positive [1; 2; 3; 0]%Z); reflexivity.
Defined.

Lemma comparison_operators_witness :
  ∃ eq lt gt : bool,
    op_eq 1 2 sample_state = Ret eq sample_state ∧
    (eq = true ↔ same_elements [1; 2; 3]%Z [5]%Z) ∧
    op_eq 1 1 sample_state = Ret true sample_state ∧
    op_eq 2 1 sample_state = Ret eq sample_state ∧
    op_lt 1 2 sample_state = Ret lt sample_state ∧
    (lt = true ↔ lexicographically_less [1; 2; 3]%Z [5]%Z) ∧
    op_lt 2 1 sample_state = Ret gt sample_state ∧
    op_ne 1 2 sample_state = Ret (negb eq) sample_state ∧
    op_le 1 2 sample_state = Ret (negb gt) sample_state ∧
    op_gt 1 2 sample_state = Ret (negb (negb gt)) sample_state ∧
    op_ge 1 2 sample_state = Ret (negb lt) sample_state.
Proof.
  destruct (comparison_operators sample_state 1 2 [1; 2; 3]%Z [5]%Z 4 1)
    as ((lt & gt & Hself & Hlt & Hlt_iff & Hgt & Hle & Hgt' & Hge)
        & Hdistinct & Hrefl & Hsym & _).
  - holds_by_evaluation.
  - holds_by_evaluation.
  - destruct Hdistinct as (eq & eq' & Heq & Heq_iff & Heq' & _ & Hne); [discriminate|].
    destruct (Hrefl Z.eqb_refl) as (eq1 & Heq1 & Heq1_iff & Hne1).
    destruct (Hsym Z.eqb_sym) as (eq2 & Heq2 & Heq2').
    assert (eq1 = eq) as -> by congruence.
    assert (eq2 = eq) as -> by congruence.
    exists eq, lt, gt. split_and!; done.
Defined.

(** C9 as the specification words it fails where the element [operator==]
    is not reflexive or not symmetric.  For [a = {NaN}]: [a == a] holds, by
    the test [&lhs == &rhs], though the element of [a] is not equal to
    itself; and [a != a] holds as well, since [operator!=] takes its right
    operand by value and compares [a] with a copy, so that [a != a] is not
    [!(a == a)].  For [a = {Any}] and [b = {Lit 1}]: [a == b] holds and
    [b == a] does not. *)
Lemma comparison_operators_counterexample :
  value_of ((SimpleVector_list 1 [NaN];; op_eq 1 1) (mkState ∅ ∅)) = Some true ∧
  ¬ same_elements [NaN] [NaN] ∧
  value_of ((SimpleVector_list 1 [NaN];; op_ne 1 1) (mkState ∅ ∅)) = Some true ∧
  value_of ((SimpleVector_list 1 [Any];; SimpleVector_list 2 [Lit 1];; op_eq 1 2)
              (mkState ∅ ∅)) = Some true ∧
  value_of ((SimpleVector_list 1 [Any];; SimpleVector_list 2 [Lit 1];; op_eq 2 1)
              (mkState ∅ ∅)) = Some false.
Proof.
  split_and!; try by vm_compute.
  intros [_ Hall]. by specialize (Hall 0%nat NaN NaN eq_refl eq_refl).
Qed.

Lemma self_assignment_keeps_elements_witness :
  ∃ s',
    assign_copy 1 1 sample_state = Ret () s' ∧
    elements s' 1 = Some [1; 2; 3]%Z ∧
    GetSize 1 s' = Ret 3 s' ∧
    GetCapacity 1 s' = Ret 3 s'.
Proof.
  refine (self_assignment_keeps_elements sample_state 1 [1; 2; 3]%Z 4 _).
  holds_by_evaluation.
Defined.

(** * More of the code: constructors, [Reserve], [swap], destructors, order *)

Section Coverage.

Context {T : Type} `{!Element T}.
Implicit Types (s : state T) (o : gmap ref SimpleVector) (h : gmap addr (list T)).
Implicit Types (blk src dst xs ys : list T) (x y : T).

(** [Reserve] beyond the capacity, with the store it leaves. *)
Lemma Reserve_grow_eq o h this xs c n p :
  holds (mkState o h) this xs c → c < n → n < SIZE_MOD →
  o !! this = Some (mkSimpleVector (mkArrayPtr p) (N.of_nat (length xs)) c) →
  ∃ blk',
    Reserve this n (mkState o h)
    = Ret () (mkState
        (<[this := mkSimpleVector (mkArrayPtr (Ptr (fresh (dom h)) 0))
                     (N.of_nat (length xs)) n]> o)
        (freed p (<[fresh (dom h) := blk']> h))) ∧
    length blk' = N.to_nat n ∧ lies_at blk' 0 xs.
Proof.
  intros Hholds Hcn Hn Hobj'.
  pose proof Hholds as (p' & blk & Hobj & Hlen & Hc & Hle & Htake & Hp)%holds_inv.
  cbn in Hobj, Hp. assert (p' = p) as -> by congruence. unfold Reserve.
  erewrite bind_Ret by (by apply get_obj_eq). cbn [capacity_].
  destruct (N.ltb_spec c n) as [_|?]; [|lia].
  erewrite bind_Ret by (apply ArrayPtr_new_eq; lia).
  set (t := fresh (dom h)). set (dst := replicate (N.to_nat n) T_default).
  assert (h !! t = None) as Ht by apply fresh_heap.
  assert (length dst = N.to_nat n) as Hdst by apply length_replicate.
  erewrite bind_Ret by (by apply begin_eq). cbn [ptr_ raw_ptr_ ArrayPtr_Get].
  destruct Hp as [[-> ->] | (a & -> & Ha)].
  - erewrite bind_Ret by (by eapply end_eq_null).
    erewrite bind_Ret by reflexivity.
    erewrite bind_Ret by (by apply swap_ptr_eq).
    erewrite bind_Ret by (apply put_capacity_eq, lookup_insert_eq).
    cbn. rewrite insert_insert_eq. exists dst. split_and!; [done | done |].
    destruct xs; [|cbn in Hle; lia]. by intros k x Hk.
  - assert (t ≠ a) as Hta by (eapply fresh_heap_ne; eauto).
    erewrite bind_Ret by (by eapply (end_eq_Ptr _ _ _ _ _ (length xs))).
    destruct (copy_loop_spec (length xs) 0 0 a t o (<[t := dst]> h) blk dst)
      as (dst' & Hrun & Hlen' & Hk);
      [by rewrite lookup_insert_ne | apply lookup_insert_eq | by left | lia | lia |].
    erewrite bind_Ret by (apply (std_copy_eq a 0 (length xs)), Hrun).
    rewrite insert_insert_eq.
    erewrite bind_Ret by (by apply swap_ptr_eq).
    erewrite bind_Ret by (apply put_capacity_eq, lookup_insert_eq).
    cbn [ptr_ size_ capacity_]. rewrite insert_insert_eq.
    unfold ArrayPtr_destroy. cbn. rewrite lookup_insert_ne, Ha by done.
    exists dst'. split_and!; [done | lia |].
    intros k x Hx. rewrite Hk. cbn.
    pose proof (lookup_lt_Some _ _ _ Hx).
    case_decide; [|lia]. apply Htake in Hx. rewrite <- Hx. f_equal. lia.
Qed.

(** X1: [Reserve(n)] with [n] at most the capacity changes nothing at all;
    with [n] above it, the vector keeps its elements and size, its capacity
    is exactly [n], the array it owned is freed and the one it owns is new,
    so that the number of live arrays grows only for a vector that owned
    none; a vector that shares no array with it is untouched. *)
Theorem Reserve_reallocates_once s this xs c n :
  holds s this xs c → n < SIZE_MOD →
  (n ≤ c → Reserve this n s = Ret () s) ∧
  (c < n →
   ∃ s',
     Reserve this n s = Ret () s' ∧
     elements s' this = Some xs ∧
     GetSize this s' = Ret (N.of_nat (length xs)) s' ∧
     GetCapacity this s' = Ret n s' ∧
     (∀ a, owned s this = Some a → heap s' !! a = None) ∧
     (∀ a, owned s' this = Some a → heap s !! a = None) ∧
     live_arrays s' = (live_arrays s + match owned s this with Some _ => 0 | None => 1 end)%nat ∧
     ∀ r ys cr, separate s this r → holds s r ys cr → holds s' r ys cr).
Proof.
  intros Hholds Hn. split.
  - intros Hle. destruct s as [o h].
    pose proof Hholds as (p & blk & Hobj & _)%holds_inv. cbn in Hobj.
    unfold Reserve. erewrite bind_Ret by (by apply get_obj_eq). cbn [capacity_].
    by destruct (N.ltb_spec c n); [lia|].
  - intros Hcn.
    destruct (Reserve_spec s this xs c n Hholds Hn) as (s' & Hrun & Hholds' & Hframe).
    rewrite N.max_r in Hholds' by lia.
    exists s'. split_and!;
      [done | by eapply holds_elements | by eapply holds_GetSize
      | by eapply holds_GetCapacity | | | | ].
    4: { intros r ys cr Hsep Hr. by eapply holds_frame. }
    all: destruct s as [o h];
      pose proof Hholds as (p & blk & Hobj & Hlen & Hc & Hle & Hxs & Hp)%holds_inv;
      cbn in Hobj, Hp;
      destruct (Reserve_grow_eq o h this xs c n p Hholds Hcn Hn Hobj)
        as (blk' & Hrun' & Hlen' & Hxs');
      rewrite Hrun' in Hrun; injection Hrun as <-;
      pose proof (fresh_heap h) as Ht.
    + intros a. erewrite owned_eq by done. cbn.
      destruct Hp as [[-> ->] | (a' & -> & Ha')]; [done|].
      intros [= <-]. cbn. apply lookup_delete_eq.
    + intros a. erewrite owned_eq by apply lookup_insert_eq. cbn. by intros [= <-].
    + unfold live_arrays. cbn [heap]. erewrite owned_eq by done. cbn.
      destruct Hp as [[-> ->] | (a' & -> & Ha')]; cbn.
      * rewrite map_size_insert_None by done. lia.
      * rewrite map_size_delete_Some
          by (rewrite lookup_insert_ne; [eauto | by intros <-; congruence]).
        rewrite map_size_insert_None by done. lia.
Qed.

(** A vector that is not there yet shares nothing with the others. *)
Lemma separate_new s this r ys c :
  objs s !! this = None → holds s r ys c → separate s this r.
Proof.
  intros Hnew (v & _ & Hobj & _). split; [congruence|].
  intros a. unfold owned. by rewrite Hnew.
Qed.

(** X2: [SimpleVector(size)] makes a vector of [size] value-initialised
    elements with capacity [size], and leaves the other vectors alone. *)
Theorem sized_constructor_fills_with_defaults s this size :
  objs s !! this = None → size < SIZE_MOD →
  ∃ s',
    SimpleVector_sized this size s = Ret () s' ∧
    GetSize this s' = Ret size s' ∧
    GetCapacity this s' = Ret size s' ∧
    elements s' this = Some (replicate (N.to_nat size) T_default) ∧
    ∀ r ys c, holds s r ys c → holds s' r ys c.
Proof.
  intros Hnew Hsize.
  destruct (SimpleVector_sized_spec s this size Hnew Hsize) as (s' & Hrun & Hholds & Hframe).
  exists s'. split_and!; [done | | by eapply holds_GetCapacity | by eapply holds_elements |].
  - erewrite holds_GetSize by done. rewrite length_replicate. do 2 f_equal. lia.
  - intros r ys c Hr. eapply holds_frame; [done | by eapply separate_new | done].
Qed.

(** X3: [SimpleVector(size, value)] makes a vector of [size] copies of
    [value] with capacity [size], and leaves the other vectors alone. *)
Theorem filled_constructor_repeats_the_value s this size value :
  objs s !! this = None → size < SIZE_MOD →
  ∃ s',
    SimpleVector_filled this size value s = Ret () s' ∧
    GetSize this s' = Ret size s' ∧
    GetCapacity this s' = Ret size s' ∧
    elements s' this = Some (replicate (N.to_nat size) value) ∧
    ∀ r ys c, holds s r ys c → holds s' r ys c.
Proof.
  intros Hnew Hsize.
  destruct (SimpleVector_filled_spec s this size value Hnew Hsize)
    as (s' & Hrun & Hholds & Hframe).
  exists s'. split_and!; [done | | by eapply holds_GetCapacity | by eapply holds_elements |].
  - erewrite holds_GetSize by done. rewrite length_replicate. do 2 f_equal. lia.
  - intros r ys c Hr. eapply holds_frame; [done | by eapply separate_new | done].
Qed.

(** X4: [SimpleVector(init)] makes a vector with the elements of the list in
    list order, with size and capacity the length of the list, and leaves the
    other vectors alone. *)
Theorem list_constructor_keeps_the_order s this init :
  objs s !! this = None → N.of_nat (length init) < SIZE_MOD →
  ∃ s',
    SimpleVector_list this init s = Ret () s' ∧
    GetSize this s' = Ret (N.of_nat (length init)) s' ∧
    GetCapacity this s' = Ret (N.of_nat (length init)) s' ∧
    elements s' this = Some init ∧
    ∀ r ys c, holds s r ys c → holds s' r ys c.
Proof.
  intros Hnew Hsize.
  destruct (SimpleVector_list_spec s this init Hnew Hsize) as (s' & Hrun & Hholds & Hframe).
  exists s'. split_and!;
    [done | by eapply holds_GetSize | by eapply holds_GetCapacity
    | by eapply holds_elements |].
  intros r ys c Hr. eapply holds_frame; [done | by eapply separate_new | done].
Qed.

(** [PushBack] on a vector with spare capacity, with the store it leaves. *)
Lemma PushBack_in_place_eq o h this xs c x :
  holds (mkState o h) this xs c → N.of_nat (length xs) < c →
  ∃ a blk,
    o !! this = Some (mkSimpleVector (mkArrayPtr (Ptr a 0)) (N.of_nat (length xs)) c) ∧
    h !! a = Some blk ∧
    PushBack this x (mkState o h)
    = Ret () (mkState
        (<[this := mkSimpleVector (mkArrayPtr (Ptr a 0)) (N.of_nat (length (xs ++ [x]))) c]> o)
        (<[a := <[length xs := x]> blk]> h)) ∧
    holds (mkState
        (<[this := mkSimpleVector (mkArrayPtr (Ptr a 0)) (N.of_nat (length (xs ++ [x]))) c]> o)
        (<[a := <[length xs := x]> blk]> h)) this (xs ++ [x]) c.
Proof.
  intros Hholds Hlt.
  pose proof Hholds as (p & blk & Hobj & Hlen & Hc & Hle & Hxs & Hp)%holds_inv.
  cbn in Hobj, Hp.
  destruct Hp as [[-> ->] | (a & -> & Ha)]; [cbn in Hlen; lia|].
  exists a, blk. split_and!; [done | done | |].
  - unfold PushBack, grow_if_full.
    erewrite bind_Ret; cycle 1.
    { erewrite bind_Ret by (by apply get_obj_eq). cbn [size_ capacity_].
      destruct (N.eqb_spec (N.of_nat (length xs)) c); [lia | reflexivity]. }
    erewrite bind_Ret by (by apply get_obj_eq).
    erewrite bind_Ret by (by apply put_size_eq). cbn [ptr_ size_ capacity_].
    erewrite bind_Ret by (apply (ptr_add_Ptr a 0)). cbn [Nat.add].
    erewrite store_Ptr by (done || lia).
    rewrite size_add_small by lia. do 4 f_equal.
    rewrite length_app. cbn. lia.
  - eapply holds_Ptr;
      [apply lookup_insert_eq | done | done | done | apply lookup_insert_eq | | done |].
    + rewrite length_insert. lia.
    + apply lies_at_snoc; [done | lia].
Qed.

Lemma PushBack_all_in_place xs : ∀ s this ys c,
  holds s this ys c → N.of_nat (length ys + length xs) ≤ c →
  ∃ s', PushBack_all this xs s = Ret () s' ∧
        holds s' this (ys ++ xs) c ∧
        (∀ p, begin this s = Ret p s → begin this s' = Ret p s') ∧
        dom (heap s') = dom (heap s) ∧
        ∀ r, r ≠ this → objs s' !! r = objs s !! r.
Proof.
  induction xs as [|x xs IH]; intros [o h] this ys c Hholds Hle.
  - exists (mkState o h). rewrite app_nil_r. split_and!; [done | done | | done | done].
    done.
  - cbn [length] in Hle.
    destruct (PushBack_in_place_eq o h this ys c x Hholds ltac:(lia))
      as (a & blk & Hobj & Ha & Hrun & Hholds1).
    destruct (IH _ this (ys ++ [x]) c Hholds1) as (s' & Hrun' & Hholds' & Hbegin & Hdom & Hobjs).
    { rewrite length_app. cbn. lia. }
    exists s'. rewrite <- app_assoc in Hholds'. split_and!; [| done | | |].
    + cbn [PushBack_all]. by erewrite bind_Ret by apply Hrun.
    + intros p Hp. apply Hbegin.
      erewrite begin_eq in Hp by done. injection Hp as <-.
      by erewrite begin_eq by apply lookup_insert_eq.
    + rewrite Hdom. cbn. rewrite dom_insert_L.
      apply elem_of_dom_2 in Ha. apply set_eq. intros z.
      rewrite elem_of_union, elem_of_singleton. split; [by intros [->|] | by right].
    + intros r Hr. rewrite Hobjs by done. cbn. by rewrite lookup_insert_ne.
Qed.

(** X5: [SimpleVector(Reserve(n))] makes an empty vector of capacity [n], and
    pushing up to [n] elements onto it never reallocates: [begin()] is the
    same pointer afterwards, the capacity is still [n], no array was
    allocated or freed, and the elements are the pushed ones in order. *)
Theorem reserved_vector_does_not_reallocate s this n xs :
  objs s !! this = None → n < SIZE_MOD → N.of_nat (length xs) ≤ n →
  ∃ s1 p s2,
    SimpleVector_reserved this (Reserve_proxy n) s = Ret () s1 ∧
    GetSize this s1 = Ret 0 s1 ∧
    GetCapacity this s1 = Ret n s1 ∧
    begin this s1 = Ret p s1 ∧
    PushBack_all this xs s1 = Ret () s2 ∧
    begin this s2 = Ret p s2 ∧
    GetCapacity this s2 = Ret n s2 ∧
    elements s2 this = Some xs ∧
    dom (heap s2) = dom (heap s1).
Proof.
  intros Hnew Hn Hlen.
  destruct (SimpleVector_reserved_spec s this (Reserve_proxy n) Hnew Hn) as (s1 & Hrun1 & Hholds1).
  cbn [capacity Reserve_proxy] in Hholds1.
  destruct (PushBack_all_in_place xs s1 this [] n Hholds1)
    as (s2 & Hrun2 & Hholds2 & Hbegin & Hdom & _); [cbn; lia|].
  cbn [app] in Hholds2.
  destruct s1 as [o1 h1].
  pose proof Hholds1 as (p & _ & Hobj1 & _)%holds_inv. cbn in Hobj1.
  assert (begin this (mkState o1 h1) = Ret p (mkState o1 h1)) as Hp
    by (by erewrite begin_eq by done).
  exists (mkState o1 h1), p, s2. split_and!;
    [done | by eapply (holds_GetSize _ _ []) | by eapply holds_GetCapacity
    | done | done | by apply Hbegin | by eapply holds_GetCapacity
    | by eapply holds_elements | done].
Qed.

(** X6: [Clear()] empties the vector and keeps its capacity and its array:
    the heap is the same, [begin()] is the same, and pushing up to the
    capacity again allocates nothing. *)
Theorem Clear_keeps_the_allocation s this xs c ys :
  holds s this xs c → N.of_nat (length ys) ≤ c →
  ∃ s1 s2,
    Clear this s = Ret () s1 ∧
    GetSize this s1 = Ret 0 s1 ∧
    IsEmpty this s1 = Ret true s1 ∧
    GetCapacity this s1 = Ret c s1 ∧
    elements s1 this = Some [] ∧
    heap s1 = heap s ∧
    PushBack_all this ys s1 = Ret () s2 ∧
    elements s2 this = Some ys ∧
    GetCapacity this s2 = Ret c s2 ∧
    dom (heap s2) = dom (heap s) ∧
    ∀ p, begin this s = Ret p s → begin this s2 = Ret p s2.
Proof.
  intros Hholds Hlen.
  destruct (Clear_spec s this xs c Hholds) as (s1 & Hrun1 & Hholds1 & _).
  destruct (PushBack_all_in_place ys s1 this [] c Hholds1)
    as (s2 & Hrun2 & Hholds2 & Hbegin & Hdom & _); [cbn; lia|].
  cbn [app] in Hholds2.
  destruct s as [o h].
  pose proof Hholds as (p & _ & Hobj & _)%holds_inv. cbn in Hobj.
  unfold Clear in Hrun1. erewrite put_size_eq in Hrun1 by done. injection Hrun1 as <-.
  eexists _, s2. split_and!;
    [unfold Clear; by erewrite put_size_eq by done | by eapply (holds_GetSize _ _ [])
    | | by eapply holds_GetCapacity | by eapply holds_elements | done | done
    | by eapply holds_elements | by eapply holds_GetCapacity | done |].
  - unfold IsEmpty. by erewrite bind_Ret by (apply get_obj_eq, lookup_insert_eq).
  - intros q Hq. apply Hbegin. erewrite begin_eq in Hq by done. injection Hq as <-.
    by erewrite begin_eq by apply lookup_insert_eq.
Qed.

(** X7: [PopBack()] on a vector that is not empty drops the last element and
    keeps the capacity; on an empty vector its assertion fails. *)
Theorem PopBack_drops_the_last s this xs c :
  holds s this xs c →
  (xs = [] → PopBack this s = Fault) ∧
  (∀ ys x, xs = ys ++ [x] →
   ∃ s',
     PopBack this s = Ret () s' ∧
     elements s' this = Some ys ∧
     GetSize this s' = Ret (N.of_nat (length ys)) s' ∧
     GetCapacity this s' = Ret c s').
Proof.
  intros Hholds. split.
  - intros ->. destruct s as [o h].
    apply holds_inv in Hholds as (p & _ & Hobj & _). cbn in Hobj.
    unfold PopBack. by erewrite bind_Ret by (by apply get_obj_eq).
  - intros ys x ->.
    destruct (PopBack_spec s this (ys ++ [x]) c Hholds) as (s' & Hrun & Hholds' & _).
    { by destruct ys. }
    rewrite length_app in Hholds'. cbn [length] in Hholds'.
    replace (length ys + 1 - 1)%nat with (length ys) in Hholds' by lia.
    rewrite take_app_length in Hholds'.
    exists s'. split_and!;
      eauto using holds_elements, holds_GetSize, holds_GetCapacity.
Qed.

(** X8: [PushBack(x)] followed by [PopBack()] gives back the elements and
    the size; the capacity is the one [PushBack] left, which is the grown one
    when the vector was full. *)
Theorem PushBack_then_PopBack_restores s this xs c x :
  holds s this xs c → (N.of_nat (length xs) = c → c * 2 < SIZE_MOD) →
  ∃ s1 s2,
    PushBack this x s = Ret () s1 ∧
    PopBack this s1 = Ret () s2 ∧
    elements s2 this = Some xs ∧
    GetSize this s2 = Ret (N.of_nat (length xs)) s2 ∧
    GetCapacity this s2
    = Ret (if N.of_nat (length xs) =? c then N.max 1 (c * 2) else c) s2.
Proof.
  intros Hholds Hfull.
  destruct (PushBack_spec s this xs c x Hholds Hfull) as (s1 & Hrun1 & Hholds1 & _).
  destruct (PopBack_spec s1 this _ _ Hholds1) as (s2 & Hrun2 & Hholds2 & _).
  { by destruct xs. }
  rewrite length_app in Hholds2. cbn [length] in Hholds2.
  replace (length xs + 1 - 1)%nat with (length xs) in Hholds2 by lia.
  rewrite take_app_length in Hholds2.
  exists s1, s2. split_and!;
    eauto using holds_elements, holds_GetSize.
  by eapply holds_GetCapacity.
Qed.

(** [swap] of two different objects, with the store it leaves. *)
Lemma swap_eq o h a b va vb :
  a ≠ b → o !! a = Some va → o !! b = Some vb →
  swap a b (mkState o h) = Ret () (mkState (<[b := va]> (<[a := vb]> o)) h).
Proof.
  intros Hne Ha Hb. destruct va as [[pa] na ca], vb as [[pb] nb cb].
  unfold swap.
  erewrite bind_Ret by (by apply get_obj_eq).
  erewrite bind_Ret by (by apply get_obj_eq). cbn [ArrayPtr_swap ptr_ raw_ptr_].
  erewrite bind_Ret by (by apply put_ptr_eq).
  erewrite bind_Ret by (apply put_ptr_eq; by rewrite lookup_insert_ne).
  cbn [ptr_ size_ capacity_].
  erewrite bind_Ret
    by (apply get_obj_eq; rewrite lookup_insert_ne, lookup_insert_eq by done; done).
  erewrite bind_Ret by (apply get_obj_eq, lookup_insert_eq).
  erewrite bind_Ret
    by (apply put_size_eq; rewrite lookup_insert_ne, lookup_insert_eq by done; done).
  erewrite bind_Ret
    by (apply put_size_eq; rewrite !lookup_insert_ne, lookup_insert_eq by done; done).
  cbn [ptr_ size_ capacity_].
  erewrite bind_Ret
    by (apply get_obj_eq; rewrite !lookup_insert_ne, lookup_insert_eq by done; done).
  erewrite bind_Ret by (apply get_obj_eq, lookup_insert_eq).
  erewrite bind_Ret
    by (apply put_capacity_eq; rewrite !lookup_insert_ne, lookup_insert_eq by done; done).
  erewrite put_capacity_eq
    by (rewrite !lookup_insert_ne, lookup_insert_eq by done; done).
  cbn [ptr_ size_ capacity_]. do 2 f_equal.
  apply map_eq. intros i.
  destruct (decide (i = b)) as [->|]; [by rewrite !lookup_insert_eq|].
  rewrite !(lookup_insert_ne _ b i) by done.
  destruct (decide (i = a)) as [->|]; [by rewrite !lookup_insert_eq|].
  by rewrite !lookup_insert_ne by done.
Qed.

(** X9: [swap] exchanges the elements, sizes and capacities of two vectors
    without touching the heap; a second [swap] gives back the very store
    there was; and a vector swapped with itself is unchanged. *)
Theorem swap_exchanges_and_undoes s a b xs ys ca cb :
  holds s a xs ca → holds s b ys cb → a ≠ b →
  (∃ s',
     swap a b s = Ret () s' ∧
     elements s' a = Some ys ∧ GetCapacity a s' = Ret cb s' ∧
     elements s' b = Some xs ∧ GetCapacity b s' = Ret ca s' ∧
     heap s' = heap s ∧
     swap a b s' = Ret () s) ∧
  swap a a s = Ret () s.
Proof.
  intros Ha Hb Hne. split.
  - destruct (swap_spec s a b xs ys ca cb Ha Hb Hne) as (s' & Hrun & Ha' & Hb').
    exists s'. split_and!;
      [done | by eapply holds_elements | by eapply holds_GetCapacity
      | by eapply holds_elements | by eapply holds_GetCapacity | |].
    all: destruct s as [o h];
      destruct Ha as (va & _ & Hva & _), Hb as (vb & _ & Hvb & _); cbn in Hva, Hvb;
      erewrite swap_eq in Hrun by done; injection Hrun as <-.
    + done.
    + erewrite swap_eq;
        [| done | by rewrite lookup_insert_ne, lookup_insert_eq | apply lookup_insert_eq].
      do 2 f_equal. apply map_eq. intros i.
      destruct (decide (i = b)) as [->|]; [by rewrite !lookup_insert_eq|].
      rewrite !(lookup_insert_ne _ b i) by done.
      destruct (decide (i = a)) as [->|]; [by rewrite !lookup_insert_eq|].
      by rewrite !lookup_insert_ne by done.
  - destruct s as [o h]. destruct Ha as ([[pa] na ca'] & _ & Hva & _). cbn in Hva.
    unfold swap.
    erewrite bind_Ret by (by apply get_obj_eq).
    erewrite bind_Ret by (by apply get_obj_eq). cbn [ArrayPtr_swap ptr_ raw_ptr_].
    erewrite bind_Ret by (by apply put_ptr_eq).
    erewrite bind_Ret by (apply put_ptr_eq, lookup_insert_eq).
    cbn [ptr_ size_ capacity_]. rewrite insert_insert_eq.
    erewrite bind_Ret by (apply get_obj_eq, lookup_insert_eq).
    erewrite bind_Ret by (apply get_obj_eq, lookup_insert_eq).
    erewrite bind_Ret by (apply put_size_eq, lookup_insert_eq).
    erewrite bind_Ret by (apply put_size_eq, lookup_insert_eq).
    cbn [ptr_ size_ capacity_]. rewrite !insert_insert_eq.
    erewrite bind_Ret by (apply get_obj_eq, lookup_insert_eq).
    erewrite bind_Ret by (apply get_obj_eq, lookup_insert_eq).
    erewrite bind_Ret by (apply put_capacity_eq, lookup_insert_eq).
    erewrite put_capacity_eq by apply lookup_insert_eq.
    cbn [ptr_ size_ capacity_]. rewrite !insert_insert_eq.
    by rewrite insert_id.
Qed.

Lemma bind_Fault {A B} (m : M T A) (f : A → M T B) s :
  m s = Fault → (m ≫= f) s = Fault.
Proof. intros H. unfold mbind, M_bind. by rewrite H. Qed.

(** The iterator [begin() + p] points at the element of index [p]. *)
Lemma position_load s this xs c (p : nat) pos x :
  holds s this xs c → xs !! p = Some x →
  position this (N.of_nat p) s = Ret pos s →
  load pos s = Ret x s.
Proof.
  destruct s as [o h]. intros Hholds Hx Hpos.
  pose proof (lookup_lt_Some _ _ _ Hx) as Hp.
  pose proof Hholds as (q & blk & Hobj & Hlen & Hc & Hle & Hxs & Hq)%holds_inv.
  cbn in Hobj, Hq. erewrite position_eq in Hpos by (done || lia).
  injection Hpos as <-. unfold iterator_at. cbn.
  destruct Hq as [[-> ->] | (a & -> & Ha)]; [cbn in Hle; lia|].
  eapply load_Ptr; [done|]. by apply (Hxs p).
Qed.

(** X10: [Insert] at [end()] does what [PushBack] does: from the same
    vector both leave the elements followed by the new one, the same size and
    the same capacity; the iterator [Insert] returns is [begin()] plus the old
    size and points at the new element. *)
Theorem Insert_at_end_is_PushBack s this xs c x e :
  holds s this xs c → (N.of_nat (length xs) = c → c * 2 < SIZE_MOD) →
  end_ this s = Ret e s →
  ∃ s1 it s2,
    Insert this e x s = Ret it s1 ∧
    PushBack this x s = Ret () s2 ∧
    elements s1 this = Some (xs ++ [x]) ∧
    elements s2 this = Some (xs ++ [x]) ∧
    GetSize this s1 = Ret (N.of_nat (length xs) + 1) s1 ∧
    GetSize this s2 = Ret (N.of_nat (length xs) + 1) s2 ∧
    (∃ c', GetCapacity this s1 = Ret c' s1 ∧ GetCapacity this s2 = Ret c' s2) ∧
    position this (N.of_nat (length xs)) s1 = Ret it s1 ∧
    load it s1 = Ret x s1.
Proof.
  intros Hholds Hfull He.
  assert (position this (N.of_nat (length xs)) s = Ret e s) as Hpos.
  { destruct s as [o h].
    pose proof Hholds as (q & blk & Hobj & _ & _ & _ & _ & Hq)%holds_inv. cbn in Hobj, Hq.
    erewrite position_eq by done. rewrite <- He. unfold iterator_at. cbn.
    destruct Hq as [[-> ->] | (a & -> & Ha)].
    - by erewrite end_eq_null by done.
    - by erewrite (end_eq_Ptr _ _ _ _ _ (length xs)) by done. }
  destruct (Insert_spec s this xs c (length xs) x e Hholds Hfull ltac:(lia) Hpos)
    as (s1 & it & Hins & Hholds1 & Hpos1 & _).
  rewrite take_ge, drop_ge in Hholds1 by lia.
  destruct (PushBack_spec s this xs c x Hholds Hfull) as (s2 & Hpush & Hholds2 & _).
  exists s1, it, s2. split_and!;
    [done | done | by eapply holds_elements | by eapply holds_elements | | | | done |].
  - erewrite holds_GetSize by done. rewrite length_app. cbn. do 2 f_equal. lia.
  - erewrite holds_GetSize by done. rewrite length_app. cbn. do 2 f_equal. lia.
  - eexists. split; by eapply holds_GetCapacity.
  - eapply position_load; [done | | done].
    rewrite lookup_app_r by done. by rewrite Nat.sub_diag.
Qed.

(** X11: [Erase] at a position followed by [Insert] of the erased element at
    the same position gives back the elements, and the capacity is the one
    there was: the vector is not full after [Erase], so nothing grows. *)
Theorem Erase_then_Insert_restores s this xs c (p : nat) x pos :
  holds s this xs c → xs !! p = Some x →
  position this (N.of_nat p) s = Ret pos s →
  ∃ s1 s2 it,
    Erase this pos s = Ret pos s1 ∧
    elements s1 this = Some (take p xs ++ drop (S p) xs) ∧
    GetSize this s1 = Ret (N.of_nat (length xs) - 1) s1 ∧
    Insert this pos x s1 = Ret it s2 ∧
    elements s2 this = Some xs ∧
    GetSize this s2 = Ret (N.of_nat (length xs)) s2 ∧
    GetCapacity this s2 = Ret c s2.
Proof.
  intros Hholds Hx Hpos. pose proof (lookup_lt_Some _ _ _ Hx) as Hp.
  pose proof Hholds as (_ & blk & _ & Hlen & _ & Hle & _)%holds_inv.
  destruct (Erase_spec s this xs c p pos Hholds Hp Hpos) as (s1 & Hers & Hholds1 & Hpos1 & _).
  assert (length (take p xs ++ drop (S p) xs) = length xs - 1)%nat as Hlen1.
  { rewrite length_app, length_take, length_drop. lia. }
  destruct (Insert_spec s1 this _ c p x pos Hholds1) as (s2 & it & Hins & Hholds2 & _);
    [rewrite Hlen1; lia | rewrite Hlen1; lia | done |].
  assert (take p (take p xs ++ drop (S p) xs) ++ x :: drop p (take p xs ++ drop (S p) xs)
          = xs) as Hback.
  { rewrite take_app_length', drop_app_length' by (rewrite length_take; lia).
    by apply take_drop_middle. }
  rewrite Hback, Hlen1 in Hholds2.
  unfold grown_capacity in Hholds2.
  destruct (N.eqb_spec (N.of_nat (length xs - 1)) c) as [|_]; [lia|].
  exists s1, s2, it. split_and!;
    [done | by eapply holds_elements | | done | by eapply holds_elements
    | by eapply holds_GetSize | by eapply holds_GetCapacity].
  erewrite holds_GetSize by done. rewrite Hlen1. do 2 f_equal. lia.
Qed.


(** X13: the assertion of [Erase] lets [end()] through, and erasing there is
    undefined: the range that [std::move] is given starts after its end. *)
Theorem Erase_at_end_is_undefined s this xs c :
  holds s this xs c →
  ∃ e,
    end_ this s = Ret e s ∧
    assert_position this e s = Ret () s ∧
    Erase this e s = Fault.
Proof.
  destruct s as [o h]. intros Hholds.
  pose proof Hholds as (q & blk & Hobj & Hlen & Hc & Hle & Hxs & Hq)%holds_inv.
  cbn in Hobj, Hq.
  pose proof (assert_position_ok o h this xs c _ (length xs) Hholds Hobj ltac:(lia)) as Hok.
  unfold iterator_at in Hok. cbn [ptr_ raw_ptr_] in Hok.
  destruct Hq as [[-> ->] | (a & -> & Ha)].
  - exists nullptr. split_and!; [by eapply end_eq_null | done |].
    unfold Erase. erewrite bind_Ret by done. by apply bind_Fault.
  - exists (Ptr a (N.of_nat (length xs))).
    split_and!; [by eapply end_eq_Ptr | done |].
    unfold Erase. erewrite bind_Ret by done.
    erewrite bind_Ret by (apply (ptr_add_Ptr a _ 1)).
    erewrite bind_Ret by (by eapply (end_eq_Ptr _ _ _ _ _ (length xs))).
    apply bind_Fault. unfold std_move, std_copy.
    erewrite bind_Ret by apply ptr_diff_Ptr.
    by destruct (Z.ltb_spec (Z.of_nat (length xs) - Z.of_nat (length xs + 1)) 0); [|lia].
Qed.

(** X14: [operator[]] asserts the index against the size, not the capacity:
    an index from the size on faults; below the size, the reference it
    returns is to that element, and an assignment through it changes that
    element only, and neither size nor capacity. *)
Theorem index_writes_one_element s this xs c i x :
  holds s this xs c →
  (N.of_nat (length xs) ≤ i → index this i s = Fault) ∧
  (i < N.of_nat (length xs) →
   ∃ p s',
     index this i s = Ret p s ∧
     store p x s = Ret () s' ∧
     elements s' this = Some (<[N.to_nat i := x]> xs) ∧
     GetSize this s' = Ret (N.of_nat (length xs)) s' ∧
     GetCapacity this s' = Ret c s').
Proof.
  destruct s as [o h]. intros Hholds.
  pose proof Hholds as (q & blk & Hobj & Hlen & Hc & Hle & Hxs & Hq)%holds_inv.
  cbn in Hobj, Hq. split.
  - intros Hi. unfold index. erewrite bind_Ret by (by apply get_obj_eq). cbn [size_].
    by destruct (N.ltb_spec i (N.of_nat (length xs))); [lia|].
  - intros Hi. destruct Hq as [[-> ->] | (a & -> & Ha)]; [cbn in Hle; lia|].
    assert (holds (mkState o (<[a := <[N.to_nat i := x]> blk]> h)) this
              (<[N.to_nat i := x]> xs) c) as Hholds'.
    { eapply holds_Ptr;
        [done | done | by (cbn; rewrite length_insert) | done | apply lookup_insert_eq
        | by rewrite length_insert | done |].
      intros k y Hy. cbn. destruct (decide (k = N.to_nat i)) as [->|Hne].
      - rewrite list_lookup_insert_eq in Hy by lia.
        by rewrite list_lookup_insert_eq by lia.
      - rewrite list_lookup_insert_ne in Hy by done.
        rewrite list_lookup_insert_ne by done. by apply (Hxs k). }
    exists (Ptr a i), (mkState o (<[a := <[N.to_nat i := x]> blk]> h)).
    split_and!.
    + unfold index. erewrite bind_Ret by (by apply get_obj_eq). cbn [size_ ptr_].
      by destruct (N.ltb_spec i (N.of_nat (length xs))); [|lia].
    + rewrite <- (N2Nat.id i) at 1. eapply store_Ptr; [done | lia].
    + by eapply holds_elements.
    + erewrite holds_GetSize by done. by rewrite length_insert.
    + by eapply holds_GetCapacity.
Qed.

(** [begin() + size] is [end()]. *)
Lemma position_end s this xs c :
  holds s this xs c →
  ∃ e, end_ this s = Ret e s ∧ position this (N.of_nat (length xs)) s = Ret e s.
Proof.
  destruct s as [o h]. intros Hholds.
  pose proof Hholds as (q & blk & Hobj & _ & _ & _ & _ & Hq)%holds_inv. cbn in Hobj, Hq.
  erewrite position_eq by done. unfold iterator_at. cbn.
  destruct Hq as [[-> ->] | (a & -> & Ha)]; eexists; (split; [|done]).
  - by eapply end_eq_null.
  - by eapply end_eq_Ptr.
Qed.

(** X15: [begin()] and [end()] delimit the elements: [end() - begin()] is the
    size, the two are equal exactly for an empty vector, [begin() + size] is
    [end()], [begin() + i] points at the element of index [i], and [cbegin()]
    and [cend()] are the same two pointers. *)
Theorem begin_end_delimit_the_elements s this xs c :
  holds s this xs c →
  ∃ b e,
    begin this s = Ret b s ∧ end_ this s = Ret e s ∧
    cbegin this s = Ret b s ∧ cend this s = Ret e s ∧
    ptr_diff e b s = Ret (Z.of_nat (length xs)) s ∧
    (b = e ↔ xs = []) ∧
    position this (N.of_nat (length xs)) s = Ret e s ∧
    ∀ (i : nat) x, xs !! i = Some x →
      ∃ p, position this (N.of_nat i) s = Ret p s ∧ load p s = Ret x s.
Proof.
  destruct s as [o h]. intros Hholds.
  pose proof Hholds as (q & blk & Hobj & Hlen & Hc & Hle & Hxs & Hq)%holds_inv.
  cbn in Hobj, Hq.
  assert (∀ (i : nat) x, xs !! i = Some x →
      ∃ p, position this (N.of_nat i) (mkState o h) = Ret p (mkState o h) ∧
           load p (mkState o h) = Ret x (mkState o h)) as Hload.
  { intros i x Hx. pose proof (lookup_lt_Some _ _ _ Hx).
    eexists. split; [eapply position_eq; [done | done | lia]|].
    eapply position_load; [done | done |]. eapply position_eq; [done | done | lia]. }
  destruct Hq as [[-> ->] | (a & -> & Ha)].
  - destruct xs; [|cbn in Hle; lia].
    exists nullptr, nullptr. split_and!; [apply (begin_eq _ _ _ _ Hobj) | by eapply end_eq_null | | | done | done | | done].
    + unfold cbegin. by erewrite bind_Ret by (by apply get_obj_eq).
    + unfold cend. by erewrite bind_Ret by (by apply get_obj_eq).
    + by erewrite position_eq by done.
  - exists (Ptr a 0), (Ptr a (N.of_nat (length xs))).
    split_and!; [apply (begin_eq _ _ _ _ Hobj) | by eapply end_eq_Ptr | | | | | | done].
    + unfold cbegin. by erewrite bind_Ret by (by apply get_obj_eq).
    + unfold cend. by erewrite bind_Ret by (by apply get_obj_eq).
    + rewrite (ptr_diff_Ptr a (length xs) 0). do 2 f_equal. lia.
    + split.
      * intros [= Heq]. destruct xs; [done | cbn in Heq; lia].
      * by intros ->.
    + by erewrite position_eq by done.
Qed.

(** X16: the iterator [Insert] returns points at the inserted element; the
    iterator [Erase] returns is the position it was given, which afterwards
    points at the element that followed the erased one, or is [end()] when
    the last element was erased. *)
Theorem returned_iterators_point_at_the_place s this xs c (p : nat) x pos :
  holds s this xs c → (N.of_nat (length xs) = c → c * 2 < SIZE_MOD) →
  (p ≤ length xs)%nat →
  position this (N.of_nat p) s = Ret pos s →
  (∃ s' it, Insert this pos x s = Ret it s' ∧ load it s' = Ret x s') ∧
  ((p < length xs)%nat →
   ∃ s', Erase this pos s = Ret pos s' ∧
         (∀ y, xs !! S p = Some y → load pos s' = Ret y s') ∧
         (S p = length xs → end_ this s' = Ret pos s')).
Proof.
  intros Hholds Hfull Hp Hpos. split.
  - destruct (Insert_spec s this xs c p x pos Hholds Hfull Hp Hpos)
      as (s' & it & Hins & Hholds' & Hpos' & _).
    exists s', it. split; [done|].
    eapply position_load; [done | | done].
    rewrite lookup_app_r by (rewrite length_take; lia).
    by replace (p - length (take p xs))%nat with 0%nat by (rewrite length_take; lia).
  - intros Hlt.
    destruct (Erase_spec s this xs c p pos Hholds Hlt Hpos) as (s' & Hers & Hholds' & Hpos' & _).
    exists s'. split_and!; [done | |].
    + intros y Hy. eapply position_load; [done | | done].
      rewrite lookup_app_r by (rewrite length_take; lia).
      rewrite lookup_drop. rewrite <- Hy. f_equal. rewrite length_take. lia.
    + intros Hlast.
      destruct (position_end s' this _ c Hholds') as (e & He & Hpe).
      replace (length (take p xs ++ drop (S p) xs)) with p in Hpe
        by (rewrite length_app, length_take, length_drop; lia).
      congruence.
Qed.

(** X17: [ArrayPtr(size)] owns nothing for size 0 and otherwise a new array
    of [size] value-initialised elements, reached through [operator[]]; it
    converts to [true] exactly when it owns an array; the arrays there were
    are untouched; and its destructor gives back the very heap there was. *)
Theorem ArrayPtr_owns_a_fresh_array s size :
  ∃ p s',
    ArrayPtr_new size s = Ret p s' ∧
    ArrayPtr_bool p = negb (size =? 0) ∧
    (size = 0 → ArrayPtr_Get p = nullptr ∧ s' = s) ∧
    (∀ i, i < size →
       ∃ q, ArrayPtr_index p i s' = Ret q s' ∧ load q s' = Ret T_default s') ∧
    (∀ a blk, heap s !! a = Some blk →
       heap s' !! a = Some blk ∧ ArrayPtr_Get p ≠ Ptr a 0) ∧
    ArrayPtr_destroy p s' = Ret () s.
Proof.
  destruct s as [o h]. destruct (N.eqb_spec size 0) as [->|Hne].
  - exists (mkArrayPtr nullptr), (mkState o h).
    split_and!; [done | done | done | intros i Hi; lia | by intros a blk Ha | done].
  - pose proof (fresh_heap h) as Ht.
    eexists _, _. split; [by apply ArrayPtr_new_eq|]. split_and!.
    + done.
    + done.
    + intros i Hi. exists (Ptr (fresh (dom h)) i). split; [done|].
      rewrite <- (N2Nat.id i). eapply load_Ptr; [apply lookup_insert_eq|].
      apply lookup_replicate_2. lia.
    + intros a blk Ha. cbn in Ha. split.
      * cbn. rewrite lookup_insert_ne; [done|]. by eapply fresh_heap_ne.
      * cbn. intros [= Heq]. rewrite Heq in Ht. congruence.
    + unfold ArrayPtr_destroy. cbn. rewrite lookup_insert_eq.
      by rewrite delete_insert_id.
Qed.

(** X18: the move constructor of [ArrayPtr] hands the pointer over and
    leaves the source null, so that the two destructors together free what
    the destructor of the source alone would have freed. *)
Theorem ArrayPtr_move_transfers_ownership s (other : ArrayPtr) :
  ∃ p other',
    ArrayPtr_move other = (p, other') ∧
    ArrayPtr_Get p = ArrayPtr_Get other ∧
    ArrayPtr_Get other' = nullptr ∧
    ArrayPtr_destroy other' s = Ret () s ∧
    (ArrayPtr_destroy other';; ArrayPtr_destroy p) s = ArrayPtr_destroy other s ∧
    (ArrayPtr_destroy p;; ArrayPtr_destroy other') s = ArrayPtr_destroy other s.
Proof.
  destruct other as [q]. exists (mkArrayPtr q), (mkArrayPtr nullptr).
  split_and!; [done | done | done | done | done |].
  unfold ArrayPtr_destroy. cbn [raw_ptr_].
  unfold mbind, M_bind. by destruct (delete_array q s) as [[] ?| |].
Qed.

(** The destructor of a vector, given what [delete[]] of its array does. *)
Lemma SimpleVector_destroy_eq o h r v h' :
  o !! r = Some v →
  delete_array (raw_ptr_ (ptr_ v)) (mkState o h) = Ret () (mkState o h') →
  SimpleVector_destroy r (mkState o h) = Ret () (mkState (delete r o) h').
Proof.
  intros Hobj Hdel. unfold SimpleVector_destroy.
  erewrite bind_Ret by (by apply get_obj_eq). unfold ArrayPtr_destroy.
  erewrite bind_Ret by apply Hdel. unfold del_obj. cbn. by rewrite Hobj.
Qed.

Lemma delete_array_eq o h p blk :
  (p = nullptr ∧ blk = []) ∨ (∃ a, p = Ptr a 0 ∧ h !! a = Some blk) →
  delete_array p (mkState o h) = Ret () (mkState o (freed p h)).
Proof.
  intros [[-> ->] | (a & -> & Ha)]; [done|]. cbn. by rewrite Ha.
Qed.

(** X19: the destructor of a vector removes the object and frees the array
    it owns, and nothing else: one live array fewer when it owned one, and
    every vector that shares no array with it is as it was.  A copy that is
    constructed and destroyed leaves the very store there was. *)
Theorem destructor_frees_exactly_its_array s this xs c :
  holds s this xs c →
  (∃ s',
     SimpleVector_destroy this s = Ret () s' ∧
     objs s' !! this = None ∧
     (∀ a, owned s this = Some a → heap s' !! a = None) ∧
     live_arrays s' = (live_arrays s - match owned s this with Some _ => 1 | None => 0 end)%nat ∧
     ∀ r ys cr, separate s this r → holds s r ys cr → holds s' r ys cr) ∧
  (∀ b, objs s !! b = None →
     (SimpleVector_copy b this;; SimpleVector_destroy b) s = Ret () s).
Proof.
  destruct s as [o h]. intros Hholds. split.
  - pose proof Hholds as (q & blk & Hobj & Hlen & Hc & Hle & Hxs & Hq)%holds_inv.
    cbn in Hobj, Hq.
    eexists. split.
    { eapply SimpleVector_destroy_eq; [done|]. by eapply delete_array_eq. }
    cbn [ptr_ raw_ptr_]. split_and!.
    + apply lookup_delete_eq.
    + intros a. erewrite owned_eq by done. cbn.
      destruct Hq as [[-> ->] | (a' & -> & Ha')]; [done|].
      intros [= <-]. apply lookup_delete_eq.
    + unfold live_arrays. erewrite owned_eq by done. cbn.
      destruct Hq as [[-> ->] | (a' & -> & Ha')]; cbn; [lia|].
      rewrite map_size_delete_Some by eauto. lia.
    + intros r ys cr [Hne Hsep] (v & blkr & Hr & Hbuf & Hrest).
      exists v, blkr. split; [by (cbn; rewrite lookup_delete_ne)|]. split; [|apply Hrest].
      unfold buffer in *. cbn in *.
      destruct (raw_ptr_ (ptr_ v)) as [|ar i] eqn:Hpr; [done|].
      destruct (i =? 0); [|done].
      destruct Hq as [[-> ->] | (a' & -> & Ha')]; [done|]. cbn.
      rewrite lookup_delete_ne; [done|]. intros <-.
      apply (Hsep a'); unfold owned; cbn; [by rewrite Hobj | by rewrite Hr, Hpr].
  - cbn. intros b Hb.
    erewrite bind_Ret by (by eapply SimpleVector_copy_eq).
    by apply SimpleVector_destroy_copied.
Qed.

Lemma freed_freed_comm p q h : freed p (freed q h) = freed q (freed p h).
Proof. destruct p, q; cbn; try done. apply delete_delete. Qed.

Lemma freed_lookup_ne p h a blk :
  h !! a = Some blk → (∀ i, p ≠ Ptr a i) → freed p h !! a = Some blk.
Proof.
  intros Ha Hne. destruct p as [|b i]; [done|]. cbn.
  rewrite lookup_delete_ne; [done|]. intros ->. by apply (Hne i).
Qed.

(** X20: a move changes which vector frees which array, not what is freed:
    after the move assignment [b = std::move(a)] the destructors of [b] and
    [a] leave the store that they leave without it, and after the move
    construction of [b] from [a] they leave the store that the destructor of
    [a] alone leaves; no array is freed twice and none is left behind. *)
Theorem move_keeps_every_array_owned_once s a b xs ca :
  holds s a xs ca →
  (∀ ys cb, holds s b ys cb → separate s b a →
     ∃ s', (SimpleVector_destroy b;; SimpleVector_destroy a) s = Ret () s' ∧
           (assign_move b a;; SimpleVector_destroy b;; SimpleVector_destroy a) s
           = Ret () s') ∧
  (objs s !! b = None →
     ∃ s', SimpleVector_destroy a s = Ret () s' ∧
           (SimpleVector_move b a;; SimpleVector_destroy b;; SimpleVector_destroy a) s
           = Ret () s').
Proof.
  destruct s as [o h]. intros Ha.
  pose proof Ha as (pa & blka & Hobja & _ & _ & _ & _ & Hpa)%holds_inv.
  cbn in Hobja, Hpa. split.
  - intros ys cb Hb [Hne Hsep].
    pose proof Hb as (pb & blkb & Hobjb & _ & _ & _ & _ & Hpb)%holds_inv.
    cbn in Hobjb, Hpb.
    erewrite !owned_eq in Hsep by done. cbn in Hsep.
    assert ((∃ a', pa = Ptr a' 0 ∧ freed pb h !! a' = Some blka) ∨ (pa = nullptr ∧ blka = []))
      as Hpa'.
    { destruct Hpa as [? | (a' & -> & Ha')]; [by right | left].
      exists a'. split; [done|]. apply freed_lookup_ne; [done|].
      intros i ->. by apply (Hsep a'). }
    assert ((∃ b', pb = Ptr b' 0 ∧ freed pa h !! b' = Some blkb) ∨ (pb = nullptr ∧ blkb = []))
      as Hpb'.
    { destruct Hpb as [? | (b' & -> & Hb')]; [by right | left].
      exists b'. split; [done|]. apply freed_lookup_ne; [done|].
      intros i ->. by apply (Hsep b'). }
    eexists. split.
    + erewrite bind_Ret
        by (eapply SimpleVector_destroy_eq; [done | by eapply delete_array_eq]).
      eapply SimpleVector_destroy_eq; [by rewrite lookup_delete_ne|].
      eapply (delete_array_eq _ _ _ blka). destruct Hpa' as [?|?]; [by right | by left].
    + unfold assign_move.
      erewrite bind_Ret by (by apply move_body_eq).
      cbn [ptr_ size_ capacity_].
      erewrite bind_Ret; cycle 1.
      { eapply SimpleVector_destroy_eq; [apply lookup_insert_eq|].
        by eapply (delete_array_eq _ _ _ blka). }
      erewrite SimpleVector_destroy_eq; cycle 1.
      { by rewrite lookup_delete_ne, lookup_insert_ne, lookup_insert_eq. }
      { eapply (delete_array_eq _ _ _ blkb). destruct Hpb' as [?|?]; [by right | by left]. }
      cbn [ptr_ raw_ptr_]. f_equal. f_equal; [|apply freed_freed_comm].
      apply map_eq. intros i.
      destruct (decide (i = a)) as [->|]; [by rewrite !lookup_delete_eq|].
      rewrite !(lookup_delete_ne _ a i) by done.
      destruct (decide (i = b)) as [->|]; [by rewrite !lookup_delete_eq|].
      by rewrite !lookup_delete_ne, !lookup_insert_ne by done.
  - cbn. intros Hb. assert (b ≠ a) as Hne by congruence.
    eexists. split.
    + eapply SimpleVector_destroy_eq; [done | by eapply delete_array_eq].
    + unfold SimpleVector_move.
      erewrite bind_Ret; cycle 1.
      { erewrite bind_Ret by (unfold new_obj; cbn; by rewrite Hb).
        apply move_body_eq; [done | apply lookup_insert_eq | by rewrite lookup_insert_ne]. }
      cbn [ptr_ size_ capacity_].
      erewrite bind_Ret; cycle 1.
      { eapply SimpleVector_destroy_eq; [apply lookup_insert_eq|].
        by eapply (delete_array_eq _ _ _ blka). }
      erewrite SimpleVector_destroy_eq; cycle 1.
      { by rewrite lookup_delete_ne, lookup_insert_ne, lookup_insert_eq. }
      { by eapply (delete_array_eq _ _ _ []); left. }
      cbn [ptr_ raw_ptr_ freed]. do 2 f_equal.
      apply map_eq. intros i.
      destruct (decide (i = a)) as [->|]; [by rewrite !lookup_delete_eq|].
      rewrite !(lookup_delete_ne _ a i) by done.
      destruct (decide (i = b)) as [->|]; [by rewrite lookup_delete_eq|].
      by rewrite !lookup_delete_ne, !lookup_insert_ne by done.
Qed.

Lemma lexicographically_less_asym xs : ∀ ys,
  (∀ x y, T_lt x y = true → T_lt y x = false) →
  lexicographically_less xs ys → ¬ lexicographically_less ys xs.
Proof.
  induction xs as [|x xs IH]; intros ys Hasym Hlt Hgt.
  - by apply lexicographically_less_nil_r in Hgt.
  - destruct ys as [|y ys]; [by apply lexicographically_less_nil_r in Hlt|].
    apply lexicographically_less_cons in Hlt, Hgt.
    destruct Hlt as [Hxy | (Hxy & Hyx & Hlt)], Hgt as [Hyx' | (Hyx' & Hxy' & Hgt)].
    + apply Hasym in Hxy. congruence.
    + congruence.
    + congruence.
    + by apply (IH ys).
Qed.

Lemma same_elements_not_less xs ys :
  (∀ x y, T_eq x y = true → T_lt x y = false) →
  same_elements xs ys → ¬ lexicographically_less xs ys.
Proof.
  intros Hcompat [Hlen Hall] (k & _ & Hk1 & Hk2 & [-> | (x & y & Hx & Hy & Hlt)]); [lia|].
  specialize (Hall k x y Hx Hy). apply Hcompat in Hall. congruence.
Qed.

Lemma not_true_false (b : bool) (P : Prop) : (b = true ↔ P) → ¬ P → b = false.
Proof. destruct b; intuition. Qed.

(** X21: with an element [operator<] that is asymmetric, the order of
    vectors is strict: no vector is less than itself, and when [a < b] then
    [b < a] is false, so that [a <= b] and [b > a] hold and [a > b] and
    [a >= b] do not. *)
Theorem vector_order_is_strict s a b xs ys ca cb :
  (∀ x y, T_lt x y = true → T_lt y x = false) →
  holds s a xs ca → holds s b ys cb →
  op_lt a a s = Ret false s ∧ op_le a a s = Ret true s ∧
  op_ge a a s = Ret true s ∧ op_gt a a s = Ret false s ∧
  (op_lt a b s = Ret true s →
   op_lt b a s = Ret false s ∧ op_le a b s = Ret true s ∧ op_gt b a s = Ret true s ∧
   op_gt a b s = Ret false s ∧ op_ge a b s = Ret false s).
Proof.
  intros Hasym Ha Hb.
  assert (op_lt a a s = Ret false s) as Hirr.
  { destruct (op_lt_spec s a a xs xs ca ca Ha Ha) as (r & Hrun & Hr).
    rewrite Hrun. do 2 f_equal. apply (not_true_false _ _ Hr).
    intros Hlt. by apply (lexicographically_less_asym xs xs Hasym Hlt). }
  split_and!; [done | by apply (op_le_eq _ _ _ false) | by apply (op_ge_eq _ _ _ false)
              | by apply (op_gt_eq _ _ _ true), (op_le_eq _ _ _ false) |].
  intros Hlt.
  destruct (op_lt_spec s a b xs ys ca cb Ha Hb) as (r & Hrun & Hr).
  assert (r = true) as -> by congruence.
  assert (op_lt b a s = Ret false s) as Hgt.
  { destruct (op_lt_spec s b a ys xs cb ca Hb Ha) as (r' & Hrun' & Hr').
    rewrite Hrun'. do 2 f_equal. apply (not_true_false _ _ Hr').
    apply lexicographically_less_asym; [done|]. by apply Hr. }
  split_and!; [done | by apply (op_le_eq _ _ _ false)
              | by apply (op_gt_eq _ _ _ false), (op_le_eq _ _ _ true)
              | by apply (op_gt_eq _ _ _ true), (op_le_eq _ _ _ false)
              | by apply (op_ge_eq _ _ _ true)].
Qed.

(** X22: with an element [operator==] that is reflexive and never holds
    together with [operator<], vectors that compare equal are not ordered:
    when [a == b] then neither [a < b] nor [b < a], and [a <= b] and
    [a >= b] both hold. *)
Theorem equal_vectors_are_not_ordered s a b xs ys ca cb :
  (∀ x, T_eq x x = true) →
  (∀ x y, T_eq x y = true → T_lt x y = false ∧ T_lt y x = false) →
  holds s a xs ca → holds s b ys cb →
  op_eq a b s = Ret true s →
  op_lt a b s = Ret false s ∧ op_lt b a s = Ret false s ∧
  op_le a b s = Ret true s ∧ op_ge a b s = Ret true s ∧
  op_gt a b s = Ret false s.
Proof.
  intros Hrefl Hcompat Ha Hb Heq.
  assert (same_elements xs ys) as Hsame.
  { destruct (decide (a = b)) as [->|Hne].
    - rewrite (holds_unique _ _ _ _ _ _ Hb Ha). exact (same_elements_refl xs Hrefl).
    - destruct (op_eq_spec s a b xs ys ca cb Ha Hb Hne) as (r & Hrun & Hr).
      apply Hr. congruence. }
  assert (op_lt a b s = Ret false s) as Hlt.
  { destruct (op_lt_spec s a b xs ys ca cb Ha Hb) as (r & Hrun & Hr).
    rewrite Hrun. do 2 f_equal. apply (not_true_false _ _ Hr).
    apply same_elements_not_less; [|done]. intros x y Hxy. by destruct (Hcompat x y Hxy). }
  assert (op_lt b a s = Ret false s) as Hgt.
  { destruct (op_lt_spec s b a ys xs cb ca Hb Ha) as (r & Hrun & Hr).
    rewrite Hrun. do 2 f_equal. apply (not_true_false _ _ Hr).
    intros (k & _ & Hk1 & Hk2 & Hk). destruct Hsame as [Hlen Hall].
    destruct Hk as [-> | (y & x & Hy & Hx & Hyx)]; [lia|].
    specialize (Hall k x y Hx Hy). apply Hcompat in Hall as [_ Hall]. congruence. }
  split_and!; [done | done | by apply (op_le_eq _ _ _ false) | by apply (op_ge_eq _ _ _ false)
              | by apply (op_gt_eq _ _ _ true), (op_le_eq _ _ _ false)].
Qed.

(** X23: [Resize(0)] is [Clear()], on every store; and on a vector that is
    not empty [PopBack()] leaves the very store that [Erase] at the last
    element leaves. *)
Theorem PopBack_is_Erase_of_the_last s this xs c pos :
  (∀ s0 : state T, Resize this 0 s0 = Clear this s0) ∧
  (holds s this xs c → xs ≠ [] →
   position this (N.of_nat (length xs - 1)) s = Ret pos s →
   ∃ s', PopBack this s = Ret () s' ∧ Erase this pos s = Ret pos s').
Proof.
  split.
  - intros [o h]. unfold Resize, Clear.
    destruct (o !! this) as [v|] eqn:Hv.
    + erewrite bind_Ret by (by apply get_obj_eq).
      destruct (N.ltb_spec (capacity_ v) 0); [lia|].
      erewrite bind_Ret by reflexivity.
      erewrite bind_Ret by (by apply get_obj_eq).
      destruct (N.ltb_spec (size_ v) 0); [lia|].
      by erewrite bind_Ret by reflexivity.
    + rewrite bind_Fault by (unfold get_obj; cbn; by rewrite Hv).
      unfold put_size_. by rewrite bind_Fault by (unfold get_obj; cbn; by rewrite Hv).
  - destruct s as [o h]. intros Hholds Hne Hpos.
    assert (length xs ≠ 0)%nat as Hlen0 by (by destruct xs).
    pose proof (holds_size_lt _ _ _ _ Hholds) as Hlt.
    pose proof Hholds as (q & blk & Hobj & Hlen & Hc & Hle & Hxs & Hq)%holds_inv.
    cbn in Hobj, Hq.
    destruct (PopBack_spec _ this xs c Hholds Hne) as (s' & Hpop & _).
    exists s'. split; [done|].
    (* the store [PopBack] leaves *)
    unfold PopBack in Hpop.
    erewrite bind_Ret in Hpop by (by apply get_obj_eq). cbn [size_] in Hpop.
    destruct (N.eqb_spec (N.of_nat (length xs)) 0) as [|_]; [lia|].
    erewrite bind_Ret in Hpop by reflexivity.
    rewrite size_sub_small in Hpop by lia.
    unfold Resize in Hpop.
    erewrite bind_Ret in Hpop by (by apply get_obj_eq). cbn [capacity_] in Hpop.
    destruct (N.ltb_spec c (N.of_nat (length xs) - 1)) as [|_]; [lia|].
    erewrite bind_Ret in Hpop by reflexivity.
    erewrite bind_Ret in Hpop by (by apply get_obj_eq). cbn [size_ ptr_] in Hpop.
    destruct (N.ltb_spec (N.of_nat (length xs)) (N.of_nat (length xs) - 1)) as [|_]; [lia|].
    erewrite bind_Ret in Hpop by reflexivity.
    erewrite put_size_eq in Hpop by done. injection Hpop as <-.
    (* the store [Erase] leaves *)
    erewrite position_eq in Hpos by (done || lia). injection Hpos as <-.
    destruct Hq as [[-> ->] | (a & -> & Ha)]; [cbn in Hle; lia|].
    unfold Erase.
    erewrite bind_Ret by (eapply assert_position_ok; [done | done | lia]).
    unfold iterator_at. cbn [ptr_ raw_ptr_].
    erewrite bind_Ret by (apply (ptr_add_Ptr a _ 1)).
    replace (length xs - 1 + 1)%nat with (length xs) by lia.
    erewrite bind_Ret by (by eapply (end_eq_Ptr _ _ _ _ _ (length xs))).
    erewrite bind_Ret
      by (unfold std_move, std_copy; erewrite bind_Ret by apply ptr_diff_Ptr;
          rewrite Z.sub_diag; reflexivity).
    erewrite bind_Ret by (by apply get_obj_eq).
    erewrite bind_Ret by (by apply put_size_eq). cbn [ptr_ size_ capacity_].
    by rewrite size_sub_small by lia.
Qed.

(** Copy assignment, with the store it leaves: [this] may be [rhs]. *)
Lemma assign_copy_eq o h this rhs xs c ys c2 p2 :
  holds (mkState o h) rhs xs c → holds (mkState o h) this ys c2 →
  o !! this = Some (mkSimpleVector (mkArrayPtr p2) (N.of_nat (length ys)) c2) →
  assign_copy this rhs (mkState o h)
  = Ret () (mkState
      (<[this := mkSimpleVector (mkArrayPtr (copied_ptr h xs))
                   (N.of_nat (length xs)) (N.of_nat (length xs))]> o)
      (freed p2 (copied_heap h xs))).
Proof.
  intros Hrhs Hthis Hobj2'.
  pose proof Hrhs as (p & blk & Hobj & Hlen & Hc & Hle & Hxs & Hp)%holds_inv.
  pose proof Hthis as (p2' & blk2 & Hobj2 & Hlen2 & Hc2 & Hle2 & Hxs2 & Hp2)%holds_inv.
  cbn in Hobj, Hp, Hobj2, Hp2. assert (p2' = p2) as -> by congruence.
  unfold assign_copy.
  erewrite bind_Ret by (by apply GetSize_eq). cbn [size_].
  erewrite bind_Ret by apply ArrayPtr_new_copied.
  erewrite bind_Ret by (by apply begin_eq). cbn [ptr_ raw_ptr_].
  destruct (ends o (match xs with
               | [] => h
               | _ => <[fresh (dom h) := replicate (length xs) T_default]> h
               end) rhs xs c p blk) as (e & He & Hpe); [done | |].
  { destruct Hp as [? | (a & -> & Ha)]; [by left | right].
    exists a. split; [done|]. destruct xs; [done|].
    rewrite lookup_insert_ne; [done|]. by eapply fresh_heap_ne. }
  erewrite bind_Ret by apply He.
  destruct (copy_elements o h xs p e blk (replicate (length xs) T_default)) as (r & Hcopy);
    [| done | done | apply length_replicate |].
  { destruct Hpe as [? | (a & -> & -> & Ha)]; [by left | right].
    exists a. split_and!; [done | done |]. destruct Hp as [[? _] | (a' & [= <-] & ?)]; done. }
  erewrite bind_Ret by apply Hcopy.
  erewrite bind_Ret by (by apply swap_ptr_eq). cbn [ptr_ size_ capacity_].
  assert (∀ v, size_ v = N.of_nat (length xs) ∨ this ≠ rhs →
            GetSize rhs (mkState (<[this := v]> o) (copied_heap h xs))
            = Ret (N.of_nat (length xs)) (mkState (<[this := v]> o) (copied_heap h xs)))
    as Hsize.
  { intros v Hv. destruct (decide (this = rhs)) as [<-|Hne].
    - erewrite GetSize_eq by apply lookup_insert_eq. destruct Hv as [->|]; done.
    - by erewrite GetSize_eq by (by rewrite lookup_insert_ne). }
  assert (length ys = length xs ∨ this ≠ rhs) as Hsz.
  { destruct (decide (this = rhs)) as [->|]; [left | by right].
    rewrite Hobj in Hobj2. injection Hobj2. lia. }
  erewrite bind_Ret by (apply Hsize; destruct Hsz as [->|]; [by left | by right]).
  erewrite bind_Ret by (apply put_size_eq, lookup_insert_eq). cbn [ptr_ size_ capacity_].
  rewrite insert_insert_eq.
  erewrite bind_Ret by (apply Hsize; by left).
  erewrite bind_Ret by (apply put_capacity_eq, lookup_insert_eq). cbn [ptr_ size_ capacity_].
  rewrite insert_insert_eq.
  unfold ArrayPtr_destroy. cbn [raw_ptr_].
  eapply (delete_array_eq _ _ _ blk2).
  destruct Hp2 as [? | (a2 & -> & Ha2)]; [by left | right].
  exists a2. split; [done|]. by apply copied_heap_keeps.
Qed.

(** X24: copy assignment frees the array the destination owned and
    allocates one array for the copy unless the source is empty, so that no
    array is left behind; this is so for a self assignment as well. *)
Theorem copy_assignment_does_not_leak s this rhs xs c ys c2 :
  holds s rhs xs c → holds s this ys c2 →
  ∃ s',
    assign_copy this rhs s = Ret () s' ∧
    (∀ a, owned s this = Some a → heap s' !! a = None) ∧
    (∀ a, owned s' this = Some a → heap s !! a = None) ∧
    (xs = [] → owned s' this = None) ∧
    live_arrays s'
    = (live_arrays s + match xs with [] => 0 | _ => 1 end
       - match owned s this with Some _ => 1 | None => 0 end)%nat.
Proof.
  destruct s as [o h]. intros Hrhs Hthis.
  pose proof Hthis as (p2 & blk2 & Hobj2 & Hlen2 & Hc2 & Hle2 & Hxs2 & Hp2)%holds_inv.
  cbn in Hobj2, Hp2. pose proof (fresh_heap h) as Ht.
  eexists. split; [by eapply assign_copy_eq|]. split_and!.
  - intros a. erewrite owned_eq by done. cbn.
    destruct Hp2 as [[-> ->] | (a2 & -> & Ha2)]; [done|].
    intros [= <-]. apply lookup_delete_eq.
  - intros a. erewrite owned_eq by apply lookup_insert_eq. cbn.
    destruct xs; [done|]. by intros [= <-].
  - intros ->. by erewrite owned_eq by apply lookup_insert_eq.
  - unfold live_arrays. erewrite owned_eq by done. cbn [heap ptr_ raw_ptr_].
    destruct Hp2 as [[-> ->] | (a2 & -> & Ha2)]; cbn [freed].
    + destruct xs; cbn [copied_heap]; [lia|]. rewrite map_size_insert_None by done. lia.
    + rewrite map_size_delete_Some by (erewrite copied_heap_keeps; eauto).
      destruct xs; cbn [copied_heap]; [lia|].
      rewrite map_size_insert_None by done. lia.
Qed.

Lemma PushBack_alone s0 s this xs c x :
  holds s this xs c → (N.of_nat (length xs) = c → c * 2 < SIZE_MOD) →
  alone_on s0 s this →
  ∃ s', PushBack this x s = Ret () s' ∧
        holds s' this (xs ++ [x]) (grown_capacity (N.of_nat (length xs)) c) ∧
        alone_on s0 s' this.
Proof.
  destruct s0 as [o0 h0], s as [o h]. intros Hholds Hfull (Hnew & [v0 Hobjs] & Hheap).
  cbn in Hnew, Hobjs.
  pose proof Hholds as (p & blk & Hobj & Hlen & Hc & Hle & Hxs & Hp)%holds_inv.
  cbn in Hobj, Hp. erewrite owned_eq in Hheap by done. cbn in Hheap.
  (* the growth step *)
  assert (∃ o1 h1,
    grow_if_full this (mkState o h) = Ret () (mkState o1 h1) ∧
    holds (mkState o1 h1) this xs (grown_capacity (N.of_nat (length xs)) c) ∧
    alone_on (mkState o0 h0) (mkState o1 h1) this) as (o1 & h1 & Hgrow & Hholds1 & Halone1).
  { unfold grow_if_full, grown_capacity.
    erewrite bind_Ret by (by apply get_obj_eq). cbn [size_ capacity_].
    destruct (N.eqb_spec (N.of_nat (length xs)) c) as [Heq|Hne].
    - specialize (Hfull Heq).
      set (n := if c =? 0 then 1 else size_mul c 2).
      assert (n = N.max 1 (c * 2) ∧ c < n ∧ n < SIZE_MOD) as (Hn & Hcn & Hnlt).
      { subst n. pose proof SIZE_MOD_gt_1. destruct (N.eqb_spec c 0); [lia|].
        rewrite size_mul_small by done. lia. }
      destruct (Reserve_grow_eq o h this xs c n p Hholds Hcn Hnlt Hobj)
        as (blk' & Hrun & Hlen' & Hxs').
      eexists _, _. split; [apply Hrun|]. rewrite <- Hn. split.
      + destruct (Reserve_spec _ this xs c n Hholds Hnlt) as (s' & Hrun' & Hholds' & _).
        rewrite Hrun in Hrun'. injection Hrun' as <-.
        by rewrite N.max_r in Hholds' by lia.
      + split; [done|]. split.
        { exists (mkSimpleVector (mkArrayPtr (Ptr (fresh (dom h)) 0))
                    (N.of_nat (length xs)) n).
          cbn. by rewrite Hobjs, insert_insert_eq. }
        erewrite owned_eq by apply lookup_insert_eq. cbn.
        pose proof (fresh_heap h) as Ht.
        destruct Hp as [[-> ->] | (a & -> & Ha)]; cbn in Hheap |- *.
        * subst h. split; [done|]. by exists blk'.
        * destruct Hheap as [Ha0 [blk0 ->]].
          apply lookup_insert_None in Ht as [Ht Hta].
          split; [done|]. exists blk'.
          rewrite delete_insert_ne by done. by rewrite delete_insert_id.
    - eexists _, _. split; [done|]. split; [done|].
      split; [done|]. split; [by exists v0|]. by erewrite owned_eq by done. }
  (* the write *)
  pose proof (grown_capacity_gt (N.of_nat (length xs)) c ltac:(lia)) as Hgt.
  destruct (PushBack_in_place_eq o1 h1 this xs _ x Hholds1 Hgt)
    as (a & blk1 & Hobj1 & Ha1 & Hrun & Hholds2).
  eexists. split_and!; [| exact Hholds2 |].
  - unfold PushBack in Hrun |- *.
    erewrite bind_Ret by apply Hgrow.
    erewrite bind_Ret in Hrun; [exact Hrun|].
    unfold grow_if_full. erewrite bind_Ret by (by apply get_obj_eq). cbn [size_ capacity_].
    by destruct (N.eqb_spec (N.of_nat (length xs))
                   (grown_capacity (N.of_nat (length xs)) c)); [lia|].
  - destruct Halone1 as (_ & [v1 Hobjs1] & Hheap1). cbn in Hobjs1.
    erewrite owned_eq in Hheap1 by done. cbn in Hheap1.
    destruct Hheap1 as [Ha0 [blk0 ->]].
    split; [done|]. split.
    { eexists. cbn. by rewrite Hobjs1, insert_insert_eq. }
    erewrite owned_eq by apply lookup_insert_eq. cbn.
    split; [done|]. eexists. by rewrite insert_insert_eq.
Qed.

Lemma PushBack_all_alone xs : ∀ s0 s this ys c,
  holds s this ys c → doubled (N.of_nat (length ys)) c →
  N.of_nat (length ys + length xs) ≤ 2 ^ 63 →
  alone_on s0 s this →
  ∃ s' c', PushBack_all this xs s = Ret () s' ∧
           holds s' this (ys ++ xs) c' ∧ alone_on s0 s' this.
Proof.
  induction xs as [|x xs IH]; intros s0 s this ys c Hholds Hd Hk Halone.
  - exists s, c. rewrite app_nil_r. done.
  - destruct (PushBack_alone s0 s this ys c x Hholds) as (s1 & Hrun & Hholds1 & Halone1);
      [|done|].
    { intros Hfull. cbn in Hk. assert (c < 2 ^ 63) as Hlt by lia.
      change SIZE_MOD with (2 ^ 63 * 2). lia. }
    apply doubled_grown in Hd.
    replace (N.of_nat (length ys) + 1) with (N.of_nat (length (ys ++ [x]))) in Hd
      by (rewrite length_app; cbn; lia).
    destruct (IH s0 s1 this (ys ++ [x]) _ Hholds1 Hd) as (s' & c' & Hrun' & Hholds' & Halone');
      [rewrite length_app; cbn in *; lia | done |].
    exists s', c'. rewrite <- app_assoc in Hholds'. split_and!; [|done..].
    cbn [PushBack_all]. by erewrite bind_Ret.
Qed.

(** X25: a vector that is default-constructed, filled by any number of
    [PushBack] calls (at most [2^63]) and destroyed leaves the very store
    there was before it: every array its growth allocated has been freed, and
    no array of the store has been touched. *)
Theorem vector_lifetime_restores_the_store s this xs :
  objs s !! this = None → N.of_nat (length xs) ≤ 2 ^ 63 →
  (SimpleVector_default this;; PushBack_all this xs;; SimpleVector_destroy this) s
  = Ret () s.
Proof.
  destruct s as [o h]. cbn. intros Hnew Hk.
  erewrite bind_Ret by (unfold SimpleVector_default, new_obj; cbn; by rewrite Hnew).
  destruct (PushBack_all_alone xs (mkState o h)
              (mkState (<[this := mkSimpleVector (mkArrayPtr nullptr) 0 0]> o) h)
              this [] 0) as ([o' h'] & c & Hrun & Hholds & Halone).
  { apply holds_null, lookup_insert_eq. }
  { done. }
  { done. }
  { split; [done|]. split; [by eexists|]. by erewrite owned_eq by apply lookup_insert_eq. }
  erewrite bind_Ret by apply Hrun.
  destruct Halone as (_ & [v Hobjs] & Hheap). cbn in Hobjs. subst o'.
  pose proof Hholds as (p & blk & Hobj & _ & _ & _ & _ & Hp)%holds_inv. cbn in Hobj, Hp.
  erewrite owned_eq in Hheap by done. cbn in Hheap.
  erewrite SimpleVector_destroy_eq; [| done | by eapply delete_array_eq].
  cbn [ptr_ raw_ptr_]. rewrite delete_insert_id by done. do 2 f_equal.
  destruct Hp as [[-> ->] | (a & -> & Ha)]; cbn in Hheap |- *; [done|].
  destruct Hheap as [Ha0 [blk0 ->]]. by rewrite delete_insert_id.
Qed.

(** X26: move assignment of [ArrayPtr] hands the pointer of [other] over and
    leaves [other] null, without freeing the array [this] owned: afterwards no
    object of the two holds that array, and the two destructors leave it
    live.  A self assignment changes nothing. *)
Theorem ArrayPtr_move_assignment_drops_the_old_array s (ps : gmap ref ArrayPtr)
    (this other : ref) (p o : ArrayPtr) (a : addr) blk s' :
  ps !! this = Some p → ps !! other = Some o → this ≠ other →
  ArrayPtr_Get p = Ptr a 0 → heap s !! a = Some blk → ArrayPtr_Get o ≠ Ptr a 0 →
  ArrayPtr_destroy o s = Ret () s' →
  ArrayPtr_assign_move this this ps = Some ps ∧
  ∃ ps' (p' o' : ArrayPtr),
    ArrayPtr_assign_move this other ps = Some ps' ∧
    ps' !! this = Some p' ∧ ps' !! other = Some o' ∧
    (∀ r, r ≠ this → r ≠ other → ps' !! r = ps !! r) ∧
    ArrayPtr_Get p' = ArrayPtr_Get o ∧
    ArrayPtr_Get o' = nullptr ∧
    (ArrayPtr_destroy p';; ArrayPtr_destroy o') s = Ret () s' ∧
    heap s' !! a = Some blk.
Proof.
  intros Hp Ho Hne Hget Ha Hoa Hdel. split.
  - unfold ArrayPtr_assign_move. rewrite Hp. cbn.
    by rewrite bool_decide_eq_false_2 by (by intros []).
  - exists (<[other := mkArrayPtr nullptr]>
              (<[other := mkArrayPtr (raw_ptr_ p)]> (<[this := mkArrayPtr (raw_ptr_ o)]> ps))),
      (mkArrayPtr (raw_ptr_ o)), (mkArrayPtr nullptr).
    split_and!.
    + unfold ArrayPtr_assign_move. rewrite Hp. cbn. rewrite Ho. cbn.
      by rewrite bool_decide_eq_true_2.
    + by rewrite !lookup_insert_ne, lookup_insert_eq by done.
    + by rewrite lookup_insert_eq.
    + intros r Hr1 Hr2. by rewrite !lookup_insert_ne by done.
    + done.
    + done.
    + unfold ArrayPtr_destroy in *. cbn [raw_ptr_].
      unfold mbind, M_bind. by rewrite Hdel.
    + unfold ArrayPtr_destroy, ArrayPtr_Get in *. destruct o as [[|b i]]; cbn in Hdel.
      * by injection Hdel as <-.
      * destruct (i =? 0) eqn:Hi; [|done]. apply N.eqb_eq in Hi as ->.
        destruct (heap s !! b) eqn:Hb; [|done]. injection Hdel as <-. cbn.
        rewrite lookup_delete_ne; [done|]. intros ->. by apply Hoa.
Qed.

(** X27: [ArrayPtr(raw)] holds the pointer it is given, so that adopting what
    [Release()] returns is the move constructor; and two objects that adopt
    one live array free it twice: the second destructor is undefined. *)
Theorem adoption_takes_ownership s (p : ArrayPtr) :
  ∃ raw p',
    ArrayPtr_Release p s = Ret (raw, p') s ∧
    ArrayPtr_Get (ArrayPtr_adopt raw) = ArrayPtr_Get p ∧
    ArrayPtr_move p = (ArrayPtr_adopt raw, p') ∧
    (ArrayPtr_destroy (ArrayPtr_adopt raw);; ArrayPtr_destroy p') s = ArrayPtr_destroy p s ∧
    (∀ a blk, raw = Ptr a 0 → heap s !! a = Some blk →
       ∃ s', ArrayPtr_destroy (ArrayPtr_adopt raw) s = Ret () s' ∧
             heap s' = delete a (heap s) ∧
             ArrayPtr_destroy (ArrayPtr_adopt raw) s' = Fault ∧
             (ArrayPtr_destroy (ArrayPtr_adopt raw);; ArrayPtr_destroy (ArrayPtr_adopt raw)) s
             = Fault).
Proof.
  destruct p as [q]. exists q, (mkArrayPtr nullptr).
  split_and!; [done | done | done | |].
  - unfold ArrayPtr_destroy, ArrayPtr_adopt. cbn [raw_ptr_].
    unfold mbind, M_bind. by destruct (delete_array q s) as [[] ?| |].
  - intros a blk -> Ha. eexists. split_and!.
    + unfold ArrayPtr_destroy, ArrayPtr_adopt. cbn. rewrite Ha. reflexivity.
    + done.
    + unfold ArrayPtr_destroy, ArrayPtr_adopt. cbn. by rewrite lookup_delete_eq.
    + unfold ArrayPtr_destroy, ArrayPtr_adopt, mbind, M_bind. cbn. rewrite Ha.
      cbn. by rewrite lookup_delete_eq.
Qed.

End Coverage.

(** * The further theorems at [SimpleVector<int>] *)

Lemma Reserve_reallocates_once_witness :
  ∃ s',
    Reserve 1 8 sample_state = Ret () s' ∧
    elements s' 1 = Some [1; 2; 3]%Z ∧
    GetCapacity 1 s' = Ret 8 s' ∧
    live_arrays s' = live_arrays sample_state.
Proof.
  assert (holds sample_state 1 [1; 2; 3]%Z 4) as Ha by holds_by_evaluation.
  destruct (proj2 (Reserve_reallocates_once sample_state 1 [1; 2; 3]%Z 4 8 Ha eq_refl) eq_refl)
    as (s' & Hrun & Hel & _ & Hcap & _ & _ & Hlive & _).
  exists s'. split_and!; [done | done | done |]. rewrite Hlive. reflexivity.
Defined.

Lemma sized_constructor_fills_with_defaults_witness :
  ∃ s',
    SimpleVector_sized 1 3 empty_state = Ret () s' ∧
    GetSize 1 s' = Ret 3 s' ∧
    GetCapacity 1 s' = Ret 3 s' ∧
    elements s' 1 = Some [0; 0; 0]%Z.
Proof.
  destruct (sized_constructor_fills_with_defaults empty_state 1 3 eq_refl eq_refl)
    as (s' & Hrun & Hsize & Hcap & Hel & _).
  exists s'. split_and!; done.
Defined.

Lemma filled_constructor_repeats_the_value_witness :
  ∃ s',
    SimpleVector_filled 1 3 7%Z empty_state = Ret () s' ∧
    GetSize 1 s' = Ret 3 s' ∧
    GetCapacity 1 s' = Ret 3 s' ∧
    elements s' 1 = Some [7; 7; 7]%Z.
Proof.
  destruct (filled_constructor_repeats_the_value empty_state 1 3 7%Z eq_refl eq_refl)
    as (s' & Hrun & Hsize & Hcap & Hel & _).
  exists s'. split_and!; done.
Defined.

Lemma list_constructor_keeps_the_order_witness :
  ∃ s',
    SimpleVector_list 1 [1; 2; 3]%Z empty_state = Ret () s' ∧
    GetSize 1 s' = Ret 3 s' ∧
    GetCapacity 1 s' = Ret 3 s' ∧
    elements s' 1 = Some [1; 2; 3]%Z.
Proof.
  destruct (list_constructor_keeps_the_order empty_state 1 [1; 2; 3]%Z eq_refl eq_refl)
    as (s' & Hrun & Hsize & Hcap & Hel & _).
  exists s'. split_and!; done.
Defined.

Lemma reserved_vector_does_not_reallocate_witness :
  ∃ s1 p s2,
    SimpleVector_reserved 1 (Reserve_proxy 4) empty_state = Ret () s1 ∧
    begin 1 s1 = Ret p s1 ∧
    PushBack_all 1 [1; 2; 3]%Z s1 = Ret () s2 ∧
    begin 1 s2 = Ret p s2 ∧
    GetCapacity 1 s2 = Ret 4 s2 ∧
    elements s2 1 = Some [1; 2; 3]%Z.
Proof.
  destruct (reserved_vector_does_not_reallocate empty_state 1 4 [1; 2; 3]%Z)
    as (s1 & p & s2 & H1 & _ & _ & H2 & H3 & H4 & H5 & H6 & _).
  - reflexivity.
  - reflexivity.
  - vm_compute. discriminate.
  - exists s1, p, s2. split_and!; done.
Defined.

Lemma Clear_keeps_the_allocation_witness :
  ∃ s1 s2,
    Clear 1 sample_state = Ret () s1 ∧
    GetSize 1 s1 = Ret 0 s1 ∧
    GetCapacity 1 s1 = Ret 4 s1 ∧
    heap s1 = heap sample_state ∧
    PushBack_all 1 [9; 9]%Z s1 = Ret () s2 ∧
    elements s2 1 = Some [9; 9]%Z.
Proof.
  destruct (Clear_keeps_the_allocation sample_state 1 [1; 2; 3]%Z 4 [9; 9]%Z)
    as (s1 & s2 & H1 & H2 & _ & H3 & _ & H4 & H5 & H6 & _).
  - holds_by_evaluation.
  - vm_compute. discriminate.
  - exists s1, s2. split_and!; done.
Defined.

Lemma PopBack_drops_the_last_witness :
  ∃ s',
    PopBack 1 sample_state = Ret () s' ∧
    elements s' 1 = Some [1; 2]%Z ∧
    GetSize 1 s' = Ret 2 s' ∧
    GetCapacity 1 s' = Ret 4 s'.
Proof.
  assert (holds sample_state 1 [1; 2; 3]%Z 4) as Ha by holds_by_evaluation.
  exact (proj2 (PopBack_drops_the_last sample_state 1 [1; 2; 3]%Z 4 Ha)
           [1; 2]%Z 3%Z eq_refl).
Defined.

Lemma PushBack_then_PopBack_restores_witness :
  ∃ s1 s2,
    PushBack 1 4%Z sample_state = Ret () s1 ∧
    PopBack 1 s1 = Ret () s2 ∧
    elements s2 1 = Some [1; 2; 3]%Z ∧
    GetSize 1 s2 = Ret 3 s2 ∧
    GetCapacity 1 s2 = Ret 4 s2.
Proof.
  refine (PushBack_then_PopBack_restores sample_state 1 [1; 2; 3]%Z 4 4%Z _ _).
  - holds_by_evaluation.
  - discriminate.
Defined.

Lemma swap_exchanges_and_undoes_witness :
  ∃ s',
    swap 1 2 sample_state = Ret () s' ∧
    elements s' 1 = Some [5]%Z ∧ GetCapacity 1 s' = Ret 1 s' ∧
    elements s' 2 = Some [1; 2; 3]%Z ∧ GetCapacity 2 s' = Ret 4 s' ∧
    heap s' = heap sample_state ∧
    swap 1 2 s' = Ret () sample_state.
Proof.
  refine (proj1 (swap_exchanges_and_undoes sample_state 1 2 [1; 2; 3]%Z [5]%Z 4 1 _ _ _)).
  - holds_by_evaluation.
  - holds_by_evaluation.
  - discriminate.
Defined.

Lemma Insert_at_end_is_PushBack_witness :
  ∃ s1 it s2,
    Insert 1 (Ptr 1 3) 4%Z sample_state = Ret it s1 ∧
    PushBack 1 4%Z sample_state = Ret () s2 ∧
    elements s1 1 = Some [1; 2; 3; 4]%Z ∧
    elements s2 1 = Some [1; 2; 3; 4]%Z ∧
    load it s1 = Ret 4%Z s1.
Proof.
  destruct (Insert_at_end_is_PushBack sample_state 1 [1; 2; 3]%Z 4 4%Z (Ptr 1 3))
    as (s1 & it & s2 & H1 & H2 & H3 & H4 & _ & _ & _ & _ & H5).
  - holds_by_evaluation.
  - discriminate.
  - reflexivity.
  - exists s1, it, s2. split_and!; done.
Defined.

Lemma Erase_then_Insert_restores_witness :
  ∃ s1 s2 it,
    Erase 1 (Ptr 1 1) sample_state = Ret (Ptr 1 1) s1 ∧
    elements s1 1 = Some [1; 3]%Z ∧
    Insert 1 (Ptr 1 1) 2%Z s1 = Ret it s2 ∧
    elements s2 1 = Some [1; 2; 3]%Z ∧
    GetCapacity 1 s2 = Ret 4 s2.
Proof.
  destruct (Erase_then_Insert_restores sample_state 1 [1; 2; 3]%Z 4 1 2%Z (Ptr 1 1))
    as (s1 & s2 & it & H1 & H2 & _ & H3 & H4 & _ & H5).
  - holds_by_evaluation.
  - reflexivity.
  - reflexivity.
  - exists s1, s2, it. split_and!; done.
Defined.


Lemma Erase_at_end_is_undefined_witness :
  ∃ e,
    end_ 1 sample_state = Ret e sample_state ∧
    assert_position 1 e sample_state = Ret () sample_state ∧
    Erase 1 e sample_state = Fault.
Proof.
  refine (Erase_at_end_is_undefined sample_state 1 [1; 2; 3]%Z 4 _).
  holds_by_evaluation.
Defined.

Lemma index_writes_one_element_witness :
  index 1 3 sample_state = Fault ∧
  ∃ p s',
    index 1 1 sample_state = Ret p sample_state ∧
    store p 9%Z sample_state = Ret () s' ∧
    elements s' 1 = Some [1; 9; 3]%Z ∧
    GetSize 1 s' = Ret 3 s' ∧
    GetCapacity 1 s' = Ret 4 s'.
Proof.
  assert (holds sample_state 1 [1; 2; 3]%Z 4) as Ha by holds_by_evaluation.
  split.
  - apply (proj1 (index_writes_one_element sample_state 1 [1; 2; 3]%Z 4 3 9%Z Ha)).
    vm_compute. discriminate.
  - apply (proj2 (index_writes_one_element sample_state 1 [1; 2; 3]%Z 4 1 9%Z Ha)).
    reflexivity.
Defined.

Lemma begin_end_delimit_the_elements_witness :
  ∃ b e,
    begin 1 sample_state = Ret b sample_state ∧
    end_ 1 sample_state = Ret e sample_state ∧
    cbegin 1 sample_state = Ret b sample_state ∧
    cend 1 sample_state = Ret e sample_state ∧
    ptr_diff e b sample_state = Ret 3%Z sample_state.
Proof.
  destruct (begin_end_delimit_the_elements sample_state 1 [1; 2; 3]%Z 4)
    as (b & e & H1 & H2 & H3 & H4 & H5 & _).
  - holds_by_evaluation.
  - exists b, e. split_and!; done.
Defined.

Lemma returned_iterators_point_at_the_place_witness :
  (∃ s' it, Insert 1 (Ptr 1 1) 9%Z sample_state = Ret it s' ∧ load it s' = Ret 9%Z s') ∧
  (∃ s', Erase 1 (Ptr 1 1) sample_state = Ret (Ptr 1 1) s' ∧
         load (Ptr 1 1) s' = Ret 3%Z s').
Proof.
  destruct (returned_iterators_point_at_the_place sample_state 1 [1; 2; 3]%Z 4 1 9%Z (Ptr 1 1))
    as [Hins Hers].
  - holds_by_evaluation.
  - discriminate.
  - simpl. lia.
  - reflexivity.
  - split; [exact Hins|].
    destruct Hers as (s' & H1 & H2 & _); [simpl; lia|].
    exists s'. split; [done|]. by apply H2.
Defined.

Lemma ArrayPtr_owns_a_fresh_array_witness :
  ∃ p s',
    ArrayPtr_new 3 empty_state = Ret p s' ∧
    ArrayPtr_bool p = true ∧
    (∃ q, ArrayPtr_index p 2 s' = Ret q s' ∧ load q s' = Ret 0%Z s') ∧
    ArrayPtr_destroy p s' = Ret () empty_state.
Proof.
  destruct (ArrayPtr_owns_a_fresh_array empty_state 3) as (p & s' & H1 & H2 & _ & H3 & _ & H4).
  exists p, s'. split_and!; [done | done | | done]. by apply H3.
Defined.

Lemma destructor_frees_exactly_its_array_witness :
  (∃ s',
     SimpleVector_destroy 1 sample_state = Ret () s' ∧
     objs s' !! 1%positive = None ∧
     heap s' !! 1%positive = None ∧
     live_arrays s' = 1%nat ∧
     holds s' 2 [5]%Z 1) ∧
  (SimpleVector_copy 3 1;; SimpleVector_destroy 3) sample_state = Ret () sample_state.
Proof.
  assert (holds sample_state 1 [1; 2; 3]%Z 4) as Ha by holds_by_evaluation.
  destruct (destructor_frees_exactly_its_array sample_state 1 [1; 2; 3]%Z 4 Ha)
    as [(s' & H1 & H2 & H3 & H4 & H5) Hcopy].
  split.
  - exists s'. split_and!; [done | done | by apply H3 | by rewrite H4 |].
    apply H5; [|holds_by_evaluation].
    split; [discriminate|]. vm_compute. intros a [= <-]. discriminate.
  - by apply Hcopy.
Defined.

Lemma move_keeps_every_array_owned_once_witness :
  (∃ s', (SimpleVector_destroy 2;; SimpleVector_destroy 1) sample_state = Ret () s' ∧
         (assign_move 2 1;; SimpleVector_destroy 2;; SimpleVector_destroy 1) sample_state
         = Ret () s') ∧
  (∃ s', SimpleVector_destroy 1 sample_state = Ret () s' ∧
         (SimpleVector_move 3 1;; SimpleVector_destroy 3;; SimpleVector_destroy 1) sample_state
         = Ret () s').
Proof.
  assert (holds sample_state 1 [1; 2; 3]%Z 4) as Ha by holds_by_evaluation.
  split.
  - apply (proj1 (move_keeps_every_array_owned_once sample_state 1 2 [1; 2; 3]%Z 4 Ha)
             [5]%Z 1).
    + holds_by_evaluation.
    + split; [discriminate|]. vm_compute. intros a [= <-]. discriminate.
  - apply (proj2 (move_keeps_every_array_owned_once sample_state 1 3 [1; 2; 3]%Z 4 Ha)).
    reflexivity.
Defined.

Lemma Z_ltb_asymmetric (x y : Z) : T_lt x y = true → T_lt y x = false.
Proof. cbn. intros H%Z.ltb_lt. apply Z.ltb_ge. lia. Qed.

Lemma vector_order_is_strict_witness :
  op_lt 1 1 sample_state = Ret false sample_state ∧
  op_lt 1 2 sample_state = Ret true sample_state ∧
  op_lt 2 1 sample_state = Ret false sample_state ∧
  op_le 1 2 sample_state = Ret true sample_state ∧
  op_gt 2 1 sample_state = Ret true sample_state ∧
  op_gt 1 2 sample_state = Ret false sample_state ∧
  op_ge 1 2 sample_state = Ret false sample_state.
Proof.
  destruct (vector_order_is_strict sample_state 1 2 [1; 2; 3]%Z [5]%Z 4 1 Z_ltb_asymmetric)
    as (Hirr & _ & _ & _ & Hasym).
  - holds_by_evaluation.
  - holds_by_evaluation.
  - assert (op_lt 1 2 sample_state = Ret true sample_state) as Hlt by reflexivity.
    destruct (Hasym Hlt) as (H1 & H2 & H3 & H4 & H5).
    split_and!; done.
Defined.

Lemma Z_eqb_excludes_ltb (x y : Z) :
  T_eq x y = true → T_lt x y = false ∧ T_lt y x = false.
Proof. cbn. intros ->%Z.eqb_eq. by rewrite Z.ltb_irrefl. Qed.

Lemma equal_vectors_are_not_ordered_witness :
  ∃ s,
    SimpleVector_copy 3 1 sample_state = Ret () s ∧
    op_eq 1 3 s = Ret true s ∧
    op_lt 1 3 s = Ret false s ∧ op_lt 3 1 s = Ret false s ∧
    op_le 1 3 s = Ret true s ∧ op_ge 1 3 s = Ret true s ∧
    op_gt 1 3 s = Ret false s.
Proof.
  eexists. split; [vm_compute; reflexivity|].
  split; [reflexivity|].
  refine (equal_vectors_are_not_ordered _ 1 3 [1; 2; 3]%Z [1; 2; 3]%Z 4 3
            Z.eqb_refl Z_eqb_excludes_ltb _ _ _).
  - holds_by_evaluation.
  - holds_by_evaluation.
  - reflexivity.
Defined.

Lemma PopBack_is_Erase_of_the_last_witness :
  ∃ s', PopBack 1 sample_state = Ret () s' ∧
        Erase 1 (Ptr 1 2) sample_state = Ret (Ptr 1 2) s'.
Proof.
  refine (proj2 (PopBack_is_Erase_of_the_last sample_state 1 [1; 2; 3]%Z 4 (Ptr 1 2)) _ _ _).
  - holds_by_evaluation.
  - discriminate.
  - reflexivity.
Defined.

Lemma copy_assignment_does_not_leak_witness :
  ∃ s',
    assign_copy 2 1 sample_state = Ret () s' ∧
    heap s' !! 2%positive = None ∧
    live_arrays s' = 2%nat.
Proof.
  destruct (copy_assignment_does_not_leak sample_state 2 1 [1; 2; 3]%Z 4 [5]%Z 1)
    as (s' & H1 & H2 & _ & _ & H3).
  - holds_by_evaluation.
  - holds_by_evaluation.
  - exists s'. split_and!; [done | by apply H2 | by rewrite H3].
Defined.

Lemma vector_lifetime_restores_the_store_witness :
  (SimpleVector_default 3;; PushBack_all 3 [7; 8; 9]%Z;; SimpleVector_destroy 3) sample_state
  = Ret () sample_state.
Proof.
  refine (vector_lifetime_restores_the_store sample_state 3 [7; 8; 9]%Z _ _).
  - reflexivity.
  - vm_compute. discriminate.
Defined.

Lemma ArrayPtr_move_assignment_drops_the_old_array_witness :
  ∃ ps' s',
    ArrayPtr_assign_move 1 2 {[1%positive := mkArrayPtr (Ptr 1 0); 2%positive := mkArrayPtr (Ptr 2 0)]}
    = Some ps' ∧
    ps' !! 1%positive = Some (mkArrayPtr (Ptr 2 0)) ∧
    ps' !! 2%positive = Some (mkArrayPtr nullptr) ∧
    (ArrayPtr_destroy (mkArrayPtr (Ptr 2 0));; ArrayPtr_destroy (mkArrayPtr nullptr)) sample_state
    = Ret () s' ∧
    heap s' !! 1%positive = Some [1; 2; 3; 0]%Z.
Proof.
  destruct (ArrayPtr_move_assignment_drops_the_old_array sample_state
              {[1%positive := mkArrayPtr (Ptr 1 0); 2%positive := mkArrayPtr (Ptr 2 0)]}
              1 2 (mkArrayPtr (Ptr 1 0)) (mkArrayPtr (Ptr 2 0)) 1 [1; 2; 3; 0]%Z
              (mkState (objs sample_state) (delete 2%positive (heap sample_state))))
    as (_ & ps' & p' & o' & H1 & H2 & H3 & _ & H4 & H5 & H6 & H7).
  - reflexivity.
  - reflexivity.
  - discriminate.
  - reflexivity.
  - reflexivity.
  - discriminate.
  - reflexivity.
  - destruct p' as [q], o' as [q']. cbn in H4, H5. subst q q'.
    eexists _, _. split_and!; done.
Defined.

Lemma adoption_takes_ownership_witness :
  ∃ s',
    ArrayPtr_destroy (ArrayPtr_adopt (Ptr 1 0)) sample_state = Ret () s' ∧
    ArrayPtr_destroy (ArrayPtr_adopt (Ptr 1 0)) s' = Fault.
Proof.
  destruct (adoption_takes_ownership sample_state (mkArrayPtr (Ptr 1 0)))
    as (raw & p' & Hrel & _ & _ & _ & Htwice).
  injection Hrel as <- <-.
  destruct (Htwice 1%positive [1; 2; 3; 0]%Z eq_refl eq_refl) as (s' & H1 & _ & H2 & _).
  by exists s'.
Defined.
